(** * The coordinate-warping engine of elektronn3, in Rocq

    A shallow embedding of [elektronn3/data/coord_transforms.py]: the
    homogeneous 4x4 matrix builders, the random transform sampler
    [get_warped_coord_transform], the two resamplers
    [map_coordinates_nearest] / [map_coordinates_linear] and the patch
    extraction [warp_slice], followed by the properties of the design
    document that concern them.

    Conventions of the model.
    - [floatX] and [float64] numbers are exact rationals ([Q]); rounding
      error, infinities and NaN are not represented.  Equality of
      computed numbers is therefore [Qeq] ([==]).
    - Integers ([np.int], [np.int32], array indices, shapes) are [Z].
      Coordinates are [float32] in the source, exact up to 2^24 only;
      the model idealises that range and, with it, the range of the
      [np.int32] indices computed from the coordinates.
    - A NumPy generator ([np.random.RandomState]) is the sequence of raw
      words it is going to emit; sampling consumes words from the front.
      The ambient generator of the [np.random] module is a second such
      sequence, threaded separately from the generator passed by the
      caller.
    - Python exceptions are values of [exn]; fallible code returns
      [exn + A].  [warp_slice] additionally records the read requests it
      issues to the volumetric sources.

    The plain-Python helpers of [elektronn3/data/utils.py] are embedded
    in the module [Utils] below, with conventions of their own. *)

From Stdlib Require Import QArith Qround Qabs Qminmax ZArith List Bool Lia Lqa Ascii.
Import ListNotations.
Local Open Scope Z_scope.
Local Open Scope Q_scope.

(** ** Exceptions and the error monad *)

(** [WarpingOOBError] is declared in the source as a subclass of
    [ValueError]; the other constructors are Python built-ins, and
    [LinAlgError] is the one [np.linalg.inv] raises on a singular matrix. *)
Inductive exn : Type :=
| NotImplementedError
| ValueError
| WarpingOOBError
| TypeError
| IndexError
| AssertionError
| ZeroDivisionError
| LinAlgError.

Definition result (A : Type) : Type := (exn + A)%type.

Definition ok {A} (a : A) : result A := inr a.
Definition raise {A} (e : exn) : result A := inl e.

Definition rbind {A B} (m : result A) (f : A -> result B) : result B :=
  match m with
  | inl e => inl e
  | inr a => f a
  end.

Notation "'let?' x ':=' m 'in' k" := (rbind m (fun x => k))
  (at level 10, x pattern, m at level 100, k at level 200).

Definition is_ok {A} (r : result A) : bool :=
  match r with inr _ => true | inl _ => false end.

(** ** Three-component vectors (NumPy arrays of length 3) *)

Definition vec3 (A : Type) : Type := (A * A * A)%type.
Definition Z3 := vec3 Z.
Definition Q3 := vec3 Q.

Definition map3 {A B} (f : A -> B) (v : vec3 A) : vec3 B :=
  let '(a, b, c) := v in (f a, f b, f c).

Definition zip3 {A B C} (f : A -> B -> C) (v : vec3 A) (w : vec3 B) : vec3 C :=
  let '(a, b, c) := v in let '(a', b', c') := w in (f a a', f b b', f c c').

Definition any3 {A} (p : A -> bool) (v : vec3 A) : bool :=
  let '(a, b, c) := v in p a || p b || p c.

Definition all3 {A} (p : A -> bool) (v : vec3 A) : bool :=
  let '(a, b, c) := v in p a && p b && p c.

Definition list3 {A} (v : vec3 A) : list A :=
  let '(a, b, c) := v in [a; b; c].

(** Broadcasting of a 1-d array against an array of length 3: lengths 3
    and 1 are compatible, every other length makes NumPy raise
    [ValueError] ("operands could not be broadcast together"). *)
Definition bcast3 {A} (l : list A) : result (vec3 A) :=
  match l with
  | [a] => ok (a, a, a)
  | [a; b; c] => ok (a, b, c)
  | _ => raise ValueError
  end.

Definition Qlt_bool (x y : Q) : bool := negb (Qle_bool y x).

(** Conversion of a float to an integer type ([np.int32(u)], the
    integer arguments of [randint]): truncation toward zero. *)
Definition Qtrunc (q : Q) : Z := Z.quot (Qnum q) (Zpos (Qden q)).

(** [np.round]: to the nearest integer, ties to the even one. *)
Definition Qround_even (q : Q) : Z :=
  let f := Qfloor q in
  match ((q - inject_Z f) ?= (1 # 2))%Q with
  | Lt => f
  | Gt => (f + 1)%Z
  | Eq => if Z.even f then f else (f + 1)%Z
  end.

(** ** Matrices *)

Definition matrix := list (list Q).

Definition entry (M : matrix) (i j : nat) : Q := nth j (nth i M []) 0.

Definition eye4 : matrix :=
  [[1; 0; 0; 0];
   [0; 1; 0; 0];
   [0; 0; 1; 0];
   [0; 0; 0; 1]].

Definition identity : matrix := eye4.

Definition translate (dz dy dx : Q) : matrix :=
  [[1; 0; 0; dz];
   [0; 1; 0; dy];
   [0; 0; 1; dx];
   [0; 0; 0; 1]].

(** [1/mz] on Python numbers: a zero factor raises. *)
Definition scale_inv (mz my mx : Q) : result matrix :=
  if Qeq_bool mz 0 || Qeq_bool my 0 || Qeq_bool mx 0
  then raise ZeroDivisionError
  else ok [[1 / mz; 0; 0; 0];
           [0; 1 / my; 0; 0];
           [0; 0; 1 / mx; 0];
           [0; 0; 0; 1]].

Definition scale (mz my mx : Q) : matrix :=
  [[mz; 0; 0; 0];
   [0; my; 0; 0];
   [0; 0; mx; 0];
   [0; 0; 0; 1]].

Definition vdot (r c : list Q) : Q :=
  fold_left Qplus (map (fun p => fst p * snd p) (combine r c)) 0.

Definition col (j : nat) (B : matrix) : list Q := map (fun r => nth j r 0) B.

Definition ncols (B : matrix) : nat := length (hd [] B).

(** [np.dot] on two 2-d arrays. *)
Definition dot (A B : matrix) : matrix :=
  map (fun r => map (fun j => vdot r (col j B)) (seq 0 (ncols B))) A.

(** [np.dot] of a matrix and a vector. *)
Definition mat_vec (A : matrix) (v : list Q) : list Q := map (fun r => vdot r v) A.

Definition chain_matrices (mat_list : list matrix) : matrix :=
  fold_left dot mat_list identity.

Definition mat_add (A B : matrix) : matrix :=
  map (fun p => map (fun q => fst q + snd q) (combine (fst p) (snd p))) (combine A B).

(** In-place updates of single entries, rows and columns are written as a
    map over the indexed entries. *)
Definition mapij (f : nat -> nat -> Q -> Q) (M : matrix) : matrix :=
  map (fun ir => map (fun jx => f (fst ir) (fst jx) (snd jx))
                     (combine (seq 0 (length (snd ir))) (snd ir)))
      (combine (seq 0 (length M)) M).

Definition mat_eq (A B : matrix) : Prop := Forall2 (Forall2 Qeq) A B.

(** *** Inversion

    [np.linalg.inv], which the source calls on the [float64] copy of [M]:
    the exact inverse, by cofactors; a singular matrix raises. *)

Definition drop_nth {A} (n : nat) (l : list A) : list A := firstn n l ++ skipn (S n) l.

Definition alt_sign (n : nat) (x : Q) : Q := if Nat.even n then x else - x.

Fixpoint det (n : nat) (M : matrix) : Q :=
  match n with
  | O => 1
  | S n' =>
      match M with
      | [] => 0
      | r :: rest =>
          fold_left Qplus
            (map (fun j => alt_sign j (nth j r 0 * det n' (map (drop_nth j) rest)))
                 (seq 0 n))
            0
      end
  end.

Definition cofactor (n i j : nat) (M : matrix) : Q :=
  alt_sign (i + j) (det (pred n) (map (drop_nth j) (drop_nth i M))).

Definition inv (M : matrix) : result matrix :=
  let d := det 4 M in
  if Qeq_bool d 0 then raise LinAlgError
  else ok (map (fun i => map (fun j => cofactor 4 j i M / d) (seq 0 4)) (seq 0 4)).

(** ** Random number generators *)

Definition RandomState := list Z.

Definition next_word (s : RandomState) : Z * RandomState :=
  match s with
  | [] => (0%Z, [])
  | w :: s' => (w, s')
  end.

(** [rng.rand()]: a float in [0, 1). *)
Definition rs_rand (s : RandomState) : Q * RandomState :=
  let (w, s') := next_word s in
  (inject_Z (w mod 2 ^ 32) / inject_Z (2 ^ 32), s').

(** [rng.randint(low, high)]: an integer in [low, high); float arguments
    are converted to integers first, and [low >= high] raises. *)
Definition rs_randint (low high : Q) (s : RandomState) : result (Z * RandomState) :=
  let lo := Qtrunc low in
  let hi := Qtrunc high in
  if (hi <=? lo)%Z then raise ValueError
  else let (w, s') := next_word s in ok ((lo + w mod (hi - lo))%Z, s').

(** [rng.binomial(1, 0.5, n)]: [n] fair coin flips. *)
Fixpoint rs_binomial_half (n : nat) (s : RandomState) : list Z * RandomState :=
  match n with
  | O => ([], s)
  | S n' =>
      let (w, s') := next_word s in
      let (l, s'') := rs_binomial_half n' s' in
      ((w mod 2)%Z :: l, s'')
  end.

(** [uniform(low, high, size)] with [n] the number of entries. *)
Fixpoint rs_uniform (low high : Q) (n : nat) (s : RandomState) : list Q * RandomState :=
  match n with
  | O => ([], s)
  | S n' =>
      let (u, s') := rs_rand s in
      let (l, s'') := rs_uniform low high n' s' in
      ((low + (high - low) * u) :: l, s'')
  end.

(** ** Outcomes of the sampler *)

(** The eight matrices chained by the sampler, in the order of the chain. *)
Record factors : Type := mkFactors {
  f_T_dest : matrix;
  f_S_dest : matrix;
  f_R : matrix;
  f_W : matrix;
  f_F : matrix;
  f_S : matrix;
  f_S_src : matrix;
  f_T_src : matrix
}.

Definition factor_list (f : factors) : list matrix :=
  [f_T_dest f; f_S_dest f; f_R f; f_W f; f_F f; f_S f; f_S_src f; f_T_src f].

(** The outcome of a sampler run: the value and the states of the passed
    and of the ambient generator after the run. *)
Record sampled (A : Type) : Type := mkSampled {
  value : A;
  rng_after : RandomState;
  ambient_after : RandomState
}.
Arguments mkSampled {A}.
Arguments value {A}.
Arguments rng_after {A}.
Arguments ambient_after {A}.

(** ** The random matrix builders

    The trigonometric functions and the constant pi of NumPy are
    parameters of the development. *)

Section Builders.

Variables (cos sin arcsin : Q -> Q) (pi : Q).

Definition rotate_z (a : Q) : matrix :=
  [[1; 0; 0; 0];
   [0; cos a; - sin a; 0];
   [0; sin a; cos a; 0];
   [0; 0; 0; 1]].

Definition rotate_y (a : Q) : matrix :=
  [[cos a; - sin a; 0; 0];
   [sin a; cos a; 0; 0];
   [0; 0; 1; 0];
   [0; 0; 0; 1]].

Definition rotate_x (a : Q) : matrix :=
  [[cos a; 0; sin a; 0];
   [0; 1; 0; 0];
   [- sin a; 0; cos a; 0];
   [0; 0; 0; 1]].

Definition get_random_rotmat (lock_z : bool) (amount : Q) (rng : RandomState)
  : matrix * RandomState :=
  let (u1, rng1) := rs_rand rng in
  let gamma := u1 * 2 * pi * amount in
  if lock_z then (rotate_z gamma, rng1)
  else
    let (u2, rng2) := rs_rand rng1 in
    let phi := u2 * 2 * pi * amount in
    let (u3, rng3) := rs_rand rng2 in
    let theta := arcsin u3 * amount in
    let R1 := rotate_z (- phi) in
    let R2 := rotate_y (- theta) in
    let R3 := rotate_z gamma in
    (chain_matrices [R3; R2; R1], rng3).

Definition get_random_flipmat (no_x_flip : bool) (rng : RandomState)
  : matrix * RandomState :=
  let (b, rng') := rs_binomial_half 4 rng in
  let flips := map (fun x => inject_Z (x * 2 - 1)) b in
  let f0 := nth 0 flips 0 in
  let f1 := nth 1 flips 0 in
  let f2 := if no_x_flip then 1 else nth 2 flips 0 in
  ([[f0; 0; 0; 0];
    [0; f1; 0; 0];
    [0; 0; f2; 0];
    [0; 0; 0; 1]], rng').

Definition swaps (lock_z : bool) : list (list nat) :=
  if lock_z then
    [[0; 1; 2; 3];
     [0; 2; 1; 3]]%nat
  else
    [[0; 1; 2; 3];
     [0; 2; 1; 3];
     [1; 0; 2; 3];
     [1; 2; 0; 3];
     [2; 0; 1; 3];
     [2; 1; 0; 3]]%nat.

(** [S[rows]]: the rows of [S] in the order of [rows]. *)
Definition take_rows (A : matrix) (rows : list nat) : matrix :=
  map (fun r => nth r A []) rows.

Definition get_random_swapmat (lock_z : bool) (rng : RandomState)
  : result (matrix * RandomState) :=
  let sw := swaps lock_z in
  let? (i, rng') := rs_randint 0 (inject_Z (Z.of_nat (length sw))) rng in
  ok (take_rows eye4 (nth (Z.to_nat i) sw []), rng').

Definition reshape44 (l : list Q) : matrix :=
  [firstn 4 l; firstn 4 (skipn 4 l); firstn 4 (skipn 8 l); firstn 4 (skipn 12 l)].

(** The argument [rng] is accepted and not used: the perturbation is
    sampled with [np.random.uniform], the generator of the module. *)
Definition get_random_warpmat (lock_z perspective : bool) (amount : Q)
  (rng : RandomState) (ambient : RandomState) : matrix * RandomState :=
  let amount := amount * (1 # 10) in
  let (draws, ambient') := rs_uniform (- amount) amount 16 ambient in
  let perturb := reshape44 draws in
  let perturb := mapij (fun i j x => if ((i =? 3) && (j =? 3))%nat then 0 else x) perturb in
  let perturb :=
    if lock_z
    then mapij (fun i j x => if ((i =? 0) || (j =? 0))%nat then 0 else x) perturb
    else perturb in
  let perturb :=
    if negb perspective
    then mapij (fun i j x => if (i =? 3)%nat then 0 else x) perturb
    else perturb in
  let perturb :=
    mapij (fun i j x => if ((i =? 3) && (j <? 3))%nat then x * (1 # 20) else x) perturb in
  let perturb :=
    mapij (fun i j x => if ((i =? 3) && (j <? 3))%nat
                        then Qmin (Qmax x (- (3 # 1000))) (3 # 1000) else x) perturb in
  (mat_add eye4 perturb, ambient').

(** ** The random transform sampler *)

(** [np.isclose(a, 0)] with the default tolerances: [|a| <= 1e-8]. *)
Definition isclose0 (a : Q) : bool := Qle_bool (Qabs a) (1 # 100000000).

(** [shape[-3:]] *)
Definition last3 {A} (l : list A) : list A := skipn (length l - 3) l.

(** The offset of the target volume inside the input volume, as the
    sampler computes it: a floor division, without a parity check. *)
Definition centering_offset (inp tgt : Z3) : Z3 :=
  zip3 (fun a b => ((a - b) / 2)%Z) inp tgt.

(** The bounds [lo_pos], [hi_pos] between which the patch centre is
    drawn when a target is present. *)
Definition center_bounds (patch_shape target_patch_shape inp3 tgt3 : Z3) : Q3 * Q3 :=
  let dest_center := map3 (fun p => inject_Z p / 2) patch_shape in
  let target_center := map3 (fun p => inject_Z p / 2) target_patch_shape in
  let offset := centering_offset inp3 tgt3 in
  let lo_pos :=
    zip3 Qmax dest_center (zip3 (fun c o => c + inject_Z o) target_center offset) in
  let hi_pos :=
    zip3 Qmin
      (zip3 (fun s c => inject_Z s - c) inp3 dest_center)
      (zip3 Qplus (zip3 (fun s c => inject_Z s - c) tgt3 target_center)
                  (map3 inject_Z offset)) in
  (lo_pos, hi_pos).

(** The body of [get_warped_coord_transform] up to the final chain.
    The generator is an argument here: the default [rng=None], which
    makes the source seed a fresh generator from the operating system,
    is not part of the model. *)
Definition transform_factors
  (inp_src_shape : list Z) (patch_shape : Z3)
  (aniso_factor : Z) (sample_aniso : bool) (warp_amount : Q)
  (lock_z no_x_flip perspective : bool)
  (target_src_shape : option (list Z)) (target_patch_shape : option Z3)
  (rng : RandomState) (ambient : RandomState) : result (sampled factors) :=
  let spatial_inp_src_shape := last3 inp_src_shape in
  let? spatial_target_src_shape :=
    match target_src_shape with
    | None => raise TypeError
    | Some s => ok (last3 s)
    end in
  let dest_center := map3 (fun p => inject_Z p / 2) patch_shape in
  let src_remainder := map3 (fun p => inject_Z (p mod 2) / 2) patch_shape in
  (* [np.array(None)] is an object array, never [None] itself: the
     branch of the target is always the one taken, and the division of
     the object array by 2 raises *)
  let? target_patch_shape :=
    match target_patch_shape with
    | None => raise TypeError
    | Some t => ok t
    end in
  let? inp3 := bcast3 spatial_inp_src_shape in
  let? tgt3 := bcast3 spatial_target_src_shape in
  let (lo_pos, hi_pos) := center_bounds patch_shape target_patch_shape inp3 tgt3 in
  if negb (all3 (fun b : bool => b) (zip3 Qlt_bool lo_pos hi_pos))
  then raise AssertionError
  else
    let '(lo0, lo1, lo2) := lo_pos in
    let '(hi0, hi1, hi2) := hi_pos in
    let '(rem0, rem1, rem2) := src_remainder in
    let? (iz, rng) := rs_randint lo0 hi0 rng in
    let z := inject_Z iz + rem0 in
    let? (iy, rng) := rs_randint lo1 hi1 rng in
    let y := inject_Z iy + rem1 in
    let? (ix, rng) := rs_randint lo2 hi2 rng in
    let x := inject_Z ix + rem2 in
    let (Fm, rng) := get_random_flipmat no_x_flip rng in
    let? (Sm, rng) :=
      if no_x_flip then ok (eye4, rng) else get_random_swapmat lock_z rng in
    let '(Rm, Wm, rng, ambient) :=
      if isclose0 warp_amount then (eye4, eye4, rng, ambient)
      else
        let (Rm, rng) := get_random_rotmat lock_z warp_amount rng in
        let (Wm, ambient) :=
          get_random_warpmat lock_z perspective warp_amount rng ambient in
        (Rm, Wm, rng, ambient) in
    let T_src := translate (- z) (- y) (- x) in
    let S_src := scale (inject_Z aniso_factor) 1 1 in
    let? S_dest :=
      if sample_aniso then
        if (aniso_factor =? 0)%Z then raise ZeroDivisionError
        else ok (scale (1 / inject_Z aniso_factor) 1 1)
      else ok identity in
    let '(c0, c1, c2) := dest_center in
    let T_dest := translate c0 c1 c2 in
    ok (mkSampled (mkFactors T_dest S_dest Rm Wm Fm Sm S_src T_src) rng ambient).

Definition get_warped_coord_transform
  (inp_src_shape : list Z) (patch_shape : Z3)
  (aniso_factor : Z) (sample_aniso : bool) (warp_amount : Q)
  (lock_z no_x_flip perspective : bool)
  (target_src_shape : option (list Z)) (target_patch_shape : option Z3)
  (rng : RandomState) (ambient : RandomState) : result (sampled matrix) :=
  let? f := transform_factors inp_src_shape patch_shape aniso_factor sample_aniso
              warp_amount lock_z no_x_flip perspective
              target_src_shape target_patch_shape rng ambient in
  ok (mkSampled (chain_matrices (factor_list (value f))) (rng_after f) (ambient_after f)).

End Builders.

(** ** Arrays and volumetric sources *)

(** An n-dimensional array: its shape and its entries by multi-index.  A
    volumetric source ([h5py.Dataset]) is such an array; reading an entry
    outside the shape is not given a meaning of its own (numba does not
    check indices either). *)
Record Dataset : Type := mkDataset {
  shape : list Z;
  item : list Z -> Q
}.

(** A three-dimensional view: one channel [a[k]] of a 4-d array. *)
Definition array3 : Type := Z -> Z -> Z -> Q.

Definition channel (a : Dataset) (k : Z) : array3 :=
  fun u v w => item a [k; u; v; w].

(** *** The two resamplers *)

Definition nearest_index (coords lo : Q3) : Z3 :=
  zip3 (fun c l => Qround_even (c - l)) coords lo.

Definition map_coordinates_nearest (src : array3) (coords lo : Q3) : Q :=
  let '(c0, c1, c2) := coords in
  let '(l0, l1, l2) := lo in
  let u := Qround_even (c0 - l0) in
  let v := Qround_even (c1 - l1) in
  let w := Qround_even (c2 - l2) in
  src u v w.

Definition map_coordinates_linear (src : array3) (coords lo : Q3) : Q :=
  let '(c0, c1, c2) := coords in
  let '(l0, l1, l2) := lo in
  let u := c0 - l0 in
  let v := c1 - l1 in
  let w := c2 - l2 in
  let u0 := Qtrunc u in
  let u1 := (u0 + 1)%Z in
  let du := u - inject_Z u0 in
  let v0 := Qtrunc v in
  let v1 := (v0 + 1)%Z in
  let dv := v - inject_Z v0 in
  let w0 := Qtrunc w in
  let w1 := (w0 + 1)%Z in
  let dw := w - inject_Z w0 in
  src u0 v0 w0 * (1 - du) * (1 - dv) * (1 - dw) +
  src u1 v0 w0 * du * (1 - dv) * (1 - dw) +
  src u0 v1 w0 * (1 - du) * dv * (1 - dw) +
  src u0 v0 w1 * (1 - du) * (1 - dv) * dw +
  src u1 v0 w1 * du * (1 - dv) * dw +
  src u0 v1 w1 * (1 - du) * dv * dw +
  src u1 v1 w0 * du * dv * (1 - dw) +
  src u1 v1 w1 * du * dv * dw.

(** The indices [map_coordinates_linear] reads, in the order of its sum. *)
Definition linear_indices (coords lo : Q3) : list Z3 :=
  let '(u0, v0, w0) := zip3 (fun c l => Qtrunc (c - l)) coords lo in
  let u1 := (u0 + 1)%Z in
  let v1 := (v0 + 1)%Z in
  let w1 := (w0 + 1)%Z in
  [(u0, v0, w0); (u1, v0, w0); (u0, v1, w0); (u0, v0, w1);
   (u1, v0, w1); (u0, v1, w1); (u1, v1, w0); (u1, v1, w1)].

(** *** Destination coordinates *)

Definition range (n : Z) : list Z := map Z.of_nat (seq 0 (Z.to_nat n)).

(** All indices of an array of shape [sh], in row-major order. *)
Definition grid3 (sh : Z3) : list Z3 :=
  let '(n0, n1, n2) := sh in
  flat_map (fun i => flat_map (fun j => map (fun l => (i, j, l)) (range n2)) (range n1))
           (range n0).

(** One homogeneous coordinate of [make_dest_coords]. *)
Definition dest_coord (ix : Z3) : list Q :=
  let '(z, y, x) := ix in [inject_Z z; inject_Z y; inject_Z x; 1].

(** [make_dest_coords]: [np.ones(sh)] refuses a negative dimension. *)
Definition make_dest_coords (sh : Z3) : result (Z3 -> list Q) :=
  if any3 (fun n => (n <? 0)%Z) sh then raise ValueError else ok dest_coord.

Definition make_dest_corners (sh : Z3) : list (list Q) :=
  let '(s0, s1, s2) := map3 (fun n => (n - 1)%Z) sh in
  map (fun c : Z3 =>
         let '(a, b, c) := c in
         [inject_Z (s0 * a); inject_Z (s1 * b); inject_Z (s2 * c); 1])
      [(0, 0, 0); (0, 0, 1); (0, 1, 0); (0, 1, 1);
       (1, 0, 0); (1, 0, 1); (1, 1, 0); (1, 1, 1)]%Z.

(** *** Mapping through the inverse matrix *)

Definition has_perspective (M : matrix) : bool :=
  negb (Qeq_bool (entry M 3 0) 0) ||
  negb (Qeq_bool (entry M 3 1) 0) ||
  negb (Qeq_bool (entry M 3 2) 0).

(** The homogeneous divide.  Where the fourth component is zero NumPy
    produces an infinity or a NaN; [Q] has neither, and the quotient of
    the model there ([x / 0 == 0]) carries no meaning. *)
Definition hdiv (v : list Q) : list Q := map (fun x => x / nth 3 v 0) v.

Definition spatial (v : list Q) : Q3 := (nth 0 v 0, nth 1 v 0, nth 2 v 0).

(** One source coordinate: [M_inv . d], divided when [M] has perspective
    coefficients, cut to its three spatial components. *)
Definition map_src (M M_inv : matrix) (d : list Q) : Q3 :=
  let v := mat_vec M_inv d in
  let v := if has_perspective M then hdiv v else v in
  spatial v.

(** [np.min] / [np.max] along an axis; an empty axis raises. *)
Definition reduce_axis {A} (mn : A -> A -> A) (l : list A) : result A :=
  match l with
  | [] => raise ValueError
  | x :: r => ok (fold_left mn r x)
  end.

Definition fst3 {A} (v : vec3 A) : A := let '(a, _, _) := v in a.
Definition snd3 {A} (v : vec3 A) : A := let '(_, b, _) := v in b.
Definition thd3 {A} (v : vec3 A) : A := let '(_, _, c) := v in c.

(** The reduction of a list of 3-vectors over the list, per component. *)
Definition reduce3 {A} (op : A -> A -> A) (l : list (vec3 A)) : result (vec3 A) :=
  let? a := reduce_axis op (map fst3 l) in
  let? b := reduce_axis op (map snd3 l) in
  let? c := reduce_axis op (map thd3 l) in
  ok (a, b, c).

(** ** Recorded reads *)

Inductive event : Type :=
| ReadRegion (src : Dataset) (lo hi : Z3).

Definition io (A : Type) : Type := (list event * result A)%type.

Definition io_ret {A} (a : A) : io A := ([], ok a).
Definition io_raise {A} (e : exn) : io A := ([], raise e).
Definition io_lift {A} (r : result A) : io A := ([], r).

Definition io_bind {A B} (m : io A) (f : A -> io B) : io B :=
  match m with
  | (t, inl e) => (t, inl e)
  | (t, inr a) => let (t', r) := f a in (t ++ t', r)
  end.

Notation "'do!' x '<-' m ';' k" := (io_bind m (fun x => k))
  (at level 10, x pattern, m at level 100, k at level 200).

Definition trace {A} (m : io A) : list event := fst m.
Definition outcome {A} (m : io A) : result A := snd m.

(** Modelled from the spec: [slice_h5] of [elektronn3.data.utils] is
    imported by the module but its body is not part of the sources at
    hand.  Per the interface of the volumetric source it is the read
    operation [readRegion(loInclusive, hiExclusive)]: a dense copy of the
    requested axis-aligned region over all channels, in the working
    float precision.  The read is defined for sources of shape
    (channels, depth, height, width) only: from a source of another
    number of dimensions no array of 3-d channels can be cut, as the
    resamplers (layout [(x,y,z)]) take it, and the request fails.  The
    kind of that failure is not given; the model uses [ValueError], the
    one [warp_slice] raises for a wrong number of dimensions. *)
Definition slice_h5 (src : Dataset) (coords_lo coords_hi : Z3) : io Dataset :=
  let '(l0, l1, l2) := coords_lo in
  ([ReadRegion src coords_lo coords_hi],
   if (length (shape src) =? 4)%nat
   then
     ok {| shape := hd 0%Z (shape src) :: list3 (zip3 Z.sub coords_hi coords_lo);
           item := fun idx =>
                     match idx with
                     | [k; u; v; w] => item src [k; (l0 + u)%Z; (l1 + v)%Z; (l2 + w)%Z]
                     | _ => 0
                     end |}
   else raise ValueError).

(** ** Patch extraction *)

(** Python's [a[start:stop]] on an axis of length [n]: a bound below zero
    counts from the end, and both bounds are clamped to the axis.  The
    result is the first index kept and the number of indices kept. *)
Definition slice_bound (n i : Z) : Z :=
  let i := if (i <? 0)%Z then (i + n)%Z else i in
  if (i <? 0)%Z then 0%Z else if (n <? i)%Z then n else i.

Definition py_slice (n start stop : Z) : Z * Z :=
  let a := slice_bound n start in
  let b := slice_bound n stop in
  (a, Z.max 0 (b - a)).

Definition is_odd (o : Z) : bool := negb (o mod 2 =? 0)%Z.

Definition oob (lo hi sh : Z3) : bool :=
  any3 (fun l => (l <? 0)%Z) lo || any3 (fun b : bool => b) (zip3 Z.geb hi sh).

(** [lo] and [hi] of the eight mapped corners. *)
Definition corner_bounds (M M_inv : matrix) (patch_shape : Z3) : result (Z3 * Z3) :=
  let src_corners := map (map_src M M_inv) (make_dest_corners patch_shape) in
  let? lo := reduce3 Z.min (map (map3 Qfloor) src_corners) in
  let? hi := reduce3 Z.max (map (map3 (fun c => Qceiling (c + 1))) src_corners) in
  ok (lo, hi).

(** All multi-indices of a 4-d array of [n] channels and spatial shape [sh]. *)
Definition indices4 (n : Z) (sh : Z3) : list (list Z) :=
  flat_map (fun k => map (fun ix : Z3 => k :: list3 ix) (grid3 sh)) (range n).

(** The window of the dense source coordinates that belongs to the
    target patch: [src_coords[o0:o0+t0, o1:o1+t1, o2:o2+t2]], as the
    first index and the extent on each axis. *)
Definition target_window (patch_shape off_ps target_patch_shape : Z3) : Z3 * Z3 :=
  let sl := zip3 (fun n ot => py_slice n (fst ot) (fst ot + snd ot)%Z)
                 patch_shape (zip3 pair off_ps target_patch_shape) in
  (map3 fst sl, map3 snd sl).

(** [lo_targ] and [hi_targ] of a list of source coordinates. *)
Definition target_bounds (pts : list Q3) (off : Z3) : result (Z3 * Z3) :=
  let? mn := reduce3 Qmin pts in
  let? mx := reduce3 Qmax pts in
  ok (zip3 (fun m o => Qfloor (m - inject_Z o)) mn off,
      zip3 (fun m o => Qceiling (m - inject_Z o + 1)) mx off).

(** The spatial extent of a source as [warp_slice] uses it: [shape[1:]],
    broadcast against the three axes.  For a source of shape
    (C, D, H, W) it is (D, H, W). *)
Definition spatial_extent (src : Dataset) : result Z3 := bcast3 (tl (shape src)).

(** The part of [warp_slice] under [if target_src is not None]. *)
Definition warp_target (sh patch_shape : Z3) (src_coords : Z3 -> Q3)
  (target_src : Dataset) (target_patch_shape : option Z3)
  (target_discrete_ix : option (list Z)) : io Dataset :=
  do! target_patch_shape <-
    io_lift (match target_patch_shape with
             | None => raise TypeError
             | Some t => ok t
             end);
  do! n_f_t <-
    io_lift (match shape target_src with
             | [] => raise IndexError
             | c :: _ => ok c
             end);
  do! tsh <- io_lift (spatial_extent target_src);
  let off := zip3 Z.sub sh tsh in
  if any3 is_odd off then io_raise ValueError
  else
    let off := map3 (fun o => (o / 2)%Z) off in
    let off_ps := zip3 Z.sub patch_shape target_patch_shape in
    if any3 is_odd off_ps then io_raise ValueError
    else
      let off_ps := map3 (fun o => (o / 2)%Z) off_ps in
      let (start, count) := target_window patch_shape off_ps target_patch_shape in
      let src_coords_target := fun ix : Z3 => src_coords (zip3 Z.add start ix) in
      do! (lo_targ, hi_targ) <-
        io_lift (target_bounds (map src_coords_target (grid3 count)) off);
      if oob lo_targ hi_targ tsh then io_raise WarpingOOBError
      else
        do! target_cut <-
          slice_h5 target_src lo_targ (map3 (fun h => (h + 1)%Z) hi_targ);
        do! n_target_classes <-
          io_lift (reduce_axis Qmax
                     (map (item target_cut)
                          (indices4 n_f_t (zip3 (fun h l => (h + 1 - l)%Z) hi_targ lo_targ))));
        let lo_targ := zip3 (fun l o => inject_Z (l + o)) lo_targ off in
        let discr := fun k : Z =>
          match target_discrete_ix with
          | None => true
          | Some l => existsb (Z.eqb k) l
          end in
        (* the coordinate window is broadcast against the output array
           of shape [target_patch_shape] *)
        if negb (all3 (fun b : bool => b)
                   (zip3 (fun m t => (m =? t)%Z || (m =? 1)%Z) count target_patch_shape))
        then io_raise ValueError
        else
          let bix := fun ix : Z3 =>
            zip3 (fun m i => if (m =? 1)%Z then 0%Z else i) count ix in
          let raw := fun (k : Z) (ix : Z3) =>
            if discr k
            then map_coordinates_nearest (channel target_cut k)
                   (src_coords_target (bix ix)) lo_targ
            else map_coordinates_linear (channel target_cut k)
                   (src_coords_target (bix ix)) lo_targ in
          let clipping :=
            existsb (fun k =>
                       existsb (fun ix => Qlt_bool n_target_classes (raw k ix))
                               (grid3 target_patch_shape))
                    (range n_f_t) in
          io_ret {| shape := n_f_t :: list3 target_patch_shape;
                    item := fun idx =>
                      match idx with
                      | [k; z; y; x] =>
                          let t := raw k (z, y, x) in
                          if clipping then Qmin (Qmax t 0) n_target_classes else t
                      | _ => 0
                      end |}.

(** The part of [warp_slice] before [if target_src is not None]: the
    spatial shape of the source, the dense source coordinates and the
    warped input patch. *)
Definition warp_input (inp_src : Dataset) (patch_shape : Z3) (M : matrix)
  : io (Z3 * (Z3 -> Q3) * Dataset) :=
  do! (n_f, sh) <-
    io_lift (match shape inp_src with
             | [_; _; _] => raise NotImplementedError
             | [c; d; h; w] => ok (c, (d, h, w))
             | _ => raise ValueError
             end);
  do! M_inv <- io_lift (inv M);
  do! (lo, hi) <- io_lift (corner_bounds M M_inv patch_shape);
  if oob lo hi sh then io_raise WarpingOOBError
  else
    do! dest_coords <- io_lift (make_dest_coords patch_shape);
    let src_coords := fun ix : Z3 => map_src M M_inv (dest_coords ix) in
    do! img_cut <- slice_h5 inp_src lo (map3 (fun h => (h + 1)%Z) hi);
    let lo := map3 inject_Z lo in
    io_ret (sh, src_coords,
            {| shape := n_f :: list3 patch_shape;
               item := fun idx =>
                 match idx with
                 | [k; z; y; x] =>
                     map_coordinates_linear (channel img_cut k) (src_coords (z, y, x)) lo
                 | _ => 0
                 end |}).

Definition warp_slice (inp_src : Dataset) (patch_shape : Z3) (M : matrix)
  (target_src : option Dataset) (target_patch_shape : option Z3)
  (target_discrete_ix : option (list Z)) : io (Dataset * option Dataset) :=
  do! (sh, src_coords, inp) <- warp_input inp_src patch_shape M;
  match target_src with
  | Some target_src =>
      do! target <- warp_target sh patch_shape src_coords target_src
                      target_patch_shape target_discrete_ix;
      io_ret (inp, Some target)
  | None => io_ret (inp, None)
  end.

(** A region [lo, hi) lies within the extent [ext] on every axis. *)
Definition within (lo hi ext : Z3) : Prop :=
  let '(l0, l1, l2) := lo in
  let '(h0, h1, h2) := hi in
  let '(e0, e1, e2) := ext in
  ((0 <= l0 /\ h0 <= e0) /\ (0 <= l1 /\ h1 <= e1) /\ (0 <= l2 /\ h2 <= e2))%Z.

Definition read_in_bounds (e : event) : Prop :=
  match e with
  | ReadRegion src lo hi => exists ext, spatial_extent src = ok ext /\ within lo hi ext
  end.

(** An index lies inside an array of spatial extent [ext]. *)
Definition inside (ext idx : Z3) : Prop :=
  let '(e0, e1, e2) := ext in
  let '(i, j, l) := idx in
  ((0 <= i < e0) /\ (0 <= j < e1) /\ (0 <= l < e2))%Z.

(** The spatial extent of the sub-cube fetched for the bounds [lo], [hi]:
    the region read is [lo, hi + 1). *)
Definition cut_extent (lo hi : Z3) : Z3 := zip3 (fun h l => (h + 1 - l)%Z) hi lo.

(** A coordinate that is an affine function of the three spatial
    components of a homogeneous destination coordinate. *)
Definition affine (g : list Q -> Q) : Prop :=
  exists a b c d, forall x y z, g [x; y; z; 1] == a * x + b * y + c * z + d.

(** ** Sample runs *)

(** A volume whose voxel [(k, z, y, x)] holds [1000 k + 100 z + 10 y + x]. *)
Definition ramp (sh : list Z) : Dataset :=
  {| shape := sh;
     item := fun idx =>
       match idx with
       | [k; z; y; x] => inject_Z (1000 * k + 100 * z + 10 * y + x)
       | _ => 0
       end |}.

(** A label volume: voxel [(k, z, y, x)] holds [(z + y + x) mod 3]. *)
Definition labels (sh : list Z) : Dataset :=
  {| shape := sh;
     item := fun idx =>
       match idx with
       | [k; z; y; x] => inject_Z ((z + y + x) mod 3)
       | _ => 0
       end |}.

(** Calls on a 6 x 6 x 6 one-channel volume with a 4 x 4 x 4 patch and
    the identity transform: with a target volume that is not centred in
    the input volume (3 against 6 voxels in depth), with a centred target
    volume too small for the target patch, and with a target source that
    has two dimensions only. *)
Definition uncentered_target_call : io (Dataset * option Dataset) :=
  warp_slice (ramp [1; 6; 6; 6]%Z) (4, 4, 4)%Z identity
    (Some (labels [1; 3; 4; 4]%Z)) (Some (2, 2, 2)%Z) None.

Definition small_target_call : io (Dataset * option Dataset) :=
  warp_slice (ramp [1; 6; 6; 6]%Z) (4, 4, 4)%Z identity
    (Some (labels [1; 2; 2; 2]%Z)) (Some (2, 2, 2)%Z) None.

Definition flat_target_call : io (Dataset * option Dataset) :=
  warp_slice (ramp [1; 6; 6; 6]%Z) (4, 4, 4)%Z identity
    (Some (labels [1; 4]%Z)) (Some (2, 2, 2)%Z) None.

(** The permutation matrices [get_random_swapmat] chooses from. *)
Definition swap_candidates (lock_z : bool) : list matrix :=
  map (take_rows eye4) (swaps lock_z).

(** Rational stand-ins for the trigonometric functions, used where a
    run of the sampler has to be evaluated: the first terms of the power
    series, and 355/113 for pi. *)
Definition cos_series (x : Q) : Q := 1 - x * x / 2 + x * x * x * x / 24.
Definition sin_series (x : Q) : Q := x - x * x * x / 6 + x * x * x * x * x / 120.
Definition arcsin_series (x : Q) : Q := x + x * x * x / 6 + 3 * x * x * x * x * x / 40.
Definition pi_approx : Q := 355 # 113.

(** The bottom row of a matrix, the product of a row vector and a
    matrix, and equality of vectors up to [==]. *)
Definition row3 (A : matrix) : list Q := nth 3 A [].

Definition vec_mat (r : list Q) (B : matrix) : list Q :=
  map (fun j => vdot r (col j B)) (seq 0 (ncols B)).

Definition veq (a b : list Q) : Prop := Forall2 Qeq a b.

(** ** The trilinear formula of the design document

    The weighted sum over the eight corners of the unit cell around the
    offset-corrected coordinate: each corner selects, per axis, the low
    side (weight [1 - frac]) or the high side (weight [frac]). *)

Definition unit_cell : list (vec3 bool) :=
  [(false, false, false); (false, false, true); (false, true, false);
   (false, true, true); (true, false, false); (true, false, true);
   (true, true, false); (true, true, true)].

Definition side_weight (high : bool) (frac : Q) : Q :=
  if high then frac else 1 - frac.

Definition side_index (high : bool) (fl : Z) : Z :=
  if high then (fl + 1)%Z else fl.

Definition trilinear_sum (src : array3) (coords lo : Q3) : Q :=
  let p := zip3 Qminus coords lo in
  let fl := map3 Qfloor p in
  let frac := zip3 (fun x f => x - inject_Z f) p fl in
  fold_right Qplus 0
    (map (fun c : vec3 bool =>
            let '(i, j, l) := zip3 side_index c fl in
            let '(wu, wv, ww) := zip3 side_weight c frac in
            src i j l * (wu * wv * ww))
         unit_cell).

(** ** Shapes and algebra of 4x4 matrices *)

Definition mat4 (A : matrix) : Prop :=
  length A = 4%nat /\ Forall (fun r => length r = 4%nat) A.

Definition transpose (A : matrix) : matrix :=
  map (fun j => col j A) (seq 0 (ncols A)).

(** A matrix whose transpose is its inverse. *)
Definition orthogonal (A : matrix) : Prop := mat_eq (dot A (transpose A)) identity.

(** The rational parametrisation of the unit circle, a pair of functions
    that satisfies [cos^2 + sin^2 = 1] exactly on the rationals. *)
Definition cos_rational (t : Q) : Q := (1 - t * t) / (1 + t * t).
Definition sin_rational (t : Q) : Q := 2 * t / (1 + t * t).

(** A centre [z] on one axis keeps a patch of [p] voxels inside an input
    axis of [s] voxels and, shifted by the centring offset, a target
    patch of [q] voxels inside a target axis of [t] voxels, up to the
    half voxel lost where the two patch sizes differ in parity; the
    patch starts on the voxel grid. *)
Definition centred_inside (p q s t : Z) (z : Q) : Prop :=
  let off := inject_Z ((s - t) / 2) in
  inject_Z p / 2 <= z /\
  z + inject_Z p / 2 <= inject_Z s - (1 # 2) /\
  inject_Z q / 2 - (1 # 2) <= z - off /\
  z - off + inject_Z q / 2 <= inject_Z t - (1 # 2) /\
  exists k : Z, z - inject_Z p / 2 == inject_Z k.

(** A 4x4 matrix that keeps the depth axis apart and has no perspective
    row: the depth row and the depth column are zero off the diagonal
    (the translation entry aside), and so are the first three entries of
    the bottom row. *)
Definition z_locked (A : matrix) : Prop :=
  mat4 A /\
  entry A 0 1 == 0 /\ entry A 0 2 == 0 /\
  entry A 1 0 == 0 /\ entry A 2 0 == 0 /\
  entry A 3 0 == 0 /\ entry A 3 1 == 0 /\ entry A 3 2 == 0.

(** An invertible 4x4 matrix. *)
Definition regular (A : matrix) : Prop := mat4 A /\ ~ det 4 A == 0.

(** A 4x4 matrix without perspective coefficients. *)
Definition no_perspective_row (A : matrix) : Prop :=
  mat4 A /\ entry A 3 0 == 0 /\ entry A 3 1 == 0 /\ entry A 3 2 == 0.

(** An index lies in the region [lo, hi) of a read request. *)
Definition in_region (lo hi idx : Z3) : Prop :=
  let '(l0, l1, l2) := lo in
  let '(h0, h1, h2) := hi in
  let '(u, v, w) := idx in
  ((l0 <= u < h0) /\ (l1 <= v < h1) /\ (l2 <= w < h2))%Z.

(** * Helpers of [elektronn3/data/utils.py]

    The helpers that are plain Python: the file-name filter of
    [get_filepaths_from_dir], the timing decorator [timeit] and the
    signal-delaying context manager [DelayedInterrupt].  Strings are
    lists of characters; the operating system enters as the answers it
    gives ([os.walk], the clock) or as the table it keeps (the installed
    signal handlers). *)

Module Utils.

Definition str := list ascii.

Inductive exn : Type :=
| StopIteration
| ZeroDivisionError
| ValueError
| TypeError.

Definition result (A : Type) : Type := (exn + A)%type.

(** ** [get_filepaths_from_dir] *)

(** [f[-n:]]: the last [n] characters, the whole string when it is
    shorter, and, since [-0] is [0], the whole string for [n = 0]. *)
Definition last_chars (n : nat) (f : str) : str :=
  match n with
  | O => f
  | _ => skipn (length f - n) f
  end.

Fixpoint startswith (b a : str) {struct a} : bool :=
  match a, b with
  | [], _ => true
  | _ :: _, [] => false
  | x :: a', y :: b' => Ascii.eqb x y && startswith b' a'
  end.

(** [a in b] on strings: [a] occurs in [b]. *)
Fixpoint str_in (a b : str) : bool :=
  startswith b a ||
  match b with
  | [] => false
  | _ :: b' => str_in a b'
  end.

(** The filter of both comprehensions: [ending in f[-len(ending):]]. *)
Definition keeps (ending f : str) : bool :=
  str_in ending (last_chars (length ending) f).

(** [os.path.join] of two components on POSIX. *)
Definition path_join (a b : str) : str :=
  if startswith b ["/"%char] then b
  else match a with
       | [] => b
       | _ => if Ascii.eqb (last a "/"%char) "/"%char then a ++ b
              else a ++ "/"%char :: b
       end.

(** One triple [(root, dirs, files)] produced by [os.walk]. *)
Definition walk_entry : Type := (str * list str * list str)%type.

(** [walk] is what [os.walk(directory)] produces; it is empty when the
    directory cannot be listed, and [next] of it then raises. *)
Definition get_filepaths_from_dir (walk : list walk_entry)
  (directory ending : str) (recursively : bool) : result (list str) :=
  if recursively then
    inr (flat_map (fun e : walk_entry =>
                     let '(r, s, fs) := e in
                     map (path_join r) (filter (keeps ending) fs))
                  walk)
  else
    match walk with
    | [] => inl StopIteration
    | (_, _, fs) :: _ => inr (map (path_join directory) (filter (keeps ending) fs))
    end.

(** ** [timeit] *)

Section Timeit.

(** The decorated function acts on the state [W] of the program; the
    clock [time.time()] is read from that state. *)
Variables (W A R : Type) (func : A -> W -> R * W) (time : W -> Q).

Fixpoint call_times (k : nat) (a : A) (w : W) : W :=
  match k with
  | O => w
  | S k' => call_times k' a (snd (func a w))
  end.

(** What a call leaves behind: the state, what was printed, and the
    value returned or the exception raised. *)
Record timed : Type := mkTimed {
  state_after : W;
  printed : option Q;
  returned : result R
}.

(** [timeit.__call__] of a decorator built from the function itself. *)
Definition timeit_plain (a : A) (w : W) : timed :=
  let t0 := time w in
  let (ret, w') := func a w in
  let t := time w' - t0 in
  mkTimed w' (Some t) (inr ret).

(** [decorated] of a decorator built with arguments, [n] being
    [dec_kwargs.get('n', 1)]. *)
Definition decorated (n : Z) (a : A) (w : W) : timed :=
  let t0 := time w in
  let w := if (1 <? n)%Z then call_times (Z.to_nat (n - 1)) a w else w in
  let (ret, w') := func a w in
  let t := time w' - t0 in
  if (n =? 0)%Z then mkTimed w' None (inl ZeroDivisionError)
  else mkTimed w' (Some (t / inject_Z n)) (inr ret).

End Timeit.

(** ** [DelayedInterrupt] *)

(** What can be installed for a signal: the two constants of the
    [signal] module, [None] (a handler not installed from Python), a
    Python callable, or the closure [handler] made by [__enter__] of the
    context manager. *)
Inductive handler : Type :=
| SIG_DFL
| SIG_IGN
| NoHandler
| Callable (name : nat)
| Delaying.

Definition frame := nat.

(** A dict with signal numbers as keys. *)
Definition dict (V : Type) : Type := list (Z * V).

Fixpoint dict_get {V} (d : dict V) (k : Z) : option V :=
  match d with
  | [] => None
  | (k', v) :: d' => if (k =? k')%Z then Some v else dict_get d' k
  end.

Definition dict_set {V} (d : dict V) (k : Z) (v : V) : dict V :=
  (k, v) :: filter (fun kv => negb (k =? fst kv)%Z) d.

(** The state the context manager works on: the handler table of the
    process, the calls made to Python callables, the two dicts of the
    object, and the variable [sig] of [__enter__], which the closures
    [handler] share. *)
Record world : Type := mkWorld {
  installed : Z -> handler;
  calls : list (nat * Z * frame);
  signal_received : dict (option (Z * frame));
  old_handlers : dict handler;
  sig_var : option Z
}.

Definition install (t : Z -> handler) (s : Z) (h : handler) : Z -> handler :=
  fun s' => if (s' =? s)%Z then h else t s'.

Fixpoint enter_loop (sigs : list Z) (w : world) : world :=
  match sigs with
  | [] => w
  | sig :: rest =>
      enter_loop rest
        {| installed := install (installed w) sig Delaying;
           calls := calls w;
           signal_received := dict_set (signal_received w) sig None;
           old_handlers := dict_set (old_handlers w) sig (installed w sig);
           sig_var := Some sig |}
  end.

(** [__enter__]: both dicts start empty. *)
Definition enter (sigs : list Z) (w : world) : world :=
  enter_loop sigs
    {| installed := installed w; calls := calls w;
       signal_received := []; old_handlers := []; sig_var := None |}.

(** The body of the closure [handler]: it stores the delivery under the
    key that the variable [sig] holds when it runs. *)
Definition record (s : Z) (fr : frame) (w : world) : world :=
  match sig_var w with
  | Some sig =>
      {| installed := installed w; calls := calls w;
         signal_received := dict_set (signal_received w) sig (Some (s, fr));
         old_handlers := old_handlers w; sig_var := sig_var w |}
  | None => w
  end.

Definition call (f : nat) (s : Z) (fr : frame) (w : world) : world :=
  {| installed := installed w; calls := calls w ++ [(f, s, fr)];
     signal_received := signal_received w;
     old_handlers := old_handlers w; sig_var := sig_var w |}.

(** The delivery of signal [s] to the process: the installed closure or
    callable runs.  What the operating system does for the other
    handlers (ignore, terminate) is outside the model. *)
Definition deliver (s : Z) (fr : frame) (w : world) : world :=
  match installed w s with
  | Delaying => record s fr w
  | Callable f => call f s fr w
  | _ => w
  end.

(** [__exit__].  The keys looked up are those written by [__enter__]
    for the same list, so the lookups do not fail.  [signal.signal]
    refuses [None], and [SIG_IGN] is true but not callable: both raise
    [TypeError] and leave the remaining signals as they are. *)
Fixpoint exit_loop (sigs : list Z) (w : world) : world * option exn :=
  match sigs with
  | [] => (w, None)
  | sig :: rest =>
      let old := match dict_get (old_handlers w) sig with
                 | Some h => h
                 | None => NoHandler
                 end in
      match old with
      | NoHandler => (w, Some TypeError)
      | _ =>
          let w := {| installed := install (installed w) sig old; calls := calls w;
                      signal_received := signal_received w;
                      old_handlers := old_handlers w; sig_var := sig_var w |} in
          match dict_get (signal_received w) sig with
          | Some (Some (s, fr)) =>
              match old with
              | Callable f => exit_loop rest (call f s fr w)
              | Delaying => exit_loop rest (record s fr w)
              | SIG_IGN => (w, Some TypeError)
              | _ => exit_loop rest w
              end
          | _ => exit_loop rest w
          end
      end
  end.

Definition deliveries (l : list (Z * frame)) (w : world) : world :=
  fold_left (fun w d => deliver (fst d) (snd d) w) l w.

End Utils.

(** * Properties *)

(** ** Rounding *)

Lemma Qtrunc_nonneg (q : Q) : 0 <= q -> Qtrunc q = Qfloor q.
Proof.
  destruct q as [n d]; unfold Qle, Qtrunc, Qfloor; simpl; intros H.
  apply Z.quot_div_nonneg; lia.
Qed.

Lemma Qtrunc_inject (z : Z) : Qtrunc (inject_Z z) = z.
Proof. unfold Qtrunc, inject_Z; simpl. apply Z.quot_1_r. Qed.

(** ** The trilinear resampler *)

(** C6: on a coordinate whose offset-corrected components are not
    negative, [map_coordinates_linear] returns the weighted sum over the
    eight corners of the surrounding unit cell, each corner weighted by
    the product over the axes of [frac] (high side) or [1 - frac] (low
    side), with [frac] the fractional part of the offset-corrected
    coordinate. *)
Theorem map_coordinates_linear_is_trilinear_sum
  (src : array3) (coords lo : Q3) :
  0 <= fst3 coords - fst3 lo ->
  0 <= snd3 coords - snd3 lo ->
  0 <= thd3 coords - thd3 lo ->
  map_coordinates_linear src coords lo == trilinear_sum src coords lo.
Proof.
  destruct coords as [[c0 c1] c2], lo as [[l0 l1] l2].
  cbn [fst3 snd3 thd3]; intros H0 H1 H2.
  unfold map_coordinates_linear, trilinear_sum, unit_cell.
  cbv [zip3 map3 map fold_right side_index side_weight].
  rewrite !(Qtrunc_nonneg _ H0), !(Qtrunc_nonneg _ H1), !(Qtrunc_nonneg _ H2).
  ring.
Qed.

Lemma map_coordinates_linear_is_trilinear_sum_witness :
  map_coordinates_linear (channel (ramp [1; 4; 4; 4]%Z) 0%Z) (3 # 2, 1, 5 # 4) (1, 0, 1 # 4)
  == trilinear_sum (channel (ramp [1; 4; 4; 4]%Z) 0%Z) (3 # 2, 1, 5 # 4) (1, 0, 1 # 4).
Proof.
  apply (map_coordinates_linear_is_trilinear_sum _ (3 # 2, 1, 5 # 4) (1, 0, 1 # 4));
    vm_compute; discriminate.
Defined.

(** ** Facts about the random transform sampler *)

Lemma rs_randint_ok (low high : Q) (s : RandomState) :
  (Qtrunc low < Qtrunc high)%Z ->
  rs_randint low high s =
  ok ((Qtrunc low + fst (next_word s) mod (Qtrunc high - Qtrunc low))%Z,
      snd (next_word s)).
Proof.
  intros H; unfold rs_randint.
  destruct (Z.leb_spec (Qtrunc high) (Qtrunc low)); [lia|].
  now destruct (next_word s).
Qed.

Lemma rs_randint_range (low high : Q) (s s' : RandomState) (v : Z) :
  rs_randint low high s = ok (v, s') ->
  (Qtrunc low <= v < Qtrunc high)%Z.
Proof.
  unfold rs_randint.
  destruct (Z.leb_spec (Qtrunc high) (Qtrunc low)); [discriminate|].
  destruct (next_word s) as [w t]; intros E; injection E as <- _.
  pose proof (Z.mod_pos_bound w (Qtrunc high - Qtrunc low)); lia.
Qed.

Section SamplerFacts.

Variables (cos sin arcsin : Q -> Q) (pi : Q).

Lemma get_random_swapmat_ok (lock_z : bool) (rng : RandomState) :
  get_random_swapmat lock_z rng =
  ok (take_rows eye4
        (nth (Z.to_nat (fst (next_word rng) mod Z.of_nat (length (swaps lock_z))))
             (swaps lock_z) []),
      snd (next_word rng)).
Proof.
  unfold get_random_swapmat.
  rewrite rs_randint_ok by (rewrite Qtrunc_inject; destruct lock_z; reflexivity).
  rewrite Qtrunc_inject; cbn [rbind ok].
  replace (Qtrunc 0) with 0%Z by reflexivity.
  now rewrite Z.sub_0_r.
Qed.

(** The sampler returns a matrix exactly when both target arguments are
    given, the shapes broadcast, the assertion on the bounds holds, the
    three integer intervals are not empty and the anisotropy factor can
    be inverted. *)
Lemma transform_factors_succeeds
  (inp_src_shape : list Z) (patch_shape : Z3) (aniso_factor : Z)
  (sample_aniso : bool) (warp_amount : Q) (lock_z no_x_flip perspective : bool)
  (tss : list Z) (tps inp3 tgt3 : Z3) (rng ambient : RandomState) :
  bcast3 (last3 inp_src_shape) = ok inp3 ->
  bcast3 (last3 tss) = ok tgt3 ->
  all3 (fun b : bool => b)
       (zip3 Qlt_bool (fst (center_bounds patch_shape tps inp3 tgt3))
                      (snd (center_bounds patch_shape tps inp3 tgt3))) = true ->
  all3 (fun b : bool => b)
       (zip3 (fun l h => (Qtrunc l <? Qtrunc h)%Z)
             (fst (center_bounds patch_shape tps inp3 tgt3))
             (snd (center_bounds patch_shape tps inp3 tgt3))) = true ->
  (sample_aniso = true -> aniso_factor <> 0%Z) ->
  exists f,
    transform_factors cos sin arcsin pi inp_src_shape patch_shape aniso_factor
      sample_aniso warp_amount lock_z no_x_flip perspective
      (Some tss) (Some tps) rng ambient = ok f.
Proof.
  intros Hi Ht Ha Hr Hz.
  unfold transform_factors; cbn [rbind ok].
  rewrite Hi, Ht; cbn [rbind ok].
  destruct (center_bounds patch_shape tps inp3 tgt3) as [[[lo0 lo1] lo2] [[hi0 hi1] hi2]].
  cbn [fst snd] in Ha, Hr.
  rewrite Ha; cbn [negb].
  cbv [all3 zip3] in Hr.
  rewrite !andb_true_iff, !Z.ltb_lt in Hr; destruct Hr as [[Hr0 Hr1] Hr2].
  destruct patch_shape as [[p0 p1] p2]; cbn [map3].
  rewrite (rs_randint_ok _ _ _ Hr0); cbn [rbind ok].
  rewrite (rs_randint_ok _ _ _ Hr1); cbn [rbind ok].
  rewrite (rs_randint_ok _ _ _ Hr2); cbn [rbind ok].
  destruct (get_random_flipmat no_x_flip _) as [Fm r1].
  assert (Hs : exists Sm r2,
             (if no_x_flip then ok (eye4, r1) else get_random_swapmat lock_z r1)
             = ok (Sm, r2)).
  { destruct no_x_flip; [now eexists _, _|].
    rewrite get_random_swapmat_ok; now eexists _, _. }
  destruct Hs as (Sm & r2 & ->); cbn [rbind ok].
  destruct (if isclose0 warp_amount then _ else _) as [[[Rm Wm] r3] a3].
  destruct sample_aniso; cbn [rbind ok].
  - destruct (Z.eqb_spec aniso_factor 0); [now elim Hz|].
    cbn [rbind ok]; now eexists.
  - now eexists.
Qed.

(** C4: with [target_src_shape] and [target_patch_shape] left at their
    default [None] the sampler does not reach the branch written for
    that case: subscripting [None] raises [TypeError], whatever the other
    arguments are; and so does a missing [target_patch_shape] alone. *)
Theorem sampler_without_target_raises
  (inp_src_shape : list Z) (patch_shape : Z3) (aniso_factor : Z)
  (sample_aniso : bool) (warp_amount : Q) (lock_z no_x_flip perspective : bool)
  (rng ambient : RandomState) :
  (forall tps,
     get_warped_coord_transform cos sin arcsin pi inp_src_shape patch_shape
       aniso_factor sample_aniso warp_amount lock_z no_x_flip perspective
       None tps rng ambient = raise TypeError) /\
  (forall tss,
     get_warped_coord_transform cos sin arcsin pi inp_src_shape patch_shape
       aniso_factor sample_aniso warp_amount lock_z no_x_flip perspective
       tss None rng ambient = raise TypeError).
Proof.
  split; intros.
  - reflexivity.
  - destruct tss; reflexivity.
Qed.

End SamplerFacts.

Lemma centering_offset_100_80 :
  centering_offset (100, 100, 100)%Z (80, 80, 80)%Z = (10, 10, 10)%Z.
Proof. reflexivity. Qed.

(** C7: for an input volume of shape (100, 100, 100) and a target volume
    of shape (81, 80, 80) the sampler raises nothing: it floors the odd
    difference to the offset (9, 10, 10) and returns a matrix, for every
    generator state and every setting of the random options. *)
Theorem sampler_accepts_uncentered_target
  (cos sin arcsin : Q -> Q) (pi : Q) (warp_amount : Q)
  (lock_z no_x_flip perspective : bool) (rng ambient : RandomState) :
  centering_offset (100, 100, 100)%Z (81, 80, 80)%Z = (9, 10, 10)%Z /\
  exists m,
    get_warped_coord_transform cos sin arcsin pi [100; 100; 100]%Z (10, 10, 10)%Z
      2 true warp_amount lock_z no_x_flip perspective
      (Some [81; 80; 80]%Z) (Some (10, 10, 10)%Z) rng ambient = ok m.
Proof.
  split; [reflexivity|].
  unfold get_warped_coord_transform.
  destruct (transform_factors_succeeds cos sin arcsin pi
              [100; 100; 100]%Z (10, 10, 10)%Z 2 true warp_amount
              lock_z no_x_flip perspective [81; 80; 80]%Z (10, 10, 10)%Z
              (100, 100, 100)%Z (81, 80, 80)%Z rng ambient) as [f Hf];
    try reflexivity; try discriminate.
  change (@Some (Z * Z * Z)%type) with (@Some Z3).
  rewrite Hf; cbn [rbind ok]. now eexists.
Qed.

(** *** Where the factors of the chain come from *)

Lemma swap_candidates_lock_z :
  swap_candidates true =
  [eye4;
   [[1; 0; 0; 0];
    [0; 0; 1; 0];
    [0; 1; 0; 0];
    [0; 0; 0; 1]]].
Proof. reflexivity. Qed.

Lemma swap_candidates_free :
  swap_candidates false =
  [eye4;
   [[1; 0; 0; 0]; [0; 0; 1; 0]; [0; 1; 0; 0]; [0; 0; 0; 1]];
   [[0; 1; 0; 0]; [1; 0; 0; 0]; [0; 0; 1; 0]; [0; 0; 0; 1]];
   [[0; 1; 0; 0]; [0; 0; 1; 0]; [1; 0; 0; 0]; [0; 0; 0; 1]];
   [[0; 0; 1; 0]; [1; 0; 0; 0]; [0; 1; 0; 0]; [0; 0; 0; 1]];
   [[0; 0; 1; 0]; [0; 1; 0; 0]; [1; 0; 0; 0]; [0; 0; 0; 1]]].
Proof. reflexivity. Qed.

(** Every candidate is the answer for some generator state. *)
Lemma get_random_swapmat_attains (lock_z : bool) (i : nat) :
  (i < length (swaps lock_z))%nat ->
  get_random_swapmat lock_z [Z.of_nat i] = ok (nth i (swap_candidates lock_z) [], []).
Proof.
  intros H; rewrite get_random_swapmat_ok; cbn [next_word fst snd].
  rewrite Z.mod_small by lia. rewrite Nat2Z.id.
  unfold swap_candidates.
  change (@nil (list Q)) with (take_rows eye4 []).
  now rewrite map_nth.
Qed.

Lemma get_random_swapmat_in (lock_z : bool) (rng rng' : RandomState) (Sm : matrix) :
  get_random_swapmat lock_z rng = ok (Sm, rng') ->
  In Sm (swap_candidates lock_z) /\ rng' = snd (next_word rng).
Proof.
  rewrite get_random_swapmat_ok; intros E; injection E as <- <-.
  split; [|reflexivity].
  apply in_map, nth_In.
  pose proof (Z.mod_pos_bound (fst (next_word rng)) (Z.of_nat (length (swaps lock_z)))).
  assert (0 < length (swaps lock_z))%nat by (destruct lock_z; cbn; lia).
  lia.
Qed.

(** C9, as the code has it: the flip factor always comes from
    [get_random_flipmat]; the swap factor comes from
    [get_random_swapmat] (one of the candidates: the identity or the
    swap of the two non-depth axes under [lock_z], one of the six
    permutations otherwise, picked by the generator) only when
    [no_x_flip] is off; with [no_x_flip] on the swap factor is the
    identity and the generator is not consulted for it.  The rotation
    and warp factors are the identity when the warp amount is close to
    zero, and come from [get_random_rotmat] and [get_random_warpmat]
    otherwise. *)
Theorem sampler_factor_origin
  (cos sin arcsin : Q -> Q) (pi : Q)
  (inp_src_shape : list Z) (patch_shape : Z3) (aniso_factor : Z)
  (sample_aniso : bool) (warp_amount : Q) (lock_z no_x_flip perspective : bool)
  (tss : option (list Z)) (tps : option Z3) (rng ambient : RandomState)
  (f : sampled factors) :
  transform_factors cos sin arcsin pi inp_src_shape patch_shape aniso_factor
    sample_aniso warp_amount lock_z no_x_flip perspective tss tps rng ambient = ok f ->
  exists rng1 rng2 rng3,
    get_random_flipmat no_x_flip rng1 = (f_F (value f), rng2) /\
    (if no_x_flip
     then f_S (value f) = eye4 /\ rng3 = rng2
     else get_random_swapmat lock_z rng2 = ok (f_S (value f), rng3) /\
          In (f_S (value f)) (swap_candidates lock_z)) /\
    (if isclose0 warp_amount
     then f_R (value f) = eye4 /\ f_W (value f) = eye4 /\
          rng_after f = rng3 /\ ambient_after f = ambient
     else get_random_rotmat cos sin arcsin pi lock_z warp_amount rng3
            = (f_R (value f), rng_after f) /\
          get_random_warpmat lock_z perspective warp_amount (rng_after f) ambient
            = (f_W (value f), ambient_after f)).
Proof.
  unfold transform_factors.
  destruct tss as [tss|]; [|discriminate]; cbn [rbind ok].
  destruct tps as [tps|]; [|discriminate]; cbn [rbind ok].
  destruct (bcast3 (last3 inp_src_shape)) as [|inp3]; [discriminate|]; cbn [rbind].
  destruct (bcast3 (last3 tss)) as [|tgt3]; [discriminate|]; cbn [rbind].
  destruct (center_bounds patch_shape tps inp3 tgt3) as [[[lo0 lo1] lo2] [[hi0 hi1] hi2]].
  destruct (negb _); [discriminate|].
  destruct patch_shape as [[p0 p1] p2]; cbn [map3].
  destruct (rs_randint lo0 hi0 rng) as [|[iz r0]]; [discriminate|]; cbn [rbind].
  destruct (rs_randint lo1 hi1 r0) as [|[iy r1]]; [discriminate|]; cbn [rbind].
  destruct (rs_randint lo2 hi2 r1) as [|[ix r2]]; [discriminate|]; cbn [rbind].
  destruct (get_random_flipmat no_x_flip r2) as [Fm r3] eqn:EF.
  destruct (if no_x_flip then ok (eye4, r3) else get_random_swapmat lock_z r3)
    as [|[Sm r4]] eqn:ES; [discriminate|]; cbn [rbind].
  destruct (if isclose0 warp_amount then _ else _) as [[[Rm Wm] r5] a5] eqn:ER.
  destruct (if sample_aniso then _ else _) as [|Sd]; [discriminate|]; cbn [rbind].
  intros E; injection E as <-; cbn [value f_F f_S f_R f_W rng_after ambient_after].
  exists r2, r3, r4; split; [exact EF|]; split.
  - destruct no_x_flip.
    + injection ES as <- <-; split; reflexivity.
    + split; [exact ES|]. now apply get_random_swapmat_in in ES.
  - destruct (isclose0 warp_amount).
    + injection ER as <- <- <- <-; repeat split; reflexivity.
    + destruct (get_random_rotmat _ _ _ _ _ _ r4) as [Rm' r5'] eqn:E1.
      destruct (get_random_warpmat _ _ _ r5' ambient) as [Wm' a5'] eqn:E2.
      injection ER as <- <- <- <-; split; [reflexivity | exact E2].
Qed.

Lemma sampler_factor_origin_witness :
  exists f,
    transform_factors cos_series sin_series arcsin_series pi_approx
      [10; 10; 10]%Z (4, 4, 4)%Z 2 true 0 true false false
      (Some [10; 10; 10]%Z) (Some (4, 4, 4)%Z) [3; 1; 4; 1; 5; 9; 2; 6]%Z [] = ok f /\
    exists rng1 rng2 rng3,
      get_random_flipmat false rng1 = (f_F (value f), rng2) /\
      (get_random_swapmat true rng2 = ok (f_S (value f), rng3) /\
       In (f_S (value f)) (swap_candidates true)) /\
      (f_R (value f) = eye4 /\ f_W (value f) = eye4 /\
       rng_after f = rng3 /\ ambient_after f = []).
Proof.
  eexists; split.
  - vm_compute; reflexivity.
  - apply (sampler_factor_origin cos_series sin_series arcsin_series pi_approx
             [10; 10; 10]%Z (4, 4, 4)%Z 2 true 0 true false false
             (Some [10; 10; 10]%Z) (Some (4, 4, 4)%Z) [3; 1; 4; 1; 5; 9; 2; 6]%Z []).
    vm_compute; reflexivity.
Defined.

Lemma Forall2_nth {A B} (P : A -> B -> Prop) (l : list A) (l' : list B) (d : A) (d' : B) :
  Forall2 P l l' -> P d d' -> forall i, P (nth i l d) (nth i l' d').
Proof.
  induction 1 as [|x y l l' Hxy Hl IH]; intros Hd [|i]; simpl; auto.
Qed.

Lemma mat_eq_entry (A B : matrix) (i j : nat) :
  mat_eq A B -> entry A i j == entry B i j.
Proof.
  intros H; unfold entry.
  apply Forall2_nth; [|reflexivity].
  apply (Forall2_nth (Forall2 Qeq)); [exact H | constructor].
Qed.

(** C9, as the claim has it, fails when [no_x_flip] is on: on the
    generator [0,0,0,0,0,0,0,1] the chain is built with the identity as
    its swap factor and the last word is left in the generator, although
    [get_random_swapmat] would turn that word into the swap of the two
    non-depth axes. *)
Lemma swap_factor_skipped_under_no_x_flip :
  rbind (transform_factors cos_series sin_series arcsin_series pi_approx
           [10; 10; 10]%Z (4, 4, 4)%Z 2 true 0 false true false
           (Some [10; 10; 10]%Z) (Some (4, 4, 4)%Z) [0; 0; 0; 0; 0; 0; 0; 1]%Z [])
        (fun f => ok (f_S (value f), rng_after f)) = ok (eye4, [1%Z]) /\
  get_random_swapmat false [1%Z] = ok (nth 1 (swap_candidates false) [], []) /\
  ~ mat_eq (nth 1 (swap_candidates false) []) eye4.
Proof.
  split; [vm_compute; reflexivity|].
  split; [vm_compute; reflexivity|].
  intros H; apply (mat_eq_entry _ _ 1 1) in H.
  vm_compute in H; discriminate.
Qed.

(** *** Bottom rows of chained matrices *)

Lemma veq_refl (a : list Q) : veq a a.
Proof. induction a; constructor; [reflexivity | assumption]. Qed.

Lemma veq_sym (a b : list Q) : veq a b -> veq b a.
Proof. induction 1; constructor; [now symmetry | assumption]. Qed.

Lemma veq_trans (a b c : list Q) : veq a b -> veq b c -> veq a c.
Proof.
  intros H; revert c; induction H as [|x y a b Hxy Hab IH]; intros c Hc.
  - exact Hc.
  - inversion Hc as [|y' z b' c' Hyz Hbc]; subst.
    constructor; [now rewrite Hxy | now apply IH].
Qed.

Lemma fold_left_Qplus_veq (l l' : list Q) :
  veq l l' -> forall a a', a == a' -> fold_left Qplus l a == fold_left Qplus l' a'.
Proof.
  induction 1 as [|x y l l' Hxy Hl IH]; intros a a' Ha; simpl.
  - exact Ha.
  - apply IH. now rewrite Hxy, Ha.
Qed.

Lemma vdot_veq (r r' c : list Q) : veq r r' -> vdot r c == vdot r' c.
Proof.
  intros H; unfold vdot; apply fold_left_Qplus_veq; [|reflexivity].
  revert c; induction H as [|x y r r' Hxy Hr IH]; intros [|c0 c]; simpl;
    try constructor.
  - now rewrite Hxy.
  - apply IH.
Qed.

Lemma vec_mat_veq (r r' : list Q) (B : matrix) :
  veq r r' -> veq (vec_mat r B) (vec_mat r' B).
Proof.
  intros H; unfold vec_mat.
  induction (seq 0 (ncols B)) as [|j js IH]; simpl; constructor.
  - now apply vdot_veq.
  - exact IH.
Qed.

Lemma length_dot (A B : matrix) : length (dot A B) = length A.
Proof. unfold dot; apply length_map. Qed.

Lemma row3_dot (A B : matrix) :
  (3 < length A)%nat -> row3 (dot A B) = vec_mat (row3 A) B.
Proof.
  intros H; unfold row3, dot.
  change (fun r => map (fun j => vdot r (col j B)) (seq 0 (ncols B)))
    with (fun r => vec_mat r B).
  rewrite (nth_indep (map (fun r => vec_mat r B) A) [] (vec_mat [] B))
    by (rewrite length_map; exact H).
  apply (map_nth (fun r => vec_mat r B)).
Qed.

Lemma mat_eq_row3 (A B : matrix) : mat_eq A B -> veq (row3 A) (row3 B).
Proof.
  intros H; unfold row3. apply (Forall2_nth (Forall2 Qeq)); [exact H | constructor].
Qed.

(** The bottom row of the chain of the sampler: when the first three
    factors leave the unit row [0, 0, 0, 1] in place, it is that row
    carried through the warp, flip, swap, scale and translation. *)
Lemma row3_chain (Td Sd Rm Wm Fm Sm Ss Ts : matrix) :
  veq (vec_mat (vec_mat (vec_mat (row3 identity) Td) Sd) Rm) [0; 0; 0; 1] ->
  veq (row3 (chain_matrices [Td; Sd; Rm; Wm; Fm; Sm; Ss; Ts]))
      (vec_mat (vec_mat (vec_mat (vec_mat (vec_mat [0; 0; 0; 1] Wm) Fm) Sm) Ss) Ts).
Proof.
  intros H; unfold chain_matrices; cbn [fold_left].
  rewrite !row3_dot by (rewrite !length_dot; cbn; lia).
  now do 5 apply vec_mat_veq.
Qed.

(** C2: two runs of the sampler on the same arguments and the same
    state of the passed generator need not agree: with a warp amount of
    1 and perspective on, the warp factor is sampled from the generator
    of the [np.random] module, and two states of that generator give
    matrices with different bottom rows.  The passed generator is left
    in the same state by both runs. *)
Theorem warp_factor_follows_ambient_generator
  (cos sin arcsin : Q -> Q) (pi : Q) :
  let run := get_warped_coord_transform cos sin arcsin pi
               [100; 100; 100]%Z (10, 10, 10)%Z 2 true 1 true false true
               (Some [80; 80; 80]%Z) (Some (10, 10, 10)%Z) [] in
  exists m1 m2,
    run [] = ok m1 /\
    run (repeat (2 ^ 31)%Z 16) = ok m2 /\
    rng_after m1 = rng_after m2 /\
    ~ mat_eq (value m1) (value m2).
Proof.
  intros run; subst run; unfold get_warped_coord_transform.
  destruct (transform_factors _ _ _ _ _ _ _ _ _ _ _ _ _ _ _ []) as [e1|f1] eqn:E1;
    vm_compute in E1; [discriminate|].
  destruct (transform_factors _ _ _ _ _ _ _ _ _ _ _ _ _ _ _ (repeat _ _)) as [e2|f2] eqn:E2;
    vm_compute in E2; [discriminate|].
  injection E1 as <-; injection E2 as <-.
  cbn [rbind ok value rng_after ambient_after].
  eexists _, _; split; [reflexivity|]; split; [reflexivity|].
  cbn [value rng_after]; split; [reflexivity|].
  intros H; apply mat_eq_row3 in H.
  cbv [factor_list f_T_dest f_S_dest f_R f_W f_F f_S f_S_src f_T_src] in H.
  match type of H with
  | veq (row3 (chain_matrices [?a; ?b; ?c; ?d; ?e; ?f; ?g; ?h]))
        (row3 (chain_matrices [_; _; _; ?d'; _; _; _; _])) =>
      assert (Hc : veq (vec_mat (vec_mat (vec_mat (row3 identity) a) b) c) [0; 0; 0; 1])
        by (cbv [vec_mat row3 identity eye4 nth ncols hd length seq map col vdot
                 combine fold_left fst snd];
            repeat constructor; ring);
      pose proof (row3_chain a b c d e f g h Hc) as H1;
      pose proof (row3_chain a b c d' e f g h Hc) as H2
  end.
  pose proof (veq_trans _ _ _ (veq_sym _ _ H1) (veq_trans _ _ _ H H2)) as H3.
  apply (fun X => Forall2_nth Qeq _ _ 0 0 X (Qeq_refl 0) 1%nat) in H3.
  apply Qeq_bool_iff in H3; vm_compute in H3; discriminate.
Qed.

(** *** The scope of the dependence on the ambient generator *)

(** When the warp amount is close to zero the rotation and warp factors
    are not sampled, and neither the matrix nor the final state of the
    passed generator depends on the ambient generator. *)
Lemma sampler_without_warp_ignores_ambient
  (cos sin arcsin : Q -> Q) (pi : Q)
  (inp_src_shape : list Z) (patch_shape : Z3) (aniso_factor : Z)
  (sample_aniso : bool) (warp_amount : Q) (lock_z no_x_flip perspective : bool)
  (tss : option (list Z)) (tps : option Z3) (rng ambient1 ambient2 : RandomState) :
  isclose0 warp_amount = true ->
  let run := get_warped_coord_transform cos sin arcsin pi inp_src_shape patch_shape
               aniso_factor sample_aniso warp_amount lock_z no_x_flip perspective
               tss tps rng in
  rbind (run ambient1) (fun m => ok (value m, rng_after m)) =
  rbind (run ambient2) (fun m => ok (value m, rng_after m)).
Proof.
  intros H run; subst run; unfold get_warped_coord_transform, transform_factors.
  rewrite H.
  destruct tss as [tss|]; [|reflexivity]; cbn [rbind ok].
  destruct tps as [tps|]; [|reflexivity]; cbn [rbind ok].
  destruct (bcast3 (last3 inp_src_shape)) as [|inp3]; [reflexivity|]; cbn [rbind].
  destruct (bcast3 (last3 tss)) as [|tgt3]; [reflexivity|]; cbn [rbind].
  destruct (center_bounds patch_shape tps inp3 tgt3) as [[[lo0 lo1] lo2] [[hi0 hi1] hi2]].
  destruct (negb _); [reflexivity|].
  destruct patch_shape as [[p0 p1] p2]; cbn [map3].
  destruct (rs_randint lo0 hi0 rng) as [|[iz r0]]; [reflexivity|]; cbn [rbind].
  destruct (rs_randint lo1 hi1 r0) as [|[iy r1]]; [reflexivity|]; cbn [rbind].
  destruct (rs_randint lo2 hi2 r1) as [|[ix r2]]; [reflexivity|]; cbn [rbind].
  destruct (get_random_flipmat no_x_flip r2) as [Fm r3].
  destruct (if no_x_flip then ok (eye4, r3) else get_random_swapmat lock_z r3)
    as [|[Sm r4]]; [reflexivity|]; cbn [rbind].
  destruct (if sample_aniso then _ else _) as [|Sd]; reflexivity.
Qed.

(** ** Patch extraction: the order of checks and reads *)

Lemma trace_io_bind {A B} (m : io A) (f : A -> io B) :
  trace (io_bind m f) =
  trace m ++ match outcome m with inl _ => [] | inr a => trace (f a) end.
Proof.
  destruct m as [t [e|a]]; cbn.
  - now rewrite app_nil_r.
  - now destruct (f a).
Qed.

Lemma outcome_io_bind {A B} (m : io A) (f : A -> io B) :
  outcome (io_bind m f) =
  match outcome m with inl e => inl e | inr a => outcome (f a) end.
Proof.
  destruct m as [t [e|a]]; cbn; [reflexivity|]. now destruct (f a).
Qed.

Lemma oob_false (lo hi sh : Z3) :
  oob lo hi sh = false -> within lo (map3 (fun h => (h + 1)%Z) hi) sh.
Proof.
  destruct lo as [[l0 l1] l2], hi as [[h0 h1] h2], sh as [[s0 s1] s2].
  cbv [oob any3 zip3 within map3].
  rewrite !orb_false_iff, !Z.ltb_ge, !Z.geb_leb, !Z.leb_gt. lia.
Qed.

(** The read of a source of four dimensions, and of any other source. *)
Lemma slice_h5_4d (src : Dataset) (lo hi : Z3) :
  length (shape src) = 4%nat ->
  slice_h5 src lo hi =
  ([ReadRegion src lo hi],
   ok {| shape := hd 0%Z (shape src) :: list3 (zip3 Z.sub hi lo);
         item := fun idx =>
                   match idx with
                   | [k; u; v; w] =>
                       item src [k; (fst3 lo + u)%Z; (snd3 lo + v)%Z; (thd3 lo + w)%Z]
                   | _ => 0
                   end |}).
Proof.
  intros H; destruct lo as [[l0 l1] l2]; unfold slice_h5.
  now rewrite H.
Qed.

Lemma slice_h5_not_4d (src : Dataset) (lo hi : Z3) :
  length (shape src) <> 4%nat ->
  slice_h5 src lo hi = ([ReadRegion src lo hi], inl ValueError).
Proof.
  intros H; destruct lo as [[l0 l1] l2]; unfold slice_h5.
  apply Nat.eqb_neq in H. now rewrite H.
Qed.

(** The input part fails without having read anything, or succeeds
    having read one region of the input source, inside its extent. *)
Lemma warp_input_cases (inp_src : Dataset) (patch_shape : Z3) (M : matrix) :
  match outcome (warp_input inp_src patch_shape M) with
  | inl _ => trace (warp_input inp_src patch_shape M) = []
  | inr (sh, _, _) =>
      spatial_extent inp_src = ok sh /\
      exists lo hi,
        trace (warp_input inp_src patch_shape M) = [ReadRegion inp_src lo hi] /\
        within lo hi sh
  end.
Proof.
  unfold warp_input, spatial_extent.
  destruct (shape inp_src) as [|c [|d [|h [|w [|x l]]]]] eqn:Hsh; try reflexivity.
  cbn [io_bind io_lift ok raise app].
  destruct (inv M) as [e|M_inv]; [reflexivity|].
  destruct (corner_bounds M M_inv patch_shape) as [e|[lo hi]]; [reflexivity|].
  destruct (oob lo hi (d, h, w)) eqn:Hoob; [reflexivity|].
  destruct (make_dest_coords patch_shape) as [e|dc]; [reflexivity|].
  rewrite slice_h5_4d by now rewrite Hsh.
  destruct lo as [[l0 l1] l2]; cbn.
  split; [reflexivity|].
  eexists _, _; split; [reflexivity|].
  now apply oob_false in Hoob.
Qed.

Lemma reduce_axis_error {A} (op : A -> A -> A) (l : list A) (e : exn) :
  reduce_axis op l = inl e -> e = ValueError.
Proof. destruct l; [intros E; now injection E | discriminate]. Qed.

(** The target part fails without having read anything, or reads one
    region of the target source, inside its extent; after that read it
    either succeeds or raises [ValueError]. *)
Lemma warp_target_cases (sh patch_shape : Z3) (src_coords : Z3 -> Q3)
  (target_src : Dataset) (tps : option Z3) (discr : option (list Z)) :
  let run := warp_target sh patch_shape src_coords target_src tps discr in
  (trace run = [] /\ exists e, outcome run = inl e) \/
  (exists lo hi ext,
     spatial_extent target_src = ok ext /\ within lo hi ext /\
     trace run = [ReadRegion target_src lo hi] /\
     (outcome run = inl ValueError \/ exists t, outcome run = inr t)).
Proof.
  unfold warp_target.
  destruct tps as [tps|]; [|left; split; [reflexivity | now eexists]].
  cbn [io_bind io_lift ok raise app].
  destruct (shape target_src) as [|n_f_t tl_sh] eqn:Hsh;
    [left; split; [reflexivity | now eexists]|].
  cbn [io_bind io_lift ok raise app].
  destruct (spatial_extent target_src) as [e|tsh] eqn:Hext;
    [left; split; [reflexivity | now eexists]|].
  cbn [io_bind io_lift ok raise app].
  destruct (any3 is_odd (zip3 Z.sub sh tsh));
    [left; split; [reflexivity | now eexists]|].
  destruct (any3 is_odd (zip3 Z.sub patch_shape tps));
    [left; split; [reflexivity | now eexists]|].
  destruct (target_window _ _ _) as [start count].
  destruct (target_bounds _ _) as [e|[lo_targ hi_targ]];
    [left; split; [reflexivity | now eexists]|].
  cbn [io_bind io_lift ok raise app].
  destruct (oob lo_targ hi_targ tsh) eqn:Hoob;
    [left; split; [reflexivity | now eexists]|].
  right. exists lo_targ, (map3 (fun h => (h + 1)%Z) hi_targ), tsh.
  split; [reflexivity|]. split; [now apply oob_false|].
  destruct (Nat.eq_dec (length (shape target_src)) 4) as [H4|H4];
    [rewrite slice_h5_4d by exact H4
    | rewrite slice_h5_not_4d by exact H4; cbn; split; [reflexivity | now left]].
  cbn [io_bind ok].
  destruct (reduce_axis Qmax _) as [e|n_target_classes] eqn:Hm.
  - apply reduce_axis_error in Hm; subst e; cbn.
    split; [reflexivity | now left].
  - cbn [io_bind io_lift ok raise app].
    destruct (negb _); cbn; (split; [reflexivity|]); [now left | right; now eexists].
Qed.

(** C5: every read request [warp_slice] issues, to the input source and
    to the target source alike, is for a region [lo, hi) with [0 <= lo]
    and [hi <= extent] on every spatial axis of the source it goes to. *)
Theorem warp_slice_reads_in_bounds
  (inp_src : Dataset) (patch_shape : Z3) (M : matrix)
  (target_src : option Dataset) (tps : option Z3) (discr : option (list Z)) :
  Forall read_in_bounds
    (trace (warp_slice inp_src patch_shape M target_src tps discr)).
Proof.
  unfold warp_slice; rewrite trace_io_bind.
  pose proof (warp_input_cases inp_src patch_shape M) as Hi.
  destruct (outcome (warp_input inp_src patch_shape M)) as [e|[[sh coords] inp]].
  - rewrite Hi; constructor.
  - destruct Hi as (Hext & lo & hi & -> & Hw).
    constructor; [now exists sh|].
    destruct target_src as [t|]; [|constructor].
    rewrite trace_io_bind.
    destruct (warp_target_cases sh patch_shape coords t tps discr)
      as [[-> [e ->]] | (lo' & hi' & ext & Hext' & Hw' & -> & [-> | [r ->]])];
      cbn; repeat constructor; now exists ext.
Qed.

(** For a source of shape (C, D, H, W) the extent is (D, H, W). *)
Lemma spatial_extent_4d (src : Dataset) (c d h w : Z) :
  shape src = [c; d; h; w] -> spatial_extent src = ok (d, h, w).
Proof. unfold spatial_extent; now intros ->. Qed.

(** C3, as the claim has it, fails for the checks of the target: the
    centring check and the bounds check of the target are reached only
    after the region of the input has been requested. *)
Lemma input_read_precedes_target_checks :
  (outcome uncentered_target_call = inl ValueError /\
   trace uncentered_target_call =
   [ReadRegion (ramp [1; 6; 6; 6]%Z) (0, 0, 0)%Z (5, 5, 5)%Z]) /\
  (outcome small_target_call = inl WarpingOOBError /\
   trace small_target_call =
   [ReadRegion (ramp [1; 6; 6; 6]%Z) (0, 0, 0)%Z (5, 5, 5)%Z]).
Proof. repeat split; vm_compute; reflexivity. Qed.

(** C3, as the code has it: a failing call has issued no read at all
    when the failure is one of the input part (dimension check,
    inversion, corner bounds check); it has issued the read of the input
    region and no read of the target when a check of the target fails
    (in particular the two centring checks and the bounds check of the
    target); only a [ValueError] can still follow the read of the
    target. *)
Theorem checks_precede_their_own_read
  (inp_src : Dataset) (patch_shape : Z3) (M : matrix)
  (target_src : option Dataset) (tps : option Z3) (discr : option (list Z)) :
  let run := warp_slice inp_src patch_shape M target_src tps discr in
  (forall e, outcome run = inl e ->
     (outcome (warp_input inp_src patch_shape M) = inl e /\ trace run = []) \/
     (exists t lo hi,
        target_src = Some t /\ trace run = [ReadRegion inp_src lo hi]) \/
     (exists t lo hi lo' hi',
        target_src = Some t /\ e = ValueError /\
        trace run = [ReadRegion inp_src lo hi; ReadRegion t lo' hi'])) /\
  (forall sh t tp tsh,
     is_ok (outcome (warp_input inp_src patch_shape M)) = true ->
     spatial_extent inp_src = ok sh ->
     target_src = Some t -> tps = Some tp ->
     shape t <> [] -> spatial_extent t = ok tsh ->
     any3 is_odd (zip3 Z.sub sh tsh) = true \/
     any3 is_odd (zip3 Z.sub patch_shape tp) = true ->
     outcome run = inl ValueError /\
     exists lo hi, trace run = [ReadRegion inp_src lo hi]).
Proof.
  intros run; subst run; unfold warp_slice.
  pose proof (warp_input_cases inp_src patch_shape M) as Hi.
  split.
  - intros e; rewrite outcome_io_bind, trace_io_bind.
    destruct (outcome (warp_input inp_src patch_shape M)) as [e'|[[sh coords] inp]].
    + intros E; injection E as ->; left; split; [reflexivity|].
      now rewrite Hi.
    + destruct Hi as (Hext & lo & hi & -> & Hw).
      destruct target_src as [t|]; [|discriminate].
      rewrite outcome_io_bind, trace_io_bind.
      destruct (warp_target_cases sh patch_shape coords t tps discr)
        as [[-> [e' ->]] | (lo' & hi' & ext & Hext' & Hw' & -> & [-> | [r ->]])];
        cbn; intros E; try discriminate.
      * right; left; now exists t, lo, hi.
      * injection E as <-; right; right; now exists t, lo, hi, lo', hi'.
  - intros sh t tp tsh Hin Hsh_in -> -> Hsh Hext Hodd.
    rewrite outcome_io_bind, trace_io_bind.
    destruct (outcome (warp_input inp_src patch_shape M)) as [e|[[sh' coords] inp]];
      [discriminate|].
    destruct Hi as (Hsh' & lo & hi & -> & _).
    rewrite Hsh_in in Hsh'; injection Hsh' as <-.
    rewrite outcome_io_bind, trace_io_bind.
    assert (Ht : warp_target sh patch_shape coords t (Some tp) discr
                 = ([], inl ValueError)).
    { unfold warp_target; cbn [io_bind io_lift ok raise app].
      destruct (shape t) as [|n l]; [now elim Hsh|].
      cbn [io_bind io_lift ok raise app].
      rewrite Hext; cbn [io_bind io_lift ok raise app].
      destruct (any3 is_odd (zip3 Z.sub sh tsh)); [reflexivity|].
      destruct Hodd as [Hodd|Hodd]; [discriminate|].
      now rewrite Hodd. }
    rewrite Ht; cbn. split; [reflexivity|]. now exists lo, hi.
Qed.

Lemma checks_precede_their_own_read_witness :
  outcome uncentered_target_call = inl ValueError /\
  exists lo hi,
    trace uncentered_target_call = [ReadRegion (ramp [1; 6; 6; 6]%Z) lo hi].
Proof.
  refine (proj2 (checks_precede_their_own_read (ramp [1; 6; 6; 6]%Z) (4, 4, 4)%Z
                   identity (Some (labels [1; 3; 4; 4]%Z)) (Some (2, 2, 2)%Z) None)
                (6, 6, 6)%Z (labels [1; 3; 4; 4]%Z) (2, 2, 2)%Z (3, 4, 4)%Z
                _ eq_refl eq_refl eq_refl _ eq_refl _).
  - vm_compute; reflexivity.
  - discriminate.
  - left; reflexivity.
Defined.

(** ** Patch extraction: the dimension checks *)

(** The input source is checked first: three dimensions raise
    [NotImplementedError], any other number than four [ValueError], and
    nothing has been read. *)
Lemma input_dimension_checked
  (inp_src : Dataset) (patch_shape : Z3) (M : matrix)
  (target_src : option Dataset) (tps : option Z3) (discr : option (list Z)) :
  length (shape inp_src) <> 4%nat ->
  warp_slice inp_src patch_shape M target_src tps discr =
  ([], inl (if (length (shape inp_src) =? 3)%nat
            then NotImplementedError else ValueError)).
Proof.
  unfold warp_slice, warp_input.
  destruct (shape inp_src) as [|c [|d [|h [|w [|x l]]]]]; cbn; intros H;
    try reflexivity.
  now elim H.
Qed.

Lemma target_bounds_error (pts : list Q3) (off : Z3) (e : exn) :
  target_bounds pts off = inl e -> e = ValueError.
Proof.
  unfold target_bounds, reduce3.
  repeat match goal with
         | |- context [reduce_axis ?op ?l] =>
             let E := fresh "E" in
             destruct (reduce_axis op l) eqn:E;
             [apply reduce_axis_error in E; subst; cbn [rbind raise];
              intros H; now injection H
             | cbn [rbind ok]]
         end.
  discriminate.
Qed.

(** A target source with another number of dimensions than four makes
    the target part fail: without a dimension by the subscript
    [shape[0]], with one, three or more than four by the subtraction of
    shapes that do not broadcast; one with two dimensions passes for a
    cube and fails in a centring check, in the bounds check, or at last
    in the read. *)
Lemma warp_target_non_4d (sh patch_shape : Z3) (src_coords : Z3 -> Q3)
  (t : Dataset) (tps : option Z3) (discr : option (list Z)) :
  let run := warp_target sh patch_shape src_coords t tps discr in
  length (shape t) <> 4%nat ->
  match tps, length (shape t) with
  | None, _ => outcome run = inl TypeError
  | Some _, O => outcome run = inl IndexError
  | Some _, 2%nat => outcome run = inl ValueError \/ outcome run = inl WarpingOOBError
  | Some _, _ => outcome run = inl ValueError
  end.
Proof.
  intros run H4; subst run; unfold warp_target.
  destruct tps as [tp|]; [|reflexivity].
  cbn [io_bind io_lift ok raise app].
  unfold spatial_extent.
  destruct (shape t) as [|c [|d [|h [|w [|x l]]]]] eqn:Hsh;
    try reflexivity; [|now elim H4].
  cbn [length tl bcast3 io_bind io_lift ok raise app].
  destruct (any3 is_odd _); [now left|].
  destruct (any3 is_odd _); [now left|].
  destruct (target_window _ _ _) as [start count].
  destruct (target_bounds _ _) as [e|[lo_targ hi_targ]] eqn:Eb.
  - apply target_bounds_error in Eb; subst e. now left.
  - cbn [io_bind io_lift ok raise app].
    destruct (oob lo_targ hi_targ (d, d, d)); [now right|].
    rewrite slice_h5_not_4d by (rewrite Hsh; discriminate).
    now left.
Qed.

(** C8: a source whose number of dimensions is not four is never
    processed.  An input source of three dimensions raises
    [NotImplementedError], one of any other number than four
    [ValueError], before anything is read.  With a target source of
    another number of dimensions than four the call returns no patch
    either; where the input part has passed, the error is [TypeError]
    without a target patch shape and otherwise [IndexError] for a target
    without a dimension, [ValueError] for one, three or more than four
    dimensions, and for two dimensions [ValueError] or, where the
    coordinates leave the cube the shape is taken for,
    [WarpingOOBError]. *)
Theorem non_4d_source_is_refused
  (inp_src : Dataset) (patch_shape : Z3) (M : matrix)
  (target_src : option Dataset) (tps : option Z3) (discr : option (list Z)) :
  let run := warp_slice inp_src patch_shape M target_src tps discr in
  (length (shape inp_src) <> 4%nat ->
   run = ([], inl (if (length (shape inp_src) =? 3)%nat
                   then NotImplementedError else ValueError))) /\
  (forall t, target_src = Some t -> length (shape t) <> 4%nat ->
     is_ok (outcome run) = false /\
     (is_ok (outcome (warp_input inp_src patch_shape M)) = true ->
      match tps, length (shape t) with
      | None, _ => outcome run = inl TypeError
      | Some _, O => outcome run = inl IndexError
      | Some _, 2%nat =>
          outcome run = inl ValueError \/ outcome run = inl WarpingOOBError
      | Some _, _ => outcome run = inl ValueError
      end)).
Proof.
  intros run; subst run; split.
  - apply input_dimension_checked.
  - intros t -> H4. unfold warp_slice. rewrite outcome_io_bind.
    destruct (outcome (warp_input inp_src patch_shape M)) as [e|[[sh coords] inp]];
      [split; [reflexivity | discriminate]|].
    rewrite outcome_io_bind.
    pose proof (warp_target_non_4d sh patch_shape coords t tps discr H4) as Ht.
    cbv zeta in Ht.
    assert (He : exists e, outcome (warp_target sh patch_shape coords t tps discr)
                           = inl e).
    { destruct tps as [tp|]; [|eexists; exact Ht].
      destruct (length (shape t)) as [|[|[|n]]];
        first [eexists; exact Ht | destruct Ht as [Ht|Ht]; eexists; exact Ht]. }
    destruct He as [e He]. split; [now rewrite He|].
    intros _.
    destruct tps as [tp|]; [|rewrite Ht; reflexivity].
    destruct (length (shape t)) as [|[|[|n]]];
      first [rewrite Ht; reflexivity
            | destruct Ht as [Ht|Ht]; rewrite Ht; [left | right]; reflexivity].
Qed.

Lemma non_4d_source_is_refused_witness :
  is_ok (outcome flat_target_call) = false /\
  outcome flat_target_call = inl ValueError.
Proof.
  pose proof (proj2 (non_4d_source_is_refused (ramp [1; 6; 6; 6]%Z) (4, 4, 4)%Z
                       identity (Some (labels [1; 4]%Z)) (Some (2, 2, 2)%Z) None)
                (labels [1; 4]%Z) eq_refl) as H.
  assert (H4 : length (shape (labels [1; 4]%Z)) <> 4%nat) by discriminate.
  destruct (H H4) as [H1 H2].
  split; [exact H1|].
  vm_compute; reflexivity.
Defined.

(** ** Patch extraction under the identity transform *)

Lemma Qtrunc_eq (q : Q) (z : Z) : q == inject_Z z -> Qtrunc q = z.
Proof.
  destruct q as [n d]; unfold Qeq, Qtrunc; simpl; intros H.
  rewrite Z.mul_1_r in H; subst n. apply Z.quot_mul; lia.
Qed.

(** On a coordinate that falls on a voxel the trilinear resampler
    returns the value of that voxel. *)
Lemma map_coordinates_linear_at_voxel (src : array3) (coords lo : Q3) (i j l : Z) :
  fst3 coords - fst3 lo == inject_Z i ->
  snd3 coords - snd3 lo == inject_Z j ->
  thd3 coords - thd3 lo == inject_Z l ->
  map_coordinates_linear src coords lo == src i j l.
Proof.
  destruct coords as [[c0 c1] c2], lo as [[l0 l1] l2]; cbn [fst3 snd3 thd3].
  intros H0 H1 H2; unfold map_coordinates_linear.
  rewrite (Qtrunc_eq _ _ H0), (Qtrunc_eq _ _ H1), (Qtrunc_eq _ _ H2).
  rewrite H0, H1, H2. ring.
Qed.

Lemma inv_identity : inv identity = ok eye4.
Proof. vm_compute; reflexivity. Qed.

Lemma map_src_identity (x y z : Q) :
  fst3 (map_src identity eye4 [x; y; z; 1]) == x /\
  snd3 (map_src identity eye4 [x; y; z; 1]) == y /\
  thd3 (map_src identity eye4 [x; y; z; 1]) == z.
Proof.
  unfold map_src. change (has_perspective identity) with false.
  cbv [mat_vec spatial map eye4 vdot combine fold_left nth fst snd fst3 snd3 thd3].
  repeat split; ring.
Qed.

Lemma floor_corner_identity (a b c : Z) :
  map3 Qfloor (map_src identity eye4 [inject_Z a; inject_Z b; inject_Z c; 1]) = (a, b, c).
Proof.
  destruct (map_src_identity (inject_Z a) (inject_Z b) (inject_Z c)) as (H0 & H1 & H2).
  destruct (map_src identity eye4 _) as [[u v] w]; cbn [fst3 snd3 thd3 map3] in *.
  now rewrite (Qfloor_comp _ _ H0), (Qfloor_comp _ _ H1), (Qfloor_comp _ _ H2), !Qfloor_Z.
Qed.

Lemma ceiling_corner_identity (a b c : Z) :
  map3 (fun q => Qceiling (q + 1))
       (map_src identity eye4 [inject_Z a; inject_Z b; inject_Z c; 1])
  = ((a + 1)%Z, (b + 1)%Z, (c + 1)%Z).
Proof.
  destruct (map_src_identity (inject_Z a) (inject_Z b) (inject_Z c)) as (H0 & H1 & H2).
  destruct (map_src identity eye4 _) as [[u v] w]; cbn [fst3 snd3 thd3 map3] in *.
  assert (E : forall q n, q == inject_Z n -> Qceiling (q + 1) = (n + 1)%Z).
  { intros q n H. rewrite <- (Qceiling_Z (n + 1)). apply Qceiling_comp.
    rewrite H, inject_Z_plus. reflexivity. }
  now rewrite (E _ _ H0), (E _ _ H1), (E _ _ H2).
Qed.

(** Under the identity the corner bounds of a patch of shape [p] are
    [lo = min(0, p - 1)] and [hi = max(1, p)] on every axis. *)
Lemma corner_bounds_identity (p0 p1 p2 : Z) :
  corner_bounds identity eye4 (p0, p1, p2) =
  ok ((Z.min 0 (p0 - 1), Z.min 0 (p1 - 1), Z.min 0 (p2 - 1)),
      (Z.max 1 p0, Z.max 1 p1, Z.max 1 p2)).
Proof.
  unfold corner_bounds, make_dest_corners; cbn [map3 map].
  rewrite !floor_corner_identity, !ceiling_corner_identity.
  cbn [reduce3 reduce_axis map fst3 snd3 thd3 fold_left rbind ok].
  unfold ok; f_equal.
  repeat match goal with |- (_, _) = (_, _) => f_equal end; lia.
Qed.

(** With a patch as large as the volume the identity transform is out of
    bounds: the bounds check keeps one voxel beyond the last patch
    coordinate for the neighbour of the trilinear rule, and that voxel
    is outside the volume. *)
Lemma identity_full_patch_out_of_bounds
  (inp_src : Dataset) (c d h w : Z)
  (target_src : option Dataset) (tps : option Z3) (discr : option (list Z)) :
  shape inp_src = [c; d; h; w] ->
  warp_slice inp_src (d, h, w) identity target_src tps discr
  = ([], inl WarpingOOBError).
Proof.
  intros Hs; unfold warp_slice, warp_input; rewrite Hs, inv_identity.
  cbn [io_bind io_lift ok raise app].
  rewrite corner_bounds_identity; cbn [io_bind io_lift ok raise app].
  replace (oob _ _ _) with true; [reflexivity|].
  symmetry; cbv [oob any3 zip3].
  rewrite !orb_true_iff, !Z.ltb_lt, !Z.geb_leb, !Z.leb_le. lia.
Qed.

(** C1, as the claim has it, fails: a 3 x 3 x 3 volume and a 3 x 3 x 3
    patch under the identity raise [WarpingOOBError]. *)
Lemma identity_full_patch_fails :
  warp_slice (ramp [1; 3; 3; 3]%Z) (3, 3, 3)%Z identity None None None
  = ([], inl WarpingOOBError).
Proof. now apply (identity_full_patch_out_of_bounds _ 1 3 3 3). Qed.

(** C1, as the code has it: under the identity a patch of shape [p] with
    [1 <= p <= shape - 1] on every spatial axis is extracted without
    error, from the region [0, p + 1) of the source, and every voxel of
    the patch equals the voxel of the source at the same index. *)
Theorem identity_patch_is_subvolume
  (inp_src : Dataset) (c d h w p0 p1 p2 : Z) :
  shape inp_src = [c; d; h; w] ->
  (1 <= p0 <= d - 1)%Z -> (1 <= p1 <= h - 1)%Z -> (1 <= p2 <= w - 1)%Z ->
  exists inp,
    warp_slice inp_src (p0, p1, p2) identity None None None
    = ([ReadRegion inp_src (0, 0, 0)%Z ((p0 + 1)%Z, (p1 + 1)%Z, (p2 + 1)%Z)],
       ok (inp, None)) /\
    shape inp = [c; p0; p1; p2] /\
    forall k z y x,
      (0 <= k < c)%Z -> (0 <= z < p0)%Z -> (0 <= y < p1)%Z -> (0 <= x < p2)%Z ->
      item inp [k; z; y; x] == item inp_src [k; z; y; x].
Proof.
  intros Hs H0 H1 H2; unfold warp_slice, warp_input; rewrite Hs, inv_identity.
  cbn [io_bind io_lift ok raise app].
  rewrite corner_bounds_identity; cbn [io_bind io_lift ok raise app].
  rewrite !Z.min_l, !Z.max_r by lia.
  replace (oob _ _ _) with false.
  2:{ symmetry; cbv [oob any3 zip3].
      rewrite !orb_false_iff, !Z.ltb_ge, !Z.geb_leb, !Z.leb_gt. lia. }
  replace (make_dest_coords (p0, p1, p2)) with (ok dest_coord).
  2:{ unfold make_dest_coords; cbv [any3].
      destruct (Z.ltb_spec p0 0); [lia|].
      destruct (Z.ltb_spec p1 0); [lia|].
      destruct (Z.ltb_spec p2 0); [lia|]. reflexivity. }
  rewrite slice_h5_4d by now rewrite Hs.
  cbn [io_bind io_lift io_ret ok raise app map3].
  eexists; split; [reflexivity|]. split; [reflexivity|].
  intros k z y x _ _ _ _; cbn [item].
  destruct (map_src_identity (inject_Z z) (inject_Z y) (inject_Z x)) as (Ez & Ey & Ex).
  rewrite map_coordinates_linear_at_voxel with (i := z) (j := y) (l := x).
  - unfold channel; cbn [item]. reflexivity.
  - cbn [dest_coord fst3]. rewrite Ez. unfold Qminus. ring.
  - cbn [dest_coord snd3]. rewrite Ey. ring.
  - cbn [dest_coord thd3]. rewrite Ex. ring.
Qed.

Lemma identity_patch_is_subvolume_witness :
  exists inp,
    warp_slice (ramp [1; 4; 4; 4]%Z) (3, 3, 3)%Z identity None None None
    = ([ReadRegion (ramp [1; 4; 4; 4]%Z) (0, 0, 0)%Z (4, 4, 4)%Z], ok (inp, None)) /\
    shape inp = [1; 3; 3; 3]%Z /\
    forall k z y x,
      (0 <= k < 1)%Z -> (0 <= z < 3)%Z -> (0 <= y < 3)%Z -> (0 <= x < 3)%Z ->
      item inp [k; z; y; x] == item (ramp [1; 4; 4; 4]%Z) [k; z; y; x].
Proof.
  apply (identity_patch_is_subvolume (ramp [1; 4; 4; 4]%Z) 1 4 4 4 3 3 3);
    [reflexivity | lia | lia | lia].
Defined.

(** ** The resamplers read inside the fetched sub-cube *)

Lemma Qfloor_sub_Z (q : Q) (n : Z) : Qfloor (q - inject_Z n) = (Qfloor q - n)%Z.
Proof.
  assert (H1 := Qfloor_le q). assert (H2 := Qlt_floor q).
  assert (H3 := Qfloor_le (q - inject_Z n)). assert (H4 := Qlt_floor (q - inject_Z n)).
  rewrite inject_Z_plus in H2, H4.
  change (inject_Z 1) with 1 in H2, H4.
  assert (A : inject_Z (Qfloor (q - inject_Z n)) < inject_Z (Qfloor q - n) + 1).
  { unfold Z.sub; rewrite inject_Z_plus, inject_Z_opp. lra. }
  assert (B : inject_Z (Qfloor q - n) < inject_Z (Qfloor (q - inject_Z n)) + 1).
  { unfold Z.sub; rewrite inject_Z_plus, inject_Z_opp. lra. }
  change 1 with (inject_Z 1) in A, B.
  rewrite <- inject_Z_plus, <- Zlt_Qlt in A, B. lia.
Qed.

Lemma Qround_even_bounds (q : Q) :
  (Qfloor q <= Qround_even q <= Qfloor q + 1)%Z.
Proof.
  unfold Qround_even.
  destruct (q - inject_Z (Qfloor q) ?= 1 # 2); [destruct (Z.even _)| |]; lia.
Qed.

(** *** Affine coordinates *)

Lemma vdot_affine (r : list Q) : affine (vdot r).
Proof.
  destruct r as [|r0 [|r1 [|r2 [|r3 r']]]].
  - exists 0, 0, 0, 0; intros; cbv [vdot combine map fold_left]; ring.
  - exists r0, 0, 0, 0; intros; cbv [vdot combine map fold_left fst snd]; ring.
  - exists r0, r1, 0, 0; intros; cbv [vdot combine map fold_left fst snd]; ring.
  - exists r0, r1, r2, 0; intros; cbv [vdot combine map fold_left fst snd]; ring.
  - exists r0, r1, r2, r3; intros; unfold vdot; cbn [combine].
    rewrite combine_nil; cbn [map fold_left fst snd]; ring.
Qed.

Lemma mat_vec_nth_affine (A : matrix) (i : nat) :
  affine (fun v => nth i (mat_vec A v) 0).
Proof.
  destruct (Nat.lt_ge_cases i (length A)) as [H|H].
  - destruct (vdot_affine (nth i A [])) as (a & b & c & d & E).
    exists a, b, c, d; intros x y z. rewrite <- E; unfold mat_vec.
    rewrite (nth_indep _ 0 ((fun r => vdot r [x; y; z; 1]) []))
      by (rewrite length_map; exact H).
    rewrite (map_nth (fun r => vdot r [x; y; z; 1])). reflexivity.
  - exists 0, 0, 0, 0; intros x y z.
    rewrite nth_overflow by (unfold mat_vec; rewrite length_map; exact H). ring.
Qed.

Lemma map_src_affine (M M_inv : matrix) :
  has_perspective M = false ->
  affine (fun v => fst3 (map_src M M_inv v)) /\
  affine (fun v => snd3 (map_src M M_inv v)) /\
  affine (fun v => thd3 (map_src M M_inv v)).
Proof.
  intros H; unfold map_src; rewrite H; cbn [spatial fst3 snd3 thd3].
  repeat split; apply mat_vec_nth_affine.
Qed.

(** On an axis, an affine coordinate takes values between those at the
    ends of the axis. *)
Lemma axis_end_below (a : Q) (s x : Z) :
  (0 <= x <= s)%Z ->
  exists e, (e = 0 \/ e = 1)%Z /\ a * inject_Z (s * e) <= a * inject_Z x.
Proof.
  intros [H0 H1]. rewrite Zle_Qle in H0, H1.
  destruct (Qlt_le_dec a 0) as [Ha|Ha].
  - exists 1%Z; split; [now right|]. rewrite Z.mul_1_r. nra.
  - exists 0%Z; split; [now left|]. rewrite Z.mul_0_r.
    change (inject_Z 0) with 0 in *. nra.
Qed.

Lemma axis_end_above (a : Q) (s x : Z) :
  (0 <= x <= s)%Z ->
  exists e, (e = 0 \/ e = 1)%Z /\ a * inject_Z x <= a * inject_Z (s * e).
Proof.
  intros [H0 H1]. rewrite Zle_Qle in H0, H1.
  destruct (Qlt_le_dec a 0) as [Ha|Ha].
  - exists 0%Z; split; [now left|]. rewrite Z.mul_0_r.
    change (inject_Z 0) with 0 in *. nra.
  - exists 1%Z; split; [now right|]. rewrite Z.mul_1_r. nra.
Qed.

Lemma corner_in (p0 p1 p2 e0 e1 e2 : Z) :
  (e0 = 0 \/ e0 = 1)%Z -> (e1 = 0 \/ e1 = 1)%Z -> (e2 = 0 \/ e2 = 1)%Z ->
  In [inject_Z ((p0 - 1) * e0); inject_Z ((p1 - 1) * e1); inject_Z ((p2 - 1) * e2); 1]
     (make_dest_corners (p0, p1, p2)).
Proof.
  intros [-> | ->] [-> | ->] [-> | ->]; cbn; tauto.
Qed.

(** Among the eight corners of the patch there is one whose affine
    coordinate is not above, and one whose coordinate is not below, the
    coordinate of a given voxel of the patch. *)
Lemma corner_below (g : list Q -> Q) (p0 p1 p2 z y x : Z) :
  affine g ->
  (0 <= z < p0)%Z -> (0 <= y < p1)%Z -> (0 <= x < p2)%Z ->
  exists v, In v (make_dest_corners (p0, p1, p2)) /\ g v <= g (dest_coord (z, y, x)).
Proof.
  intros (a & b & c & d & E) Hz Hy Hx.
  destruct (axis_end_below a (p0 - 1) z) as (e0 & He0 & L0); [lia|].
  destruct (axis_end_below b (p1 - 1) y) as (e1 & He1 & L1); [lia|].
  destruct (axis_end_below c (p2 - 1) x) as (e2 & He2 & L2); [lia|].
  eexists; split; [apply (corner_in p0 p1 p2 e0 e1 e2); assumption|].
  cbn [dest_coord]; rewrite !E. lra.
Qed.

Lemma corner_above (g : list Q -> Q) (p0 p1 p2 z y x : Z) :
  affine g ->
  (0 <= z < p0)%Z -> (0 <= y < p1)%Z -> (0 <= x < p2)%Z ->
  exists v, In v (make_dest_corners (p0, p1, p2)) /\ g (dest_coord (z, y, x)) <= g v.
Proof.
  intros (a & b & c & d & E) Hz Hy Hx.
  destruct (axis_end_above a (p0 - 1) z) as (e0 & He0 & L0); [lia|].
  destruct (axis_end_above b (p1 - 1) y) as (e1 & He1 & L1); [lia|].
  destruct (axis_end_above c (p2 - 1) x) as (e2 & He2 & L2); [lia|].
  eexists; split; [apply (corner_in p0 p1 p2 e0 e1 e2); assumption|].
  cbn [dest_coord]; rewrite !E. lra.
Qed.

(** *** Reductions are bounds *)

Section ReduceBound.

Context {A : Type} (le : A -> A -> Prop) (op : A -> A -> A).
Hypothesis le_refl : forall a, le a a.
Hypothesis le_trans : forall a b c, le a b -> le b c -> le a c.
Hypothesis op_l : forall a b, le (op a b) a.
Hypothesis op_r : forall a b, le (op a b) b.

Lemma fold_left_bound (l : list A) (x y : A) :
  In y (x :: l) -> le (fold_left op l x) y.
Proof.
  revert x y; induction l as [|z l IH]; intros x y [->|H]; cbn.
  - apply le_refl.
  - destruct H.
  - apply le_trans with (op y z); [apply IH; now left | apply op_l].
  - destruct H as [->|H].
    + apply le_trans with (op x y); [apply IH; now left | apply op_r].
    + apply IH; now right.
Qed.

Lemma reduce_axis_bound (l : list A) (m y : A) :
  reduce_axis op l = ok m -> In y l -> le m y.
Proof.
  destruct l as [|x l]; [discriminate|]. intros E; injection E as <-.
  apply fold_left_bound.
Qed.

Lemma reduce3_bound (l : list (vec3 A)) (m v : vec3 A) :
  reduce3 op l = ok m -> In v l ->
  le (fst3 m) (fst3 v) /\ le (snd3 m) (snd3 v) /\ le (thd3 m) (thd3 v).
Proof.
  unfold reduce3.
  destruct (reduce_axis op (map fst3 l)) as [|a] eqn:Ea; [discriminate|].
  destruct (reduce_axis op (map snd3 l)) as [|b] eqn:Eb; [discriminate|].
  destruct (reduce_axis op (map thd3 l)) as [|c] eqn:Ec; [discriminate|].
  cbn [rbind ok]. intros E Hv; injection E as <-; cbn [fst3 snd3 thd3].
  repeat split; eapply reduce_axis_bound; eauto using in_map.
Qed.

End ReduceBound.

Lemma fst3_map3 {A B} (f : A -> B) (v : vec3 A) : fst3 (map3 f v) = f (fst3 v).
Proof. now destruct v as [[a b] c]. Qed.
Lemma snd3_map3 {A B} (f : A -> B) (v : vec3 A) : snd3 (map3 f v) = f (snd3 v).
Proof. now destruct v as [[a b] c]. Qed.
Lemma thd3_map3 {A B} (f : A -> B) (v : vec3 A) : thd3 (map3 f v) = f (thd3 v).
Proof. now destruct v as [[a b] c]. Qed.

(** *** One axis *)

Lemma axis_trunc_range (t q : Q) (lo hi : Z) :
  t == q - inject_Z lo -> inject_Z lo <= q -> q + 1 <= inject_Z hi ->
  (0 <= Qtrunc t /\ Qtrunc t + 1 <= hi - lo)%Z.
Proof.
  intros Ht Hlo Hhi.
  assert (H0 : 0 <= t) by (rewrite Ht; lra).
  rewrite (Qtrunc_nonneg _ H0), (Qfloor_comp _ _ Ht), Qfloor_sub_Z.
  assert (L := Qfloor_resp_le _ _ Hlo); rewrite Qfloor_Z in L.
  assert (F := Qfloor_le q).
  assert (U : inject_Z (Qfloor q + 1) <= inject_Z hi).
  { rewrite inject_Z_plus; change (inject_Z 1) with 1; lra. }
  rewrite <- Zle_Qle in U. lia.
Qed.

Lemma axis_round_range (t q : Q) (lo hi : Z) :
  t == q - inject_Z lo -> inject_Z lo <= q -> q + 1 <= inject_Z hi ->
  (0 <= Qround_even t <= hi - lo)%Z.
Proof.
  intros Ht Hlo Hhi.
  pose proof (Qround_even_bounds t) as B.
  rewrite (Qfloor_comp _ _ Ht), Qfloor_sub_Z in B.
  assert (L := Qfloor_resp_le _ _ Hlo); rewrite Qfloor_Z in L.
  assert (F := Qfloor_le q).
  assert (U : inject_Z (Qfloor q + 1) <= inject_Z hi).
  { rewrite inject_Z_plus; change (inject_Z 1) with 1; lra. }
  rewrite <- Zle_Qle in U. lia.
Qed.

(** The coordinate of a voxel of the patch lies between the corner
    bounds, on an axis whose coordinate is affine. *)
Lemma voxel_between_corner_bounds
  (g : list Q -> Q) (p0 p1 p2 z y x lo hi : Z) :
  affine g ->
  (forall v, In v (make_dest_corners (p0, p1, p2)) -> (lo <= Qfloor (g v))%Z) ->
  (forall v, In v (make_dest_corners (p0, p1, p2)) -> (Qceiling (g v + 1) <= hi)%Z) ->
  (0 <= z < p0)%Z -> (0 <= y < p1)%Z -> (0 <= x < p2)%Z ->
  inject_Z lo <= g (dest_coord (z, y, x)) /\
  g (dest_coord (z, y, x)) + 1 <= inject_Z hi.
Proof.
  intros Hg Hlo Hhi Hz Hy Hx.
  destruct (corner_below g p0 p1 p2 z y x Hg Hz Hy Hx) as (v & Hv & Lv).
  destruct (corner_above g p0 p1 p2 z y x Hg Hz Hy Hx) as (w & Hw & Lw).
  specialize (Hlo v Hv); specialize (Hhi w Hw).
  rewrite Zle_Qle in Hlo, Hhi.
  pose proof (Qfloor_le (g v)). pose proof (Qle_ceiling (g w + 1)).
  split; lra.
Qed.

Lemma corner_bounds_bound (M M_inv : matrix) (p : Z3) (lo hi : Z3) (v : list Q) :
  corner_bounds M M_inv p = ok (lo, hi) ->
  In v (make_dest_corners p) ->
  ((fst3 lo <= Qfloor (fst3 (map_src M M_inv v)))%Z /\
   (snd3 lo <= Qfloor (snd3 (map_src M M_inv v)))%Z /\
   (thd3 lo <= Qfloor (thd3 (map_src M M_inv v)))%Z) /\
  ((Qceiling (fst3 (map_src M M_inv v) + 1) <= fst3 hi)%Z /\
   (Qceiling (snd3 (map_src M M_inv v) + 1) <= snd3 hi)%Z /\
   (Qceiling (thd3 (map_src M M_inv v) + 1) <= thd3 hi)%Z).
Proof.
  unfold corner_bounds; intros E Hv.
  destruct (reduce3 Z.min _) as [|lo'] eqn:Elo; [discriminate|].
  destruct (reduce3 Z.max _) as [|hi'] eqn:Ehi; [discriminate|].
  cbn [rbind ok] in E; injection E as -> ->.
  split.
  - pose proof (reduce3_bound Z.le Z.min Z.le_refl Z.le_trans Z.le_min_l Z.le_min_r
                  _ _ (map3 Qfloor (map_src M M_inv v)) Elo) as H.
    rewrite fst3_map3, snd3_map3, thd3_map3 in H.
    apply H. now apply in_map, in_map.
  - pose proof (reduce3_bound (fun a b => (b <= a)%Z) Z.max Z.le_refl
                  (fun a b c H1 H2 => Z.le_trans _ _ _ H2 H1)
                  Z.le_max_l Z.le_max_r
                  _ _ (map3 (fun c => Qceiling (c + 1)) (map_src M M_inv v)) Ehi) as H.
    rewrite fst3_map3, snd3_map3, thd3_map3 in H.
    apply H. now apply in_map, in_map.
Qed.

(** C10: with an affine forward matrix every index the trilinear
    resampler reads for a voxel of the input patch lies inside the
    sub-cube of extent [hi + 1 - lo] fetched for the corner bounds; and
    for the target, every index the nearest or the trilinear resampler
    reads for a coordinate of the target window lies inside the
    sub-cube of extent [hi_targ + 1 - lo_targ]. *)
Theorem resampler_reads_inside_cut
  (M M_inv : matrix) (p0 p1 p2 : Z) (lo hi : Z3) :
  has_perspective M = false ->
  corner_bounds M M_inv (p0, p1, p2) = ok (lo, hi) ->
  (forall z y x,
     (0 <= z < p0)%Z -> (0 <= y < p1)%Z -> (0 <= x < p2)%Z ->
     Forall (inside (cut_extent lo hi))
       (linear_indices (map_src M M_inv (dest_coord (z, y, x))) (map3 inject_Z lo))) /\
  (forall pts off lo_targ hi_targ c,
     target_bounds pts off = ok (lo_targ, hi_targ) -> In c pts ->
     inside (cut_extent lo_targ hi_targ)
       (nearest_index c (zip3 (fun l o => inject_Z (l + o)) lo_targ off)) /\
     Forall (inside (cut_extent lo_targ hi_targ))
       (linear_indices c (zip3 (fun l o => inject_Z (l + o)) lo_targ off))).
Proof.
  intros Hp Hcb; split.
  - intros z y x Hz Hy Hx.
    destruct (map_src_affine M M_inv Hp) as (A0 & A1 & A2).
    pose proof (fun v Hv => corner_bounds_bound M M_inv _ lo hi v Hcb Hv) as Hb.
    destruct (voxel_between_corner_bounds _ p0 p1 p2 z y x (fst3 lo) (fst3 hi) A0)
      as [L0 U0]; try assumption; try (intros v Hv; apply (Hb v Hv)).
    destruct (voxel_between_corner_bounds _ p0 p1 p2 z y x (snd3 lo) (snd3 hi) A1)
      as [L1 U1]; try assumption; try (intros v Hv; apply (Hb v Hv)).
    destruct (voxel_between_corner_bounds _ p0 p1 p2 z y x (thd3 lo) (thd3 hi) A2)
      as [L2 U2]; try assumption; try (intros v Hv; apply (Hb v Hv)).
    destruct (map_src M M_inv (dest_coord (z, y, x))) as [[c0 c1] c2].
    destruct lo as [[l0 l1] l2], hi as [[h0 h1] h2]; cbn [fst3 snd3 thd3] in *.
    pose proof (axis_trunc_range _ c0 l0 h0 (Qeq_refl _) L0 U0).
    pose proof (axis_trunc_range _ c1 l1 h1 (Qeq_refl _) L1 U1).
    pose proof (axis_trunc_range _ c2 l2 h2 (Qeq_refl _) L2 U2).
    unfold linear_indices, cut_extent, inside, zip3, map3.
    repeat (apply Forall_cons; [cbv beta iota; lia|]). apply Forall_nil.
  - intros pts off lo_targ hi_targ c Htb Hc.
    unfold target_bounds in Htb.
    destruct (reduce3 Qmin pts) as [|mn] eqn:Emn; [discriminate|].
    destruct (reduce3 Qmax pts) as [|mx] eqn:Emx; [discriminate|].
    cbn [rbind ok] in Htb; unfold ok in Htb.
    assert (E1 : lo_targ = zip3 (fun m o => Qfloor (m - inject_Z o)) mn off)
      by congruence.
    assert (E2 : hi_targ = zip3 (fun m o => Qceiling (m - inject_Z o + 1)) mx off)
      by congruence.
    subst lo_targ hi_targ; clear Htb.
    pose proof (reduce3_bound Qle Qmin Qle_refl Qle_trans Q.le_min_l Q.le_min_r
                  _ _ c Emn Hc) as (N0 & N1 & N2).
    pose proof (reduce3_bound (fun a b => b <= a) Qmax Qle_refl
                  (fun a b c H1 H2 => Qle_trans _ _ _ H2 H1)
                  Q.le_max_l Q.le_max_r _ _ c Emx Hc) as (X0 & X1 & X2).
    destruct c as [[c0 c1] c2], mn as [[n0 n1] n2], mx as [[x0 x1] x2],
             off as [[o0 o1] o2]; cbn [fst3 snd3 thd3] in N0, N1, N2, X0, X1, X2.
    assert (R : forall cc nn xx oo, nn <= cc -> cc <= xx ->
              let lo := Qfloor (nn - inject_Z oo) in
              let hi := Qceiling (xx - inject_Z oo + 1) in
              let t := cc - inject_Z (lo + oo) in
              (0 <= Qtrunc t /\ Qtrunc t + 1 <= hi - lo)%Z /\
              (0 <= Qround_even t <= hi - lo)%Z).
    { intros cc nn xx oo Hn Hx lo' hi' t.
      assert (Et : t == (cc - inject_Z oo) - inject_Z lo')
        by (unfold t; rewrite inject_Z_plus; ring).
      pose proof (Qfloor_le (nn - inject_Z oo)).
      pose proof (Qle_ceiling (xx - inject_Z oo + 1)).
      split; [eapply axis_trunc_range | eapply axis_round_range];
        try exact Et; unfold lo', hi'; lra. }
    destruct (R c0 n0 x0 o0 N0 X0) as [T0 R0].
    destruct (R c1 n1 x1 o1 N1 X1) as [T1 R1].
    destruct (R c2 n2 x2 o2 N2 X2) as [T2 R2].
    cbv zeta in T0, T1, T2, R0, R1, R2.
    unfold nearest_index, linear_indices, cut_extent, inside, zip3, map3.
    split; [lia|].
    repeat (apply Forall_cons; [cbv beta iota; lia|]). apply Forall_nil.
Qed.

Lemma resampler_reads_inside_cut_witness :
  Forall (inside (cut_extent (0, 0, 0)%Z (3, 3, 3)%Z))
    (linear_indices (map_src identity eye4 (dest_coord (1, 2, 0)%Z))
                    (map3 inject_Z (0, 0, 0)%Z)).
Proof.
  refine (proj1 (resampler_reads_inside_cut identity eye4 3 3 3
                   (0, 0, 0)%Z (3, 3, 3)%Z eq_refl _) 1%Z 2%Z 0%Z _ _ _);
    [vm_compute; reflexivity | lia | lia | lia].
Defined.

(** *** The coordinates handed to the resamplers of the target *)

Lemma In_range (n i : Z) : In i (range n) <-> (0 <= i < n)%Z.
Proof.
  unfold range; rewrite in_map_iff; split.
  - intros (k & <- & Hk); apply in_seq in Hk; lia.
  - intros H; exists (Z.to_nat i); split; [lia|]. apply in_seq; lia.
Qed.

Lemma In_grid3 (sh ix : Z3) : In ix (grid3 sh) <-> inside sh ix.
Proof.
  destruct sh as [[n0 n1] n2], ix as [[i j] l]; unfold grid3, inside.
  rewrite in_flat_map; split.
  - intros (a & Ha & H); apply in_flat_map in H; destruct H as (b & Hb & H).
    apply in_map_iff in H; destruct H as (c & E & Hc); injection E as <- <- <-.
    now rewrite In_range in Ha, Hb, Hc.
  - intros (Hi & Hj & Hl); exists i; split; [now apply In_range|].
    apply in_flat_map; exists j; split; [now apply In_range|].
    apply in_map, In_range; assumption.
Qed.

(** The coordinate the resamplers get for a voxel of the target patch
    is one of those the bounds of the target were computed from, also
    when the window is broadcast along an axis. *)
Lemma target_coordinate_in_window
  (src_coords_target : Z3 -> Q3) (count target_patch_shape ix : Z3) :
  all3 (fun b : bool => b)
       (zip3 (fun m t => (m =? t)%Z || (m =? 1)%Z) count target_patch_shape) = true ->
  inside target_patch_shape ix ->
  In (src_coords_target (zip3 (fun m i => if (m =? 1)%Z then 0%Z else i) count ix))
     (map src_coords_target (grid3 count)).
Proof.
  intros Hb Hi; apply in_map, In_grid3.
  destruct count as [[m0 m1] m2], target_patch_shape as [[t0 t1] t2], ix as [[i j] l].
  cbv [all3 zip3] in Hb; cbv [zip3 inside] in *.
  rewrite !andb_true_iff, !orb_true_iff, !Z.eqb_eq in Hb.
  destruct (Z.eqb_spec m0 1), (Z.eqb_spec m1 1), (Z.eqb_spec m2 1); lia.
Qed.

(** The sub-cube returned for the bounds [lo], [hi] has the extent
    [hi + 1 - lo]. *)
Lemma slice_h5_shape (src : Dataset) (lo hi : Z3) (cut : Dataset) :
  outcome (slice_h5 src lo (map3 (fun h => (h + 1)%Z) hi)) = ok cut ->
  tl (shape cut) = list3 (cut_extent lo hi).
Proof.
  destruct lo as [[l0 l1] l2], hi as [[h0 h1] h2]; cbn.
  destruct (length (shape src) =? 4)%nat; [|discriminate].
  intros E; injection E as <-; reflexivity.
Qed.

(** * Further properties of the matrix builder *)

(** ** Equality of vectors and matrices up to [==] *)

#[export] Instance veq_Equivalence : Equivalence veq.
Proof.
  split; [exact veq_refl | exact veq_sym | exact veq_trans].
Qed.

Lemma mat_eq_refl (A : matrix) : mat_eq A A.
Proof. induction A; constructor; [apply veq_refl | assumption]. Qed.

Lemma mat_eq_sym (A B : matrix) : mat_eq A B -> mat_eq B A.
Proof. induction 1; constructor; [now apply veq_sym | assumption]. Qed.

Lemma mat_eq_trans (A B C : matrix) : mat_eq A B -> mat_eq B C -> mat_eq A C.
Proof.
  intros H; revert C; induction H as [|x y A B Hxy HAB IH]; intros C HC.
  - exact HC.
  - inversion HC as [|y' z B' C' Hyz HBC]; subst.
    constructor; [now apply veq_trans with y | now apply IH].
Qed.

#[export] Instance mat_eq_Equivalence : Equivalence mat_eq.
Proof.
  split; [exact mat_eq_refl | exact mat_eq_sym | exact mat_eq_trans].
Qed.

Lemma vdot_veq2 (r r' c c' : list Q) :
  veq r r' -> veq c c' -> vdot r c == vdot r' c'.
Proof.
  intros Hr Hc; unfold vdot; apply fold_left_Qplus_veq; [|reflexivity].
  revert c c' Hc; induction Hr as [|x y r r' Hxy Hr IH]; intros c c' Hc.
  - constructor.
  - destruct Hc as [|u v c c' Huv Hc]; simpl; constructor.
    + now rewrite Hxy, Huv.
    + now apply IH.
Qed.

#[export] Instance vdot_Proper : Proper (veq ==> veq ==> Qeq) vdot.
Proof. intros r r' Hr c c' Hc; now apply vdot_veq2. Qed.

Lemma col_mat_eq (j : nat) (B B' : matrix) : mat_eq B B' -> veq (col j B) (col j B').
Proof.
  induction 1 as [|r r' B B' Hr HB IH]; simpl; constructor; [|exact IH].
  apply Forall2_nth; [exact Hr | reflexivity].
Qed.

Lemma ncols_mat_eq (B B' : matrix) : mat_eq B B' -> ncols B = ncols B'.
Proof.
  unfold ncols; destruct 1 as [|r r' B B' Hr HB]; simpl; [reflexivity|].
  now apply Forall2_length in Hr.
Qed.

Lemma mat_vec_veq (A A' : matrix) (v v' : list Q) :
  mat_eq A A' -> veq v v' -> veq (mat_vec A v) (mat_vec A' v').
Proof.
  intros HA Hv; unfold mat_vec.
  induction HA as [|r r' A A' Hr HA IH]; simpl; constructor; [|exact IH].
  now apply vdot_veq2.
Qed.

#[export] Instance mat_vec_Proper : Proper (mat_eq ==> veq ==> veq) mat_vec.
Proof. intros A A' HA v v' Hv; now apply mat_vec_veq. Qed.

Lemma dot_mat_eq (A A' B B' : matrix) :
  mat_eq A A' -> mat_eq B B' -> mat_eq (dot A B) (dot A' B').
Proof.
  intros HA HB; unfold dot; rewrite <- (ncols_mat_eq _ _ HB).
  assert (R : forall js r r', veq r r' ->
              veq (map (fun j => vdot r (col j B)) js)
                  (map (fun j => vdot r' (col j B')) js)).
  { induction js as [|j js IHj]; intros r r' Hr; simpl; constructor.
    - apply vdot_veq2; [exact Hr | now apply col_mat_eq].
    - now apply IHj. }
  induction HA as [|r r' A A' Hr HA IH]; simpl; constructor; [|exact IH].
  now apply R.
Qed.

#[export] Instance dot_Proper : Proper (mat_eq ==> mat_eq ==> mat_eq) dot.
Proof. intros A A' HA B B' HB; now apply dot_mat_eq. Qed.

(** ** 4x4 matrices, entry by entry *)

Lemma mat4_explicit (A : matrix) :
  mat4 A ->
  exists r0 r1 r2 r3,
    A = [r0; r1; r2; r3] /\
    length r0 = 4%nat /\ length r1 = 4%nat /\ length r2 = 4%nat /\ length r3 = 4%nat.
Proof.
  intros [HL HF].
  destruct A as [|r0 [|r1 [|r2 [|r3 [|r4 A]]]]]; try discriminate HL.
  exists r0, r1, r2, r3; split; [reflexivity|].
  repeat match goal with H : Forall _ (_ :: _) |- _ => inversion H; clear H; subst end.
  auto.
Qed.

Lemma row4_explicit (r : list Q) :
  length r = 4%nat -> exists a b c d, r = [a; b; c; d].
Proof.
  destruct r as [|a [|b [|c [|d [|e r]]]]]; try discriminate.
  intros _; now exists a, b, c, d.
Qed.

(** Breaks a matrix known to be 4x4 into its sixteen entries. *)
Ltac break_mat4 H :=
  let r0 := fresh "r" in let r1 := fresh "r" in
  let r2 := fresh "r" in let r3 := fresh "r" in
  let L0 := fresh "L" in let L1 := fresh "L" in
  let L2 := fresh "L" in let L3 := fresh "L" in
  destruct (mat4_explicit _ H) as (r0 & r1 & r2 & r3 & -> & L0 & L1 & L2 & L3);
  destruct (row4_explicit _ L0) as (? & ? & ? & ? & ->);
  destruct (row4_explicit _ L1) as (? & ? & ? & ? & ->);
  destruct (row4_explicit _ L2) as (? & ? & ? & ? & ->);
  destruct (row4_explicit _ L3) as (? & ? & ? & ? & ->);
  clear L0 L1 L2 L3.

Ltac mat4_ring :=
  cbv [dot mat_vec transpose identity eye4 ncols hd length seq map col nth vdot
       combine fold_left fst snd];
  repeat constructor; ring.

Lemma mat4_intro (a00 a01 a02 a03 a10 a11 a12 a13
                  a20 a21 a22 a23 a30 a31 a32 a33 : Q) :
  mat4 [[a00; a01; a02; a03]; [a10; a11; a12; a13];
        [a20; a21; a22; a23]; [a30; a31; a32; a33]].
Proof. split; [reflexivity | repeat constructor]. Qed.

Lemma mat4_dot (A B : matrix) : mat4 A -> mat4 B -> mat4 (dot A B).
Proof.
  intros HA HB; break_mat4 HA; break_mat4 HB.
  split; [reflexivity | repeat constructor].
Qed.

Lemma mat4_identity : mat4 identity.
Proof. apply mat4_intro. Qed.

Lemma mat4_mat_eq (A B : matrix) : mat4 A -> mat_eq A B -> mat4 B.
Proof.
  intros [HL HF] H; split.
  - now rewrite <- (Forall2_length H).
  - clear HL; induction H as [|r r' A B Hr HAB IH]; constructor.
    + inversion HF; subst. now rewrite <- (Forall2_length Hr).
    + apply IH; now inversion HF.
Qed.

Lemma dot_identity_l (A : matrix) : mat4 A -> mat_eq (dot identity A) A.
Proof. intros HA; break_mat4 HA; mat4_ring. Qed.

Lemma dot_identity_r (A : matrix) : mat4 A -> mat_eq (dot A identity) A.
Proof. intros HA; break_mat4 HA; mat4_ring. Qed.

Lemma dot_assoc (A B C : matrix) :
  mat4 A -> mat4 B -> mat4 C -> mat_eq (dot (dot A B) C) (dot A (dot B C)).
Proof. intros HA HB HC; break_mat4 HA; break_mat4 HB; break_mat4 HC; mat4_ring. Qed.

Lemma mat_vec_dot (A B : matrix) (v : list Q) :
  mat4 A -> mat4 B -> length v = 4%nat ->
  veq (mat_vec (dot A B) v) (mat_vec A (mat_vec B v)).
Proof.
  intros HA HB Hv; break_mat4 HA; break_mat4 HB.
  destruct (row4_explicit _ Hv) as (? & ? & ? & ? & ->). mat4_ring.
Qed.

Lemma transpose_dot (A B : matrix) :
  mat4 A -> mat4 B ->
  mat_eq (transpose (dot A B)) (dot (transpose B) (transpose A)).
Proof. intros HA HB; break_mat4 HA; break_mat4 HB; mat4_ring. Qed.

Lemma mat4_transpose (A : matrix) : mat4 A -> mat4 (transpose A).
Proof. intros HA; break_mat4 HA; split; [reflexivity | repeat constructor]. Qed.

Lemma transpose_mat_eq (A B : matrix) : mat_eq A B -> mat_eq (transpose A) (transpose B).
Proof.
  intros H; unfold transpose; rewrite <- (ncols_mat_eq _ _ H).
  induction (seq 0 (ncols A)) as [|j js IH]; simpl; constructor; [|exact IH].
  now apply col_mat_eq.
Qed.

#[export] Instance transpose_Proper : Proper (mat_eq ==> mat_eq) transpose.
Proof. intros A B H; now apply transpose_mat_eq. Qed.

Lemma mat4_chain (l : list matrix) : Forall mat4 l -> mat4 (chain_matrices l).
Proof.
  unfold chain_matrices; generalize mat4_identity; generalize identity.
  induction l as [|A l IH]; intros acc Hacc Hl; simpl; [exact Hacc|].
  inversion Hl; subst. apply IH; [now apply mat4_dot | assumption].
Qed.

(** ** Chains *)

Lemma chain_snoc (l : list matrix) (A : matrix) :
  chain_matrices (l ++ [A]) = dot (chain_matrices l) A.
Proof. unfold chain_matrices; now rewrite fold_left_app. Qed.

(** X1: [chain_matrices] of no matrix is the identity, of one 4x4 matrix
    is that matrix, and the chain of a concatenation of lists of 4x4
    matrices is the product of the chains of the two lists: chaining is
    matrix multiplication from left to right. *)
Theorem chain_matrices_compose (l1 l2 : list matrix) (A : matrix) :
  Forall mat4 l1 -> Forall mat4 l2 -> mat4 A ->
  chain_matrices [] = identity /\
  mat_eq (chain_matrices [A]) A /\
  mat_eq (chain_matrices (l1 ++ l2)) (dot (chain_matrices l1) (chain_matrices l2)).
Proof.
  intros H1 H2 HA; split; [reflexivity|]; split.
  - apply (dot_identity_l A HA).
  - induction l2 as [|B l2 IH] using rev_ind.
    + rewrite app_nil_r. symmetry. apply dot_identity_r, mat4_chain, H1.
    + apply Forall_app in H2; destruct H2 as [H2 HB]; inversion HB; subst.
      rewrite app_assoc, !chain_snoc, (IH H2).
      apply dot_assoc; auto using mat4_chain.
Qed.

Lemma chain_matrices_compose_witness :
  mat_eq (chain_matrices ([translate 1 2 3] ++ [scale 2 1 1; translate 0 0 1]))
         (dot (chain_matrices [translate 1 2 3])
              (chain_matrices [scale 2 1 1; translate 0 0 1])).
Proof.
  apply (chain_matrices_compose [translate 1 2 3] [scale 2 1 1; translate 0 0 1]
           identity);
    repeat constructor.
Defined.

(** ** Translations and scalings *)

(** X2: translations compose by adding their offsets and the
    translation by the opposite offset is the inverse; [scale_inv] is
    the inverse of [scale] on both sides when no factor is zero, and
    raises [ZeroDivisionError] when one is. *)
Theorem translate_scale_compose (a b c a' b' c' : Q) :
  mat_eq (dot (translate a b c) (translate a' b' c'))
         (translate (a + a') (b + b') (c + c')) /\
  mat_eq (dot (translate a b c) (translate (- a) (- b) (- c))) identity /\
  (~ a == 0 -> ~ b == 0 -> ~ c == 0 ->
   exists Si, scale_inv a b c = ok Si /\
              mat_eq (dot (scale a b c) Si) identity /\
              mat_eq (dot Si (scale a b c)) identity) /\
  (a == 0 \/ b == 0 \/ c == 0 -> scale_inv a b c = raise ZeroDivisionError).
Proof.
  split; [unfold translate; mat4_ring|].
  split; [unfold translate; mat4_ring|].
  unfold scale_inv; split.
  - intros Ha Hb Hc.
    destruct (Qeq_bool a 0) eqn:Ea; [apply Qeq_bool_iff in Ea; now elim Ha|].
    destruct (Qeq_bool b 0) eqn:Eb; [apply Qeq_bool_iff in Eb; now elim Hb|].
    destruct (Qeq_bool c 0) eqn:Ec; [apply Qeq_bool_iff in Ec; now elim Hc|].
    eexists; split; [reflexivity|].
    split; unfold scale;
      cbv [dot identity eye4 ncols hd length seq map col nth vdot
           combine fold_left fst snd];
      repeat constructor; field; assumption.
  - rewrite <- !Qeq_bool_iff.
    intros [H | [H | H]]; rewrite H, ?orb_true_r, ?orb_true_l; reflexivity.
Qed.

Lemma translate_scale_compose_witness :
  exists Si, scale_inv 2 1 1 = ok Si /\
             mat_eq (dot (scale 2 1 1) Si) identity /\
             mat_eq (dot Si (scale 2 1 1)) identity.
Proof.
  apply (proj1 (proj2 (proj2 (translate_scale_compose 2 1 1 0 0 0))));
    discriminate.
Defined.

(** ** The random flip *)

Lemma rs_binomial_half_spec (n : nat) (s : RandomState) :
  length (fst (rs_binomial_half n s)) = n /\
  Forall (fun b => b = 0%Z \/ b = 1%Z) (fst (rs_binomial_half n s)) /\
  snd (rs_binomial_half n s) = skipn n s.
Proof.
  revert s; induction n as [|n IH]; intros s; cbn [rs_binomial_half].
  - repeat split; constructor.
  - destruct (next_word s) as [w s'] eqn:E.
    specialize (IH s'); destruct (rs_binomial_half n s') as [l s'']; cbn [fst snd] in *.
    destruct IH as (IL & IF & IS).
    repeat split.
    + cbn; now rewrite IL.
    + constructor; [|exact IF].
      pose proof (Z.mod_pos_bound w 2); lia.
    + rewrite IS. destruct s as [|w0 s0]; cbn in E; injection E as <- <-.
      * now destruct n.
      * reflexivity.
Qed.

Lemma get_random_flipmat_cases (no_x_flip : bool) (rng : RandomState) :
  exists f0 f1 f2 : Z,
    (f0 = 1 \/ f0 = -1)%Z /\ (f1 = 1 \/ f1 = -1)%Z /\ (f2 = 1 \/ f2 = -1)%Z /\
    (no_x_flip = true -> f2 = 1%Z) /\
    get_random_flipmat no_x_flip rng =
    (scale (inject_Z f0) (inject_Z f1) (inject_Z f2), skipn 4 rng).
Proof.
  unfold get_random_flipmat.
  destruct (rs_binomial_half_spec 4 rng) as (HL & HF & HS).
  destruct (rs_binomial_half 4 rng) as [l rng']; cbn [fst snd] in *.
  destruct l as [|b0 [|b1 [|b2 [|b3 [|b4 l]]]]]; try discriminate HL.
  repeat match goal with H : Forall _ (_ :: _) |- _ => inversion H; clear H; subst end.
  cbn [map nth fst].
  exists (b0 * 2 - 1)%Z, (b1 * 2 - 1)%Z,
         (if no_x_flip then 1%Z else (b2 * 2 - 1)%Z).
  split; [lia|]. split; [lia|]. split; [destruct no_x_flip; lia|].
  split; [now intros ->|].
  now destruct no_x_flip.
Qed.

Lemma sign_square (f : Z) : (f = 1 \/ f = -1)%Z -> inject_Z f * inject_Z f == 1.
Proof. intros [-> | ->]; reflexivity. Qed.

(** X3: for every state of the generator [get_random_flipmat] returns a
    diagonal matrix whose three spatial entries are 1 or -1 and whose
    homogeneous entry is 1; the third entry is 1 under [no_x_flip]; the
    matrix is its own inverse; and four words of the generator are
    consumed. *)
Theorem get_random_flipmat_spec (no_x_flip : bool) (rng : RandomState) :
  exists f0 f1 f2 : Z,
    (f0 = 1 \/ f0 = -1)%Z /\ (f1 = 1 \/ f1 = -1)%Z /\ (f2 = 1 \/ f2 = -1)%Z /\
    (no_x_flip = true -> f2 = 1%Z) /\
    get_random_flipmat no_x_flip rng =
    ([[inject_Z f0; 0; 0; 0];
      [0; inject_Z f1; 0; 0];
      [0; 0; inject_Z f2; 0];
      [0; 0; 0; 1]], skipn 4 rng) /\
    mat_eq (dot (fst (get_random_flipmat no_x_flip rng))
                (fst (get_random_flipmat no_x_flip rng))) identity.
Proof.
  destruct (get_random_flipmat_cases no_x_flip rng)
    as (f0 & f1 & f2 & H0 & H1 & H2 & Hx & E).
  exists f0, f1, f2; rewrite E; cbn [fst].
  repeat (split; [assumption|]).
  split; [reflexivity|].
  pose proof (sign_square f0 H0) as S0.
  pose proof (sign_square f1 H1) as S1.
  pose proof (sign_square f2 H2) as S2.
  cbv [scale dot identity eye4 ncols hd length seq map col nth vdot
       combine fold_left fst snd];
    repeat first [apply Forall2_nil | apply Forall2_cons]; try ring;
    ring_simplify; (rewrite S0 || rewrite S1 || rewrite S2); reflexivity.
Qed.

Lemma get_random_flipmat_spec_witness :
  exists f0 f1 : Z,
    get_random_flipmat true [1; 0; 1; 1]%Z =
    ([[inject_Z f0; 0; 0; 0];
      [0; inject_Z f1; 0; 0];
      [0; 0; inject_Z 1; 0];
      [0; 0; 0; 1]], []).
Proof.
  destruct (get_random_flipmat_spec true [1; 0; 1; 1]%Z)
    as (f0 & f1 & f2 & _ & _ & _ & Hx & E & _).
  exists f0, f1. rewrite (Hx eq_refl) in E. exact E.
Defined.

(** ** The random axis swap *)

(** X4: [get_random_swapmat] never fails and consumes one word; the
    matrix it returns is a permutation matrix: its transpose is its
    inverse, the homogeneous axis is kept, and under [lock_z] the depth
    axis is kept as well. *)
Theorem get_random_swapmat_spec (lock_z : bool) (rng : RandomState) :
  exists Sm,
    get_random_swapmat lock_z rng = ok (Sm, skipn 1 rng) /\
    orthogonal Sm /\
    row3 Sm = [0; 0; 0; 1] /\ col 3 Sm = [0; 0; 0; 1] /\
    (lock_z = true -> nth 0 Sm [] = [1; 0; 0; 0] /\ col 0 Sm = [1; 0; 0; 0]).
Proof.
  destruct (get_random_swapmat lock_z rng) as [e|[Sm rng']] eqn:E.
  { rewrite get_random_swapmat_ok in E; discriminate. }
  destruct (get_random_swapmat_in _ _ _ _ E) as [Hin ->].
  exists Sm; split.
  { f_equal; f_equal. now destruct rng. }
  clear E; destruct lock_z.
  - rewrite swap_candidates_lock_z in Hin; cbn [In] in Hin.
    destruct Hin as [<- | [<- | []]];
      (split; [unfold orthogonal; mat4_ring|]); repeat split; reflexivity.
  - rewrite swap_candidates_free in Hin; cbn [In] in Hin.
    destruct Hin as [<- | [<- | [<- | [<- | [<- | [<- | []]]]]]];
      (split; [unfold orthogonal; mat4_ring|]); repeat split;
      try reflexivity; discriminate.
Qed.

Lemma get_random_swapmat_spec_witness :
  exists Sm,
    get_random_swapmat true [5]%Z = ok (Sm, []) /\
    nth 0 Sm [] = [1; 0; 0; 0] /\ col 0 Sm = [1; 0; 0; 0].
Proof.
  destruct (get_random_swapmat_spec true [5]%Z) as (Sm & E & _ & _ & _ & Hz).
  exists Sm; split; [exact E | exact (Hz eq_refl)].
Defined.

(** ** The random warp *)

Lemma rs_rand_range (s : RandomState) : 0 <= fst (rs_rand s) /\ fst (rs_rand s) < 1.
Proof.
  unfold rs_rand; destruct (next_word s) as [w s']; cbn [fst].
  pose proof (Z.mod_pos_bound w (2 ^ 32) ltac:(lia)) as [H0 H1].
  rewrite Zle_Qle in H0; rewrite Zlt_Qlt in H1.
  assert (P : 0 < inject_Z (2 ^ 32)) by reflexivity.
  split.
  - apply Qle_shift_div_l; [exact P|]. now rewrite Qmult_0_l.
  - apply Qlt_shift_div_r; [exact P|]. now rewrite Qmult_1_l.
Qed.

Lemma rs_rand_state (s : RandomState) : snd (rs_rand s) = skipn 1 s.
Proof. unfold rs_rand; now destruct s. Qed.

Lemma rs_uniform_spec (low high : Q) (n : nat) (s : RandomState) :
  length (fst (rs_uniform low high n s)) = n /\
  Forall (fun x => exists u, 0 <= u /\ u < 1 /\ x = low + (high - low) * u)
         (fst (rs_uniform low high n s)) /\
  snd (rs_uniform low high n s) = skipn n s.
Proof.
  revert s; induction n as [|n IH]; intros s; cbn [rs_uniform].
  - repeat split; constructor.
  - pose proof (rs_rand_range s) as [R0 R1]. pose proof (rs_rand_state s) as RS.
    destruct (rs_rand s) as [u s']; cbn [fst snd] in *.
    specialize (IH s'); destruct (rs_uniform low high n s') as [l s''].
    cbn [fst snd] in *; destruct IH as (IL & IF & IS).
    repeat split.
    + cbn; now rewrite IL.
    + constructor; [now exists u | exact IF].
    + rewrite IS, RS. destruct s; [now destruct n | reflexivity].
Qed.

Lemma clip_bounds (x lo hi : Q) : lo <= hi -> lo <= Qmin (Qmax x lo) hi <= hi.
Proof.
  intros H; split.
  - apply Q.min_glb; [apply Q.le_max_r | exact H].
  - apply Q.le_min_r.
Qed.

Lemma uniform_within (a u : Q) :
  0 <= a -> 0 <= u -> u < 1 -> - a <= - a + (a - - a) * u <= a.
Proof. intros; split; nra. Qed.

(** The shape of the warp matrix: the identity plus twelve perturbations
    in the upper rows and three perspective coefficients in the bottom
    row. *)
Lemma get_random_warpmat_form
  (lock_z perspective : bool) (amount : Q) (rng ambient : RandomState) :
  exists p00 p01 p02 p03 p10 p11 p12 p13 p20 p21 p22 p23 q0 q1 q2 : Q,
    get_random_warpmat lock_z perspective amount rng ambient =
    ([[1 + p00; 0 + p01; 0 + p02; 0 + p03];
      [0 + p10; 1 + p11; 0 + p12; 0 + p13];
      [0 + p20; 0 + p21; 1 + p22; 0 + p23];
      [0 + q0; 0 + q1; 0 + q2; 1 + 0]], skipn 16 ambient) /\
    (lock_z = true ->
     Forall (fun x => x == 0) [p00; p01; p02; p03; p10; p20; q0]) /\
    (perspective = false -> Forall (fun x => x == 0) [q0; q1; q2]) /\
    Forall (fun x => - (3 # 1000) <= x <= 3 # 1000) [q0; q1; q2] /\
    (0 <= amount ->
     Forall (fun x => - (amount * (1 # 10)) <= x <= amount * (1 # 10))
            [p00; p01; p02; p03; p10; p11; p12; p13; p20; p21; p22; p23]).
Proof.
  unfold get_random_warpmat.
  destruct (rs_uniform_spec (- (amount * (1 # 10))) (amount * (1 # 10)) 16 ambient)
    as (HL & HF & HS).
  destruct (rs_uniform _ _ 16 ambient) as [l amb']; cbn [fst snd] in *.
  do 17 (destruct l as [|? l]; try discriminate HL).
  repeat match goal with H : Forall _ (_ :: _) |- _ => inversion H; clear H; subst end.
  repeat match goal with H : exists u, _ |- _ =>
    let u := fresh "u" in let U0 := fresh "U" in let U1 := fresh "U" in
    destruct H as (u & U0 & U1 & ->) end.
  set (a := amount * (1 # 10)) in *.
  assert (C : forall x, - (3 # 1000) <= Qmin (Qmax x (- (3 # 1000))) (3 # 1000) <= 3 # 1000)
    by (intros; now apply clip_bounds).
  destruct lock_z, perspective;
    cbv [reshape44 firstn skipn mapij map combine seq length fst snd
         Nat.eqb Nat.ltb Nat.leb andb orb negb mat_add eye4];
    do 15 eexists;
    (split; [reflexivity|]);
    (split; [intros Hz; first [discriminate Hz
                              | repeat (apply Forall_cons; [reflexivity|]); apply Forall_nil]|]);
    (split; [intros Hp; first [discriminate Hp
                              | repeat (apply Forall_cons; [reflexivity|]); apply Forall_nil]|]);
    (split; [repeat (apply Forall_cons;
                     [first [apply C | split; discriminate]|]); apply Forall_nil|]);
    intros Ha; assert (Ha' : 0 <= a) by (unfold a; lra);
    repeat (apply Forall_cons;
            [first [apply uniform_within; assumption | split; lra]|]);
    apply Forall_nil.
Qed.

(** X5: for every state of the ambient generator the matrix of
    [get_random_warpmat] is 4x4 with homogeneous diagonal entry 1; the
    perspective coefficients (bottom row, first three entries) lie in
    [-0.003, 0.003] and are zero when [perspective] is off; under
    [lock_z] the first row and the first column are those of the
    identity; for a non-negative amount every entry of the upper three
    rows differs from the identity by at most a tenth of the amount; and
    sixteen words of the ambient generator are consumed, none of the
    passed one. *)
Theorem get_random_warpmat_spec
  (lock_z perspective : bool) (amount : Q) (rng ambient : RandomState) :
  let Wm := fst (get_random_warpmat lock_z perspective amount rng ambient) in
  mat4 Wm /\
  snd (get_random_warpmat lock_z perspective amount rng ambient) = skipn 16 ambient /\
  entry Wm 3 3 == 1 /\
  (forall j, (j < 3)%nat -> - (3 # 1000) <= entry Wm 3 j <= 3 # 1000) /\
  (perspective = false -> forall j, (j < 3)%nat -> entry Wm 3 j == 0) /\
  (lock_z = true ->
   entry Wm 0 0 == 1 /\
   forall j, (1 <= j < 4)%nat -> entry Wm 0 j == 0 /\ entry Wm j 0 == 0) /\
  (0 <= amount ->
   forall i j, (i < 3)%nat -> (j < 4)%nat ->
     - (amount * (1 # 10)) <= entry Wm i j - entry eye4 i j <= amount * (1 # 10)).
Proof.
  destruct (get_random_warpmat_form lock_z perspective amount rng ambient)
    as (p00 & p01 & p02 & p03 & p10 & p11 & p12 & p13 & p20 & p21 & p22 & p23
        & q0 & q1 & q2 & -> & Hz & Hp & Hq & Ha).
  cbn [fst snd].
  refine (conj _ (conj _ (conj _ (conj _ (conj _ (conj _ _)))))).
  - apply mat4_intro.
  - reflexivity.
  - cbv [entry nth]; ring.
  - repeat match goal with H : Forall _ (_ :: _) |- _ => inversion H; clear H; subst end.
    intros [|[|[|j]]] Hj; try lia; cbv [entry nth];
      match goal with
      | |- _ <= 0 + ?t <= _ => setoid_replace (0 + t) with t by ring
      end; assumption.
  - intros E; specialize (Hp E).
    repeat match goal with H : Forall _ (_ :: _) |- _ => inversion H; clear H; subst end.
    intros [|[|[|j]]] Hj; try lia; cbv [entry nth];
      match goal with
      | |- 0 + ?t == 0 => setoid_replace (0 + t) with t by ring
      end; assumption.
  - intros E; specialize (Hz E); clear Hp Hq Ha.
    repeat match goal with H : Forall _ (_ :: _) |- _ => inversion H; clear H; subst end.
    split.
    + cbv [entry nth].
      match goal with H : p00 == 0 |- _ => rewrite H end; ring.
    + intros [|[|[|[|j]]]] Hj; try lia; cbv [entry nth];
        (split; match goal with
                | |- 0 + ?t == 0 => setoid_replace (0 + t) with t by ring
                end; assumption).
  - intros E; specialize (Ha E); clear Hp Hq Hz.
    repeat match goal with H : Forall _ (_ :: _) |- _ => inversion H; clear H; subst end.
    intros [|[|[|i]]] [|[|[|[|j]]]] Hi Hj; try lia; cbv [entry nth eye4];
      match goal with
      | |- _ <= ?d + ?t - ?d <= _ => setoid_replace (d + t - d) with t by ring
      end; assumption.
Qed.

Lemma get_random_warpmat_spec_witness :
  let Wm := fst (get_random_warpmat true false 1 [] [7; 8; 9]%Z) in
  entry Wm 3 0 == 0 /\ entry Wm 0 0 == 1 /\
  - (1 * (1 # 10)) <= entry Wm 1 2 - entry eye4 1 2 <= 1 * (1 # 10).
Proof.
  destruct (get_random_warpmat_spec true false 1 [] [7; 8; 9]%Z)
    as (_ & _ & _ & _ & Hp & Hz & Ha).
  split; [apply Hp; [reflexivity | lia]|].
  split; [apply Hz; reflexivity|].
  apply Ha; [discriminate | lia | lia].
Defined.

(** ** Determinants and inverses *)

Lemma det_dot (A B : matrix) : mat4 A -> mat4 B -> det 4 (dot A B) == det 4 A * det 4 B.
Proof.
  intros HA HB; break_mat4 HA; break_mat4 HB.
  cbv [det dot ncols hd length seq map col nth vdot combine fold_left fst snd
       drop_nth firstn skipn app alt_sign Nat.even].
  ring.
Qed.

Lemma det_identity : det 4 identity == 1.
Proof. reflexivity. Qed.

Lemma det_mat_eq (A B : matrix) : mat4 A -> mat_eq A B -> det 4 A == det 4 B.
Proof.
  intros HA E; pose proof (mat4_mat_eq _ _ HA E) as HB.
  break_mat4 HA; break_mat4 HB.
  repeat match goal with H : mat_eq _ _ |- _ => inversion H; clear H; subst end.
  repeat match goal with H : Forall2 _ _ _ |- _ => inversion H; clear H; subst end.
  cbv [det seq map fold_left nth drop_nth firstn skipn app alt_sign Nat.even].
  repeat match goal with H : _ == _ |- _ => rewrite H; clear H end.
  reflexivity.
Qed.

Lemma div_sum4_r (a b c e c1 c2 c3 c4 d t : Q) :
  ~ d == 0 -> a * c1 + b * c2 + c * c3 + e * c4 == t * d ->
  0 + a * (c1 / d) + b * (c2 / d) + c * (c3 / d) + e * (c4 / d) == t.
Proof.
  intros Hd H.
  setoid_replace (0 + a * (c1 / d) + b * (c2 / d) + c * (c3 / d) + e * (c4 / d))
    with ((a * c1 + b * c2 + c * c3 + e * c4) / d) by (field; exact Hd).
  rewrite H; field; exact Hd.
Qed.

Lemma div_sum4_l (a b c e c1 c2 c3 c4 d t : Q) :
  ~ d == 0 -> c1 * a + c2 * b + c3 * c + c4 * e == t * d ->
  0 + c1 / d * a + c2 / d * b + c3 / d * c + c4 / d * e == t.
Proof.
  intros Hd H.
  setoid_replace (0 + c1 / d * a + c2 / d * b + c3 / d * c + c4 / d * e)
    with ((c1 * a + c2 * b + c3 * c + c4 * e) / d) by (field; exact Hd).
  rewrite H; field; exact Hd.
Qed.

Lemma inv_ok (M : matrix) :
  mat4 M -> ~ det 4 M == 0 ->
  exists Mi, inv M = ok Mi /\ mat4 Mi /\
             mat_eq (dot M Mi) identity /\ mat_eq (dot Mi M) identity.
Proof.
  intros HM Hd; unfold inv.
  destruct (Qeq_bool (det 4 M) 0) eqn:E; [apply Qeq_bool_iff in E; now elim Hd|].
  clear E; eexists; split; [reflexivity|].
  set (d := det 4 M) in *.
  break_mat4 HM.
  cbv [seq map cofactor Nat.add pred].
  split; [apply mat4_intro|].
  split.
  - cbv [dot identity eye4 ncols hd length seq map col nth vdot combine fold_left fst snd].
    repeat first [apply Forall2_nil | apply Forall2_cons];
      (apply div_sum4_r;
       [ exact Hd
       | unfold d;
         cbv [det seq map fold_left nth drop_nth firstn skipn app alt_sign Nat.even];
         ring ]).
  - cbv [dot identity eye4 ncols hd length seq map col nth vdot combine fold_left fst snd].
    repeat first [apply Forall2_nil | apply Forall2_cons];
      (apply div_sum4_l;
       [ exact Hd
       | unfold d;
         cbv [det seq map fold_left nth drop_nth firstn skipn app alt_sign Nat.even];
         ring ]).
Qed.

Lemma inv_singular (M : matrix) : det 4 M == 0 -> inv M = raise LinAlgError.
Proof.
  intros H; unfold inv. apply Qeq_bool_iff in H. now rewrite H.
Qed.

(** ** The random rotation *)

Lemma orthogonal_dot (A B : matrix) :
  mat4 A -> mat4 B -> orthogonal A -> orthogonal B -> orthogonal (dot A B).
Proof.
  unfold orthogonal; intros HA HB OA OB.
  rewrite (transpose_dot A B HA HB).
  rewrite (dot_assoc A B (dot (transpose B) (transpose A))) by
    (auto using mat4_dot, mat4_transpose).
  rewrite <- (dot_assoc B (transpose B) (transpose A)) by
    (auto using mat4_dot, mat4_transpose).
  rewrite OB.
  rewrite (dot_identity_l (transpose A)) by auto using mat4_transpose.
  exact OA.
Qed.

Lemma orthogonal_identity : orthogonal identity.
Proof. unfold orthogonal; mat4_ring. Qed.

Section Rotations.

Variables (cos sin arcsin : Q -> Q) (pi : Q).
Hypothesis pythagoras : forall a, cos a * cos a + sin a * sin a == 1.

Lemma mat4_rotate_z (a : Q) : mat4 (rotate_z cos sin a).
Proof. apply mat4_intro. Qed.

Lemma mat4_rotate_y (a : Q) : mat4 (rotate_y cos sin a).
Proof. apply mat4_intro. Qed.

Lemma mat4_rotate_x (a : Q) : mat4 (rotate_x cos sin a).
Proof. apply mat4_intro. Qed.

Ltac rot_entries a :=
  cbv [orthogonal dot transpose identity eye4 ncols hd length seq map col nth vdot
       combine fold_left fst snd];
  repeat constructor;
  first [ring | rewrite <- (pythagoras a); ring].

Lemma orthogonal_rotate_z (a : Q) : orthogonal (rotate_z cos sin a).
Proof. unfold rotate_z; rot_entries a. Qed.

Lemma orthogonal_rotate_y (a : Q) : orthogonal (rotate_y cos sin a).
Proof. unfold rotate_y; rot_entries a. Qed.

Lemma orthogonal_rotate_x (a : Q) : orthogonal (rotate_x cos sin a).
Proof. unfold rotate_x; rot_entries a. Qed.

Lemma det_rotate_z (a : Q) : det 4 (rotate_z cos sin a) == 1.
Proof.
  unfold rotate_z.
  cbv [det seq map fold_left nth drop_nth firstn skipn app alt_sign Nat.even].
  transitivity (cos a * cos a + sin a * sin a); [ring | apply pythagoras].
Qed.

Lemma det_rotate_y (a : Q) : det 4 (rotate_y cos sin a) == 1.
Proof.
  unfold rotate_y.
  cbv [det seq map fold_left nth drop_nth firstn skipn app alt_sign Nat.even].
  transitivity (cos a * cos a + sin a * sin a); [ring | apply pythagoras].
Qed.

Lemma det_rotate_x (a : Q) : det 4 (rotate_x cos sin a) == 1.
Proof.
  unfold rotate_x.
  cbv [det seq map fold_left nth drop_nth firstn skipn app alt_sign Nat.even].
  transitivity (cos a * cos a + sin a * sin a); [ring | apply pythagoras].
Qed.

Lemma get_random_rotmat_cases (lock_z : bool) (amount : Q) (rng : RandomState) :
  exists g p t,
    get_random_rotmat cos sin arcsin pi lock_z amount rng =
    if lock_z then (rotate_z cos sin g, skipn 1 rng)
    else (chain_matrices [rotate_z cos sin g; rotate_y cos sin t; rotate_z cos sin p],
          skipn 3 rng).
Proof.
  unfold get_random_rotmat.
  pose proof (rs_rand_state rng) as S1.
  destruct (rs_rand rng) as [u1 r1]; cbn [snd] in S1; subst r1.
  destruct lock_z; [now eexists _, 0, 0|].
  pose proof (rs_rand_state (skipn 1 rng)) as S2.
  destruct (rs_rand (skipn 1 rng)) as [u2 r2]; cbn [snd] in S2; subst r2.
  pose proof (rs_rand_state (skipn 1 (skipn 1 rng))) as S3.
  destruct (rs_rand (skipn 1 (skipn 1 rng))) as [u3 r3]; cbn [snd] in S3; subst r3.
  rewrite !skipn_skipn; cbn [Nat.add].
  now eexists _, _, _.
Qed.

End Rotations.

Lemma rational_circle (t : Q) :
  cos_rational t * cos_rational t + sin_rational t * sin_rational t == 1.
Proof.
  unfold cos_rational, sin_rational; field.
  intros H; nra.
Qed.

(** X6: when the functions standing for [np.cos] and [np.sin] satisfy
    [cos^2 + sin^2 = 1], the matrix of [get_random_rotmat] is a proper
    rotation for every generator state, amount and [lock_z]: 4x4,
    orthogonal, of determinant 1, with the homogeneous row and column of
    the identity; under [lock_z] the depth row and the depth column are
    those of the identity too.  One word of the generator is consumed
    under [lock_z], three otherwise. *)
Theorem get_random_rotmat_is_rotation
  (cos sin arcsin : Q -> Q) (pi : Q)
  (lock_z : bool) (amount : Q) (rng : RandomState) :
  (forall a, cos a * cos a + sin a * sin a == 1) ->
  let Rm := fst (get_random_rotmat cos sin arcsin pi lock_z amount rng) in
  mat4 Rm /\ orthogonal Rm /\ det 4 Rm == 1 /\
  veq (row3 Rm) [0; 0; 0; 1] /\ veq (col 3 Rm) [0; 0; 0; 1] /\
  (lock_z = true -> nth 0 Rm [] = [1; 0; 0; 0] /\ col 0 Rm = [1; 0; 0; 0]) /\
  snd (get_random_rotmat cos sin arcsin pi lock_z amount rng) =
  skipn (if lock_z then 1 else 3) rng.
Proof.
  intros P.
  destruct (get_random_rotmat_cases cos sin arcsin pi lock_z amount rng)
    as (g & p & t & ->).
  destruct lock_z; cbn [fst snd].
  - split; [apply mat4_rotate_z|].
    split; [now apply orthogonal_rotate_z|].
    split; [now apply det_rotate_z|].
    repeat split; repeat constructor; reflexivity.
  - unfold chain_matrices; cbn [fold_left].
    pose proof (mat4_rotate_z cos sin g) as Mg.
    pose proof (mat4_rotate_y cos sin t) as Mt.
    pose proof (mat4_rotate_z cos sin p) as Mp.
    pose proof (orthogonal_rotate_z cos sin P g) as Og.
    pose proof (orthogonal_rotate_y cos sin P t) as Ot.
    pose proof (orthogonal_rotate_z cos sin P p) as Op.
    pose proof mat4_identity as MI.
    split; [auto using mat4_dot|].
    split; [auto 10 using orthogonal_dot, mat4_dot, orthogonal_identity|].
    split.
    { rewrite !det_dot by auto using mat4_dot.
      rewrite det_identity, !det_rotate_z, det_rotate_y by exact P.
      reflexivity. }
    split; [|split; [|split; [discriminate | reflexivity]]].
    + cbv [row3 rotate_z rotate_y dot identity eye4 ncols hd length seq map col nth
           vdot combine fold_left fst snd].
      repeat first [apply Forall2_nil | apply Forall2_cons]; ring.
    + cbv [rotate_z rotate_y dot identity eye4 ncols hd length seq map col nth
           vdot combine fold_left fst snd].
      repeat first [apply Forall2_nil | apply Forall2_cons]; ring.
Qed.

Lemma get_random_rotmat_is_rotation_witness :
  let Rm := fst (get_random_rotmat cos_rational sin_rational arcsin_series pi_approx
                   false 1 [3; 1; 4]%Z) in
  orthogonal Rm /\ det 4 Rm == 1.
Proof.
  pose proof (get_random_rotmat_is_rotation cos_rational sin_rational arcsin_series
                pi_approx false 1 [3; 1; 4]%Z rational_circle) as H.
  cbv zeta in H |- *.
  split; [exact (proj1 (proj2 H)) | exact (proj1 (proj2 (proj2 H)))].
Defined.

(** ** The anatomy of a successful sampler run *)

Section SamplerShape.

Variables (cos sin arcsin : Q -> Q) (pi : Q).

Lemma transform_factors_inv
  (inp_src_shape : list Z) (p0 p1 p2 : Z) (aniso_factor : Z)
  (sample_aniso : bool) (warp_amount : Q) (lock_z no_x_flip perspective : bool)
  (tss : option (list Z)) (tps : option Z3) (rng ambient : RandomState)
  (f : sampled factors) :
  transform_factors cos sin arcsin pi inp_src_shape (p0, p1, p2) aniso_factor
    sample_aniso warp_amount lock_z no_x_flip perspective tss tps rng ambient = ok f ->
  exists tss' tps' inp3 tgt3 lo0 lo1 lo2 hi0 hi1 hi2 iz iy ix r2 r3 r4,
    tss = Some tss' /\ tps = Some tps' /\
    bcast3 (last3 inp_src_shape) = ok inp3 /\
    bcast3 (last3 tss') = ok tgt3 /\
    center_bounds (p0, p1, p2) tps' inp3 tgt3 = ((lo0, lo1, lo2), (hi0, hi1, hi2)) /\
    (lo0 < hi0 /\ lo1 < hi1 /\ lo2 < hi2) /\
    ((Qtrunc lo0 <= iz < Qtrunc hi0)%Z /\
     (Qtrunc lo1 <= iy < Qtrunc hi1)%Z /\
     (Qtrunc lo2 <= ix < Qtrunc hi2)%Z) /\
    f_T_src (value f) =
      translate (- (inject_Z iz + inject_Z (p0 mod 2) / 2))
                (- (inject_Z iy + inject_Z (p1 mod 2) / 2))
                (- (inject_Z ix + inject_Z (p2 mod 2) / 2)) /\
    f_S_src (value f) = scale (inject_Z aniso_factor) 1 1 /\
    get_random_flipmat no_x_flip r2 = (f_F (value f), r3) /\
    (if no_x_flip then f_S (value f) = eye4
     else In (f_S (value f)) (swap_candidates lock_z)) /\
    (if isclose0 warp_amount
     then f_R (value f) = eye4 /\ f_W (value f) = eye4
     else f_R (value f) = fst (get_random_rotmat cos sin arcsin pi lock_z warp_amount r4) /\
          f_W (value f) =
            fst (get_random_warpmat lock_z perspective warp_amount
                   (snd (get_random_rotmat cos sin arcsin pi lock_z warp_amount r4))
                   ambient)) /\
    (if sample_aniso
     then aniso_factor <> 0%Z /\ f_S_dest (value f) = scale (1 / inject_Z aniso_factor) 1 1
     else f_S_dest (value f) = identity) /\
    f_T_dest (value f) = translate (inject_Z p0 / 2) (inject_Z p1 / 2) (inject_Z p2 / 2).
Proof.
  unfold transform_factors.
  destruct tss as [tss|]; [|discriminate]; cbn [rbind ok].
  destruct tps as [tps|]; [|discriminate]; cbn [rbind ok].
  destruct (bcast3 (last3 inp_src_shape)) as [|inp3] eqn:EI; [discriminate|]; cbn [rbind].
  destruct (bcast3 (last3 tss)) as [|tgt3] eqn:ET; [discriminate|]; cbn [rbind].
  destruct (center_bounds (p0, p1, p2) tps inp3 tgt3)
    as [[[lo0 lo1] lo2] [[hi0 hi1] hi2]] eqn:EC.
  destruct (negb _) eqn:EA; [discriminate|].
  cbn [map3].
  destruct (rs_randint lo0 hi0 rng) as [|[iz r0]] eqn:E0; [discriminate|]; cbn [rbind].
  destruct (rs_randint lo1 hi1 r0) as [|[iy r1]] eqn:E1; [discriminate|]; cbn [rbind].
  destruct (rs_randint lo2 hi2 r1) as [|[ix r2]] eqn:E2; [discriminate|]; cbn [rbind].
  destruct (get_random_flipmat no_x_flip r2) as [Fm r3] eqn:EF.
  destruct (if no_x_flip then ok (eye4, r3) else get_random_swapmat lock_z r3)
    as [|[Sm r4]] eqn:ES; [discriminate|]; cbn [rbind].
  destruct (if isclose0 warp_amount then _ else _) as [[[Rm Wm] r5] a5] eqn:ER.
  destruct (if sample_aniso then _ else _) as [|Sd] eqn:ED; [discriminate|]; cbn [rbind].
  intros E; unfold ok in E; assert (E' : f = mkSampled
     (mkFactors (translate (inject_Z p0 / 2) (inject_Z p1 / 2) (inject_Z p2 / 2))
        Sd Rm Wm Fm Sm (scale (inject_Z aniso_factor) 1 1)
        (translate (- (inject_Z iz + inject_Z (p0 mod 2) / 2))
                   (- (inject_Z iy + inject_Z (p1 mod 2) / 2))
                   (- (inject_Z ix + inject_Z (p2 mod 2) / 2)))) r5 a5)
    by congruence.
  subst f; clear E.
  cbn [value f_T_dest f_S_dest f_R f_W f_F f_S f_S_src f_T_src].
  exists tss, tps, inp3, tgt3, lo0, lo1, lo2, hi0, hi1, hi2, iz, iy, ix, r2, r3, r4.
  do 2 (split; [reflexivity|]).
  split; [reflexivity|]. split; [exact ET|]. split; [exact EC|].
  split.
  { apply negb_false_iff in EA; cbv [all3 zip3 Qlt_bool] in EA.
    rewrite !andb_true_iff, !negb_true_iff in EA.
    destruct EA as [[A0 A1] A2].
    repeat split; apply Qnot_le_lt; intros H; apply Qle_bool_iff in H; congruence. }
  split.
  { apply rs_randint_range in E0, E1, E2. auto. }
  do 2 (split; [reflexivity|]).
  split; [exact EF|].
  split.
  { destruct no_x_flip.
    - unfold ok in ES; congruence.
    - now apply get_random_swapmat_in in ES. }
  split.
  { destruct (isclose0 warp_amount).
    - split; congruence.
    - destruct (get_random_rotmat _ _ _ _ _ _ r4) as [Rm' r5']; cbn [fst snd].
      destruct (get_random_warpmat _ _ _ r5' ambient) as [Wm' a5']; cbn [fst].
      split; congruence. }
  split; [|reflexivity].
  destruct sample_aniso.
  - destruct (Z.eqb_spec aniso_factor 0); [discriminate|].
    split; [assumption | unfold ok in ED; congruence].
  - unfold ok in ED; congruence.
Qed.

End SamplerShape.

(** ** Where the sampler puts the patch centre *)

Lemma Qfloor_half (m : Z) : Qfloor (inject_Z m / 2) = (m / 2)%Z.
Proof.
  rewrite <- (Qfloor_comp (m # 2)).
  - reflexivity.
  - unfold Qeq; cbn. rewrite Z.mul_1_r. reflexivity.
Qed.

Lemma half_split (p : Z) :
  inject_Z (p / 2) + inject_Z (p mod 2) / 2 == inject_Z p / 2.
Proof.
  rewrite (Z.div_mod p 2) at 3 by lia.
  rewrite inject_Z_plus, inject_Z_mult. field.
Qed.

Lemma Qtrunc_nonpos (q : Q) : q <= 0 -> (Qtrunc q <= 0)%Z.
Proof.
  destruct q as [n d]; unfold Qle, Qtrunc; cbn [Qnum Qden].
  rewrite Z.mul_1_r, Z.mul_0_l; intros N.
  pose proof (Z.quot_opp_l n (Zpos d) ltac:(lia)).
  pose proof (Z.quot_pos (- n) (Zpos d) ltac:(lia) ltac:(lia)). lia.
Qed.

Lemma axis_centre_inside (p q s t iz : Z) (lo hi : Q) :
  (0 <= p)%Z ->
  lo = Qmax (inject_Z p / 2) (inject_Z q / 2 + inject_Z ((s - t) / 2)) ->
  hi = Qmin (inject_Z s - inject_Z p / 2)
            (inject_Z t - inject_Z q / 2 + inject_Z ((s - t) / 2)) ->
  (Qtrunc lo <= iz < Qtrunc hi)%Z ->
  centred_inside p q s t (inject_Z iz + inject_Z (p mod 2) / 2).
Proof.
  intros Hp -> -> [Hlo Hhi].
  set (o := ((s - t) / 2)%Z) in *.
  set (lo := Qmax _ _) in *. set (hi := Qmin _ _) in *.
  assert (P0 : 0 <= inject_Z p / 2).
  { apply Qle_shift_div_l; [reflexivity|]. rewrite Qmult_0_l.
    change 0 with (inject_Z 0); now rewrite <- Zle_Qle. }
  assert (L0 : inject_Z p / 2 <= lo) by apply Q.le_max_l.
  assert (L1 : inject_Z q / 2 + inject_Z o <= lo) by apply Q.le_max_r.
  assert (H0 : hi <= inject_Z s - inject_Z p / 2) by apply Q.le_min_l.
  assert (H1 : hi <= inject_Z t - inject_Z q / 2 + inject_Z o) by apply Q.le_min_r.
  assert (Lnn : 0 <= lo) by lra.
  rewrite (Qtrunc_nonneg lo Lnn) in Hlo.
  assert (Hnn : 0 <= hi).
  { destruct (Qlt_le_dec hi 0) as [N|N]; [|exact N].
    exfalso.
    pose proof (Qtrunc_nonpos hi (Qlt_le_weak _ _ N)).
    pose proof (Qfloor_resp_le _ _ Lnn) as F0. change (Qfloor 0) with 0%Z in F0. lia. }
  rewrite (Qtrunc_nonneg hi Hnn) in Hhi.
  pose proof (Qfloor_le hi) as Fh.
  pose proof (Qfloor_resp_le _ _ L0) as F1; rewrite Qfloor_half in F1.
  pose proof (Qfloor_resp_le _ _ L1) as F2.
  assert (E2 : inject_Z q / 2 + inject_Z o == inject_Z (q + 2 * o) / 2)
    by (rewrite inject_Z_plus, inject_Z_mult; field).
  rewrite (Qfloor_comp _ _ E2), Qfloor_half in F2.
  pose proof (half_split p) as HS.
  pose proof (half_split (q + 2 * o)) as HS2.
  rewrite <- E2 in HS2.
  pose proof (Z.mod_pos_bound p 2 ltac:(lia)) as Mp.
  pose proof (Z.mod_pos_bound (q + 2 * o) 2 ltac:(lia)) as Mq.
  unfold Qdiv in *; change (/ 2) with (1 # 2) in *.
  assert (Rp : 0 <= inject_Z (p mod 2) * (1 # 2) <= 1 # 2).
  { assert (0 <= inject_Z (p mod 2) <= 1).
    { change 0 with (inject_Z 0); change 1 with (inject_Z 1).
      rewrite <- !Zle_Qle; lia. }
    split; lra. }
  assert (Rq : 0 <= inject_Z ((q + 2 * o) mod 2) * (1 # 2) <= 1 # 2).
  { assert (0 <= inject_Z ((q + 2 * o) mod 2) <= 1).
    { change 0 with (inject_Z 0); change 1 with (inject_Z 1).
      rewrite <- !Zle_Qle; lia. }
    split; lra. }
  assert (Iz1 : inject_Z (p / 2) <= inject_Z iz) by (rewrite <- Zle_Qle; lia).
  assert (Iz2 : inject_Z ((q + 2 * o) / 2) <= inject_Z iz) by (rewrite <- Zle_Qle; lia).
  assert (Iz3 : inject_Z iz + 1 <= inject_Z (Qfloor hi)).
  { change 1 with (inject_Z 1); rewrite <- inject_Z_plus, <- Zle_Qle; lia. }
  unfold centred_inside; fold o.
  unfold Qdiv; change (/ 2) with (1 # 2).
  split; [lra|]. split; [lra|]. split; [lra|]. split; [lra|].
  exists (iz - p / 2)%Z.
  unfold Zminus; rewrite inject_Z_plus, inject_Z_opp. lra.
Qed.

Lemma center_bounds_inside
  (p0 p1 p2 q0 q1 q2 s0 s1 s2 t0 t1 t2 iz iy ix : Z) (lo0 lo1 lo2 hi0 hi1 hi2 : Q) :
  (0 <= p0)%Z -> (0 <= p1)%Z -> (0 <= p2)%Z ->
  center_bounds (p0, p1, p2) (q0, q1, q2) (s0, s1, s2) (t0, t1, t2)
    = ((lo0, lo1, lo2), (hi0, hi1, hi2)) ->
  (Qtrunc lo0 <= iz < Qtrunc hi0)%Z ->
  (Qtrunc lo1 <= iy < Qtrunc hi1)%Z ->
  (Qtrunc lo2 <= ix < Qtrunc hi2)%Z ->
  centred_inside p0 q0 s0 t0 (inject_Z iz + inject_Z (p0 mod 2) / 2) /\
  centred_inside p1 q1 s1 t1 (inject_Z iy + inject_Z (p1 mod 2) / 2) /\
  centred_inside p2 q2 s2 t2 (inject_Z ix + inject_Z (p2 mod 2) / 2).
Proof.
  intros P0 P1 P2 EC R0 R1 R2.
  cbv [center_bounds centering_offset zip3 map3] in EC.
  assert (L0 := f_equal (fun b => fst3 (fst b)) EC).
  assert (L1 := f_equal (fun b => snd3 (fst b)) EC).
  assert (L2 := f_equal (fun b => thd3 (fst b)) EC).
  assert (U0 := f_equal (fun b => fst3 (snd b)) EC).
  assert (U1 := f_equal (fun b => snd3 (snd b)) EC).
  assert (U2 := f_equal (fun b => thd3 (snd b)) EC).
  cbn [fst snd fst3 snd3 thd3] in L0, L1, L2, U0, U1, U2.
  split; [|split].
  - now apply (axis_centre_inside p0 q0 s0 t0 iz lo0 hi0).
  - now apply (axis_centre_inside p1 q1 s1 t1 iy lo1 hi1).
  - now apply (axis_centre_inside p2 q2 s2 t2 ix lo2 hi2).
Qed.

(** X7: in every successful run of the sampler the source translation is
    the translation by the opposite of a centre (z, y, x) that keeps the
    patch inside the input volume on every axis,
    [p/2 <= z <= s - p/2 - 1/2], and the target patch, shifted by the
    centring offset, inside the target volume up to half a voxel; the
    patch starts on the voxel grid; and the destination translation is
    the translation to the patch centre [p/2]. *)
Theorem sampler_centre_inside
  (cos sin arcsin : Q -> Q) (pi : Q)
  (inp_src_shape tss : list Z) (p0 p1 p2 q0 q1 q2 s0 s1 s2 t0 t1 t2 : Z)
  (aniso_factor : Z) (sample_aniso : bool) (warp_amount : Q)
  (lock_z no_x_flip perspective : bool) (rng ambient : RandomState)
  (f : sampled factors) :
  (0 <= p0)%Z -> (0 <= p1)%Z -> (0 <= p2)%Z ->
  bcast3 (last3 inp_src_shape) = ok (s0, s1, s2) ->
  bcast3 (last3 tss) = ok (t0, t1, t2) ->
  transform_factors cos sin arcsin pi inp_src_shape (p0, p1, p2) aniso_factor
    sample_aniso warp_amount lock_z no_x_flip perspective
    (Some tss) (Some (q0, q1, q2)) rng ambient = ok f ->
  exists z y x,
    f_T_src (value f) = translate (- z) (- y) (- x) /\
    f_T_dest (value f) = translate (inject_Z p0 / 2) (inject_Z p1 / 2) (inject_Z p2 / 2) /\
    centred_inside p0 q0 s0 t0 z /\
    centred_inside p1 q1 s1 t1 y /\
    centred_inside p2 q2 s2 t2 x.
Proof.
  intros P0 P1 P2 HI HT E.
  apply transform_factors_inv in E.
  destruct E
    as (tss' & tps' & inp3 & tgt3 & lo0 & lo1 & lo2 & hi0 & hi1 & hi2
        & iz & iy & ix & r2 & r3 & r4 & Es & Ep & EI & ET & EC & _ & (R0 & R1 & R2)
        & ETs & _ & _ & _ & _ & _ & ETd).
  injection Es as <-; injection Ep as <-.
  rewrite HI in EI; rewrite HT in ET.
  unfold ok in EI, ET.
  assert (inp3 = (s0, s1, s2)) by congruence.
  assert (tgt3 = (t0, t1, t2)) by congruence.
  subst inp3 tgt3; clear EI ET.
  eexists _, _, _; split; [exact ETs|]. split; [exact ETd|].
  now apply (center_bounds_inside p0 p1 p2 q0 q1 q2 s0 s1 s2 t0 t1 t2 iz iy ix
               lo0 lo1 lo2 hi0 hi1 hi2).
Qed.

Lemma sampler_centre_inside_witness :
  exists f,
    transform_factors cos_series sin_series arcsin_series pi_approx
      [100; 100; 100]%Z (11, 10, 10)%Z 2 true 0 true false false
      (Some [80; 80; 80]%Z) (Some (5, 6, 6)%Z) [3; 1; 4; 1; 5; 9; 2; 6]%Z [] = ok f /\
    exists z y x,
      f_T_src (value f) = translate (- z) (- y) (- x) /\
      f_T_dest (value f)
        = translate (inject_Z 11 / 2) (inject_Z 10 / 2) (inject_Z 10 / 2) /\
      centred_inside 11 5 100 80 z /\
      centred_inside 10 6 100 80 y /\
      centred_inside 10 6 100 80 x.
Proof.
  eexists; split.
  - vm_compute; reflexivity.
  - apply (sampler_centre_inside cos_series sin_series arcsin_series pi_approx
             [100; 100; 100]%Z [80; 80; 80]%Z 11 10 10 5 6 6 100 100 100 80 80 80
             2 true 0 true false false [3; 1; 4; 1; 5; 9; 2; 6]%Z []);
      first [lia | vm_compute; reflexivity].
Defined.

(** ** Patches the sampler refuses *)

Lemma Qlt_bool_false (x y : Q) : y <= x -> Qlt_bool x y = false.
Proof.
  intros H; unfold Qlt_bool. apply negb_false_iff. now apply Qle_bool_iff.
Qed.

Lemma axis_bounds_empty (p q s t : Z) :
  (s <= p \/ t <= q)%Z ->
  Qmin (inject_Z s - inject_Z p / 2)
       (inject_Z t - inject_Z q / 2 + inject_Z ((s - t) / 2)) <=
  Qmax (inject_Z p / 2) (inject_Z q / 2 + inject_Z ((s - t) / 2)).
Proof.
  intros H.
  set (o := inject_Z ((s - t) / 2)).
  unfold Qdiv; change (/ 2) with (1 # 2).
  destruct H as [H | H]; rewrite Zle_Qle in H.
  - eapply Qle_trans; [apply Q.le_min_l|].
    eapply Qle_trans; [|apply Q.le_max_l]. lra.
  - eapply Qle_trans; [apply Q.le_min_r|].
    eapply Qle_trans; [|apply Q.le_max_r]. lra.
Qed.

(** X8: a patch that is as large as the input volume on some axis, or a
    target patch as large as the target volume, makes the sampler fail
    its assertion [lo_pos < hi_pos]: [AssertionError], whatever the
    generators and the random options are. *)
Theorem sampler_refuses_full_patch
  (cos sin arcsin : Q -> Q) (pi : Q)
  (inp_src_shape tss : list Z) (p0 p1 p2 q0 q1 q2 s0 s1 s2 t0 t1 t2 : Z)
  (aniso_factor : Z) (sample_aniso : bool) (warp_amount : Q)
  (lock_z no_x_flip perspective : bool) (rng ambient : RandomState) :
  bcast3 (last3 inp_src_shape) = ok (s0, s1, s2) ->
  bcast3 (last3 tss) = ok (t0, t1, t2) ->
  ((s0 <= p0 \/ t0 <= q0) \/ (s1 <= p1 \/ t1 <= q1) \/ (s2 <= p2 \/ t2 <= q2))%Z ->
  get_warped_coord_transform cos sin arcsin pi inp_src_shape (p0, p1, p2)
    aniso_factor sample_aniso warp_amount lock_z no_x_flip perspective
    (Some tss) (Some (q0, q1, q2)) rng ambient = raise AssertionError.
Proof.
  intros HI HT H.
  unfold get_warped_coord_transform, transform_factors; cbn [rbind ok].
  rewrite HI, HT; cbn [rbind ok].
  cbv [center_bounds centering_offset zip3 map3 all3].
  destruct H as [H | [H | H]];
    rewrite (Qlt_bool_false _ _ (axis_bounds_empty _ _ _ _ H));
    rewrite ?andb_false_r; reflexivity.
Qed.

Lemma sampler_refuses_full_patch_witness :
  get_warped_coord_transform cos_series sin_series arcsin_series pi_approx
    [1; 6; 6; 6]%Z (4, 6, 4)%Z 2 true 0 false false false
    (Some [1; 6; 6; 6]%Z) (Some (4, 4, 4)%Z) [1; 2; 3]%Z [] = raise AssertionError.
Proof.
  apply (sampler_refuses_full_patch cos_series sin_series arcsin_series pi_approx
           [1; 6; 6; 6]%Z [1; 6; 6; 6]%Z 4 6 4 4 4 4 6 6 6 6 6 6).
  - reflexivity.
  - reflexivity.
  - lia.
Defined.

(** ** Matrices that keep the depth axis apart *)

Lemma z_locked_dot (A B : matrix) : z_locked A -> z_locked B -> z_locked (dot A B).
Proof.
  intros (HA & A1 & A2 & A3 & A4 & A5 & A6 & A7) (HB & B1 & B2 & B3 & B4 & B5 & B6 & B7).
  split; [now apply mat4_dot|].
  break_mat4 HA; break_mat4 HB.
  cbv [entry nth] in A1, A2, A3, A4, A5, A6, A7, B1, B2, B3, B4, B5, B6, B7.
  cbv [entry dot ncols hd length seq map col nth vdot combine fold_left fst snd].
  rewrite A1, A2, A3, A4, A5, A6, A7, B1, B2, B3, B4, B5, B6, B7.
  repeat split; ring.
Qed.

Lemma z_locked_identity : z_locked identity.
Proof. split; [apply mat4_identity | repeat split; reflexivity]. Qed.

Lemma z_locked_translate (a b c : Q) : z_locked (translate a b c).
Proof. split; [apply mat4_intro | repeat split; reflexivity]. Qed.

Lemma z_locked_scale (a b c : Q) : z_locked (scale a b c).
Proof. split; [apply mat4_intro | repeat split; reflexivity]. Qed.

Lemma z_locked_rotate_z (cos sin : Q -> Q) (a : Q) : z_locked (rotate_z cos sin a).
Proof. split; [apply mat4_intro | repeat split; reflexivity]. Qed.

Lemma z_locked_swap (Sm : matrix) : In Sm (swap_candidates true) -> z_locked Sm.
Proof.
  rewrite swap_candidates_lock_z; cbn [In].
  intros [<- | [<- | []]]; (split; [apply mat4_intro | repeat split; reflexivity]).
Qed.

Lemma z_locked_chain (l : list matrix) : Forall z_locked l -> z_locked (chain_matrices l).
Proof.
  unfold chain_matrices.
  assert (G : forall A, z_locked A -> Forall z_locked l -> z_locked (fold_left dot l A)).
  { induction l as [|B l IH]; intros A HA HL; [exact HA|].
    inversion HL; subst. cbn [fold_left]. apply IH; [now apply z_locked_dot | assumption]. }
  apply G, z_locked_identity.
Qed.

Lemma z_locked_no_perspective (A : matrix) : z_locked A -> has_perspective A = false.
Proof.
  intros (_ & _ & _ & _ & _ & A5 & A6 & A7); unfold has_perspective.
  apply Qeq_bool_iff in A5, A6, A7. now rewrite A5, A6, A7.
Qed.

(** The inverse of such a matrix takes the depth of a point from its
    depth alone. *)
Lemma z_locked_inverse_depth (A Ai : matrix) :
  z_locked A -> inv A = ok Ai ->
  exists k c, forall dz dy dx,
    fst3 (map_src A Ai [dz; dy; dx; 1]) == k * dz + c.
Proof.
  intros HA E.
  pose proof (z_locked_no_perspective A HA) as HP.
  destruct HA as (HA & A1 & A2 & A3 & A4 & A5 & A6 & A7).
  unfold map_src; rewrite HP; clear HP.
  unfold inv in E.
  destruct (Qeq_bool (det 4 A) 0); [discriminate|].
  unfold ok in E; assert (E' : Ai = map (fun i => map (fun j => cofactor 4 j i A / det 4 A)
                                                   (seq 0 4)) (seq 0 4)) by congruence.
  subst Ai; clear E.
  set (d := det 4 A).
  break_mat4 HA.
  cbv [entry nth] in A1, A2, A3, A4, A5, A6, A7.
  exists (cofactor 4 0 0 [[x; x0; x1; x2]; [x3; x4; x5; x6]; [x7; x8; x9; x10];
                           [x11; x12; x13; x14]] / d),
         (cofactor 4 3 0 [[x; x0; x1; x2]; [x3; x4; x5; x6]; [x7; x8; x9; x10];
                           [x11; x12; x13; x14]] / d).
  intros dz dy dx.
  cbv [fst3 spatial mat_vec seq map nth vdot combine fold_left fst snd].
  assert (C1 : cofactor 4 1 0 [[x; x0; x1; x2]; [x3; x4; x5; x6]; [x7; x8; x9; x10];
                               [x11; x12; x13; x14]] == 0).
  { cbv [cofactor Nat.add pred det seq map fold_left nth drop_nth firstn skipn app
         alt_sign Nat.even].
    rewrite A1, A2, A6, A7; ring. }
  assert (C2 : cofactor 4 2 0 [[x; x0; x1; x2]; [x3; x4; x5; x6]; [x7; x8; x9; x10];
                               [x11; x12; x13; x14]] == 0).
  { cbv [cofactor Nat.add pred det seq map fold_left nth drop_nth firstn skipn app
         alt_sign Nat.even].
    rewrite A1, A2, A6, A7; ring. }
  rewrite C1, C2. unfold Qdiv; ring.
Qed.

Lemma z_locked_warpmat (amount : Q) (rng ambient : RandomState) :
  z_locked (fst (get_random_warpmat true false amount rng ambient)).
Proof.
  destruct (get_random_warpmat_form true false amount rng ambient)
    as (p00 & p01 & p02 & p03 & p10 & p11 & p12 & p13 & p20 & p21 & p22 & p23
        & q0 & q1 & q2 & -> & Hz & Hp & _ & _).
  specialize (Hz eq_refl); specialize (Hp eq_refl); cbn [fst].
  repeat match goal with H : Forall _ (_ :: _) |- _ => inversion H; clear H; subst end.
  split; [apply mat4_intro|].
  cbv [entry nth].
  repeat split;
    match goal with
    | |- 0 + ?t == 0 => setoid_replace (0 + t) with t by ring
    end; assumption.
Qed.

(** X9: under [lock_z] and without perspective, the matrix returned by
    the sampler keeps the depth axis apart, whatever was sampled: it has
    no perspective row, and when [warp_slice] inverts it, the depth of
    the source coordinate of a voxel is a function [k * dz + c] of the
    depth [dz] of the voxel alone, so every depth section of the patch is
    taken from one depth of the source. *)
Theorem lock_z_keeps_depth_sections
  (cos sin arcsin : Q -> Q) (pi : Q)
  (inp_src_shape : list Z) (p0 p1 p2 : Z) (aniso_factor : Z)
  (sample_aniso : bool) (warp_amount : Q) (no_x_flip : bool)
  (tss : option (list Z)) (tps : option Z3) (rng ambient : RandomState)
  (m : sampled matrix) (M_inv : matrix) :
  get_warped_coord_transform cos sin arcsin pi inp_src_shape (p0, p1, p2)
    aniso_factor sample_aniso warp_amount true no_x_flip false
    tss tps rng ambient = ok m ->
  inv (value m) = ok M_inv ->
  has_perspective (value m) = false /\
  exists k c, forall dz dy dx,
    fst3 (map_src (value m) M_inv [dz; dy; dx; 1]) == k * dz + c.
Proof.
  unfold get_warped_coord_transform.
  destruct (transform_factors _ _ _ _ _ _ _ _ _ _ _ _ _ _ _ _) as [e|f] eqn:E;
    [discriminate|]; cbn [rbind].
  intros Em; unfold ok in Em.
  assert (Em' : m = mkSampled (chain_matrices (factor_list (value f)))
                      (rng_after f) (ambient_after f)) by congruence.
  subst m; clear Em; cbn [value].
  apply transform_factors_inv in E.
  destruct E as (tss' & tps' & inp3 & tgt3 & lo0 & lo1 & lo2 & hi0 & hi1 & hi2
                 & iz & iy & ix & r2 & r3 & r4 & _ & _ & _ & _ & _ & _ & _
                 & ETs & ESs & EF & ES & ER & ED & ETd).
  assert (L : z_locked (chain_matrices (factor_list (value f)))).
  { apply z_locked_chain; unfold factor_list.
    rewrite ETs, ESs, ETd.
    destruct (get_random_flipmat_cases no_x_flip r2)
      as (f0 & f1 & f2 & _ & _ & _ & _ & EF').
    rewrite EF' in EF; injection EF as <- _.
    repeat (apply Forall_cons); try apply Forall_nil;
      try apply z_locked_translate; try apply z_locked_scale.
    - destruct sample_aniso.
      + destruct ED as [_ ->]; apply z_locked_scale.
      + rewrite ED; apply z_locked_identity.
    - destruct (isclose0 warp_amount).
      + destruct ER as [-> _]; apply z_locked_identity.
      + destruct ER as [-> _].
        destruct (get_random_rotmat_cases cos sin arcsin pi true warp_amount r4)
          as (g & p & t & ->).
        apply z_locked_rotate_z.
    - destruct (isclose0 warp_amount).
      + destruct ER as [_ ->]; apply z_locked_identity.
      + destruct ER as [_ ->]; apply z_locked_warpmat.
    - destruct no_x_flip.
      + rewrite ES; apply z_locked_identity.
      + now apply z_locked_swap. }
  intros Ei; split.
  - now apply z_locked_no_perspective.
  - now apply z_locked_inverse_depth.
Qed.

(** ** The sampler without a warp *)

Lemma det_translate (a b c : Q) : det 4 (translate a b c) == 1.
Proof.
  cbv [translate det seq map fold_left nth drop_nth firstn skipn app alt_sign Nat.even].
  ring.
Qed.

Lemma det_scale (a b c : Q) : det 4 (scale a b c) == a * b * c.
Proof.
  cbv [scale det seq map fold_left nth drop_nth firstn skipn app alt_sign Nat.even].
  ring.
Qed.

Lemma det_swap (lock_z : bool) (Sm : matrix) :
  In Sm (swap_candidates lock_z) -> mat4 Sm /\ ~ det 4 Sm == 0.
Proof.
  destruct lock_z.
  - rewrite swap_candidates_lock_z; cbn [In].
    intros [<- | [<- | []]]; (split; [apply mat4_intro | discriminate]).
  - rewrite swap_candidates_free; cbn [In].
    intros [<- | [<- | [<- | [<- | [<- | [<- | []]]]]]];
      (split; [apply mat4_intro | discriminate]).
Qed.

Lemma regular_dot (A B : matrix) : regular A -> regular B -> regular (dot A B).
Proof.
  intros [HA DA] [HB DB]; split; [now apply mat4_dot|].
  rewrite det_dot by assumption.
  intros H; apply Qmult_integral in H; tauto.
Qed.

Lemma regular_identity : regular identity.
Proof. split; [apply mat4_identity | discriminate]. Qed.

Lemma regular_chain (l : list matrix) : Forall regular l -> regular (chain_matrices l).
Proof.
  unfold chain_matrices.
  assert (G : forall A, regular A -> Forall regular l -> regular (fold_left dot l A)).
  { induction l as [|B l IH]; intros A HA HL; [exact HA|].
    inversion HL; subst. cbn [fold_left]. apply IH; [now apply regular_dot | assumption]. }
  apply G, regular_identity.
Qed.

Lemma regular_translate (a b c : Q) : regular (translate a b c).
Proof.
  split; [apply mat4_intro|]. rewrite det_translate; discriminate.
Qed.

Lemma regular_scale (a b c : Q) :
  ~ a == 0 -> ~ b == 0 -> ~ c == 0 -> regular (scale a b c).
Proof.
  intros Ha Hb Hc; split; [apply mat4_intro|]. rewrite det_scale.
  intros H; apply Qmult_integral in H; destruct H as [H | H]; [|tauto].
  apply Qmult_integral in H; tauto.
Qed.

Lemma inject_Z_nonzero (a : Z) : a <> 0%Z -> ~ inject_Z a == 0.
Proof.
  intros H E. apply H. now apply (proj1 (inject_Z_injective a 0)).
Qed.

Lemma mat_vec_length (A : matrix) (v : list Q) : length (mat_vec A v) = length A.
Proof. unfold mat_vec; apply length_map. Qed.

Lemma mat_vec_chain (l : list matrix) (v : list Q) :
  Forall mat4 l -> length v = 4%nat ->
  veq (mat_vec (chain_matrices l) v) (fold_right mat_vec v l).
Proof.
  revert v; induction l as [|A l IH] using rev_ind; intros v Hl Hv.
  - cbn [fold_right]. destruct (row4_explicit _ Hv) as (? & ? & ? & ? & ->).
    unfold chain_matrices; cbn [fold_left]. mat4_ring.
  - apply Forall_app in Hl; destruct Hl as [Hl HA].
    inversion HA; subst.
    rewrite chain_snoc, fold_right_app; cbn [fold_right].
    eapply veq_trans.
    + apply mat_vec_dot; [now apply mat4_chain | assumption | assumption].
    + apply IH; [assumption|].
      rewrite mat_vec_length. match goal with H : mat4 A |- _ => apply H end.
Qed.

Lemma mat_vec_identity (v : list Q) : length v = 4%nat -> veq (mat_vec identity v) v.
Proof.
  intros Hv; destruct (row4_explicit _ Hv) as (? & ? & ? & ? & ->). mat4_ring.
Qed.

(** A left inverse takes the image of a point back to the point. *)
Lemma left_inverse_maps_back (A Ai : matrix) (v c : list Q) :
  mat4 A -> mat4 Ai -> mat_eq (dot Ai A) identity -> length v = 4%nat ->
  veq (mat_vec A v) c -> veq (mat_vec Ai c) v.
Proof.
  intros HA HAi HI Hv Hc.
  rewrite <- Hc.
  rewrite <- (mat_vec_dot Ai A v HAi HA Hv).
  rewrite HI. now apply mat_vec_identity.
Qed.

Lemma no_perspective_row_dot (A B : matrix) :
  no_perspective_row A -> no_perspective_row B -> no_perspective_row (dot A B).
Proof.
  intros (HA & A5 & A6 & A7) (HB & B5 & B6 & B7).
  split; [now apply mat4_dot|].
  break_mat4 HA; break_mat4 HB.
  cbv [entry nth] in A5, A6, A7, B5, B6, B7.
  cbv [entry dot ncols hd length seq map col nth vdot combine fold_left fst snd].
  rewrite A5, A6, A7, B5, B6, B7.
  repeat split; ring.
Qed.

Lemma no_perspective_row_chain (l : list matrix) :
  Forall no_perspective_row l -> no_perspective_row (chain_matrices l).
Proof.
  unfold chain_matrices.
  assert (G : forall A, no_perspective_row A -> Forall no_perspective_row l ->
                        no_perspective_row (fold_left dot l A)).
  { induction l as [|B l IH]; intros A HA HL; [exact HA|].
    inversion HL; subst. cbn [fold_left].
    apply IH; [now apply no_perspective_row_dot | assumption]. }
  apply G. split; [apply mat4_identity | repeat split; reflexivity].
Qed.

Lemma no_perspective_row_spec (A : matrix) :
  no_perspective_row A -> has_perspective A = false.
Proof.
  intros (_ & A5 & A6 & A7); unfold has_perspective.
  apply Qeq_bool_iff in A5, A6, A7. now rewrite A5, A6, A7.
Qed.

Lemma no_perspective_row_swap (lock_z : bool) (Sm : matrix) :
  In Sm (swap_candidates lock_z) -> no_perspective_row Sm.
Proof.
  destruct lock_z.
  - rewrite swap_candidates_lock_z; cbn [In].
    intros [<- | [<- | []]]; (split; [apply mat4_intro | repeat split; reflexivity]).
  - rewrite swap_candidates_free; cbn [In].
    intros [<- | [<- | [<- | [<- | [<- | [<- | []]]]]]];
      (split; [apply mat4_intro | repeat split; reflexivity]).
Qed.

Lemma swap_fixes_origin (lock_z : bool) (Sm : matrix) :
  In Sm (swap_candidates lock_z) -> veq (mat_vec Sm [0; 0; 0; 1]) [0; 0; 0; 1].
Proof.
  intros H; destruct lock_z.
  - rewrite swap_candidates_lock_z in H; cbn [In] in H.
    destruct H as [<- | [<- | []]]; mat4_ring.
  - rewrite swap_candidates_free in H; cbn [In] in H.
    destruct H as [<- | [<- | [<- | [<- | [<- | [<- | []]]]]]]; mat4_ring.
Qed.

Lemma scale_fixes_origin (a b c : Q) : veq (mat_vec (scale a b c) [0; 0; 0; 1]) [0; 0; 0; 1].
Proof. unfold scale; mat4_ring. Qed.

Lemma translate_origin (a b c : Q) :
  veq (mat_vec (translate a b c) [0; 0; 0; 1]) [a; b; c; 1].
Proof. unfold translate; mat4_ring. Qed.

Lemma translate_centre (z y x : Q) :
  veq (mat_vec (translate (- z) (- y) (- x)) [z; y; x; 1]) [0; 0; 0; 1].
Proof. unfold translate; mat4_ring. Qed.

Lemma inverse_nonzero (a : Q) : ~ a == 0 -> ~ 1 / a == 0.
Proof.
  intros Ha H. assert (E : 1 / a * a == 1) by (field; exact Ha).
  rewrite H in E. discriminate E.
Qed.

Lemma sign_nonzero (f : Z) : (f = 1 \/ f = -1)%Z -> ~ inject_Z f == 0.
Proof. intros [-> | ->]; discriminate. Qed.

Section WithoutWarp.

Variables (cos sin arcsin : Q -> Q) (pi : Q).

(** The chain of a run without warp: translations, scalings, a flip and
    a permutation. *)
Lemma sampler_without_warp_chain
  (inp_src_shape : list Z) (p0 p1 p2 : Z) (aniso_factor : Z)
  (sample_aniso : bool) (warp_amount : Q) (lock_z no_x_flip perspective : bool)
  (tss : option (list Z)) (tps : option Z3) (rng ambient : RandomState)
  (f : sampled factors) :
  isclose0 warp_amount = true ->
  aniso_factor <> 0%Z ->
  transform_factors cos sin arcsin pi inp_src_shape (p0, p1, p2) aniso_factor
    sample_aniso warp_amount lock_z no_x_flip perspective tss tps rng ambient = ok f ->
  let M := chain_matrices (factor_list (value f)) in
  regular M /\ no_perspective_row M /\
  forall z y x,
    f_T_src (value f) = translate (- z) (- y) (- x) ->
    veq (mat_vec M [z; y; x; 1]) [inject_Z p0 / 2; inject_Z p1 / 2; inject_Z p2 / 2; 1].
Proof.
  intros Hw Ha E.
  apply transform_factors_inv in E.
  destruct E as (tss' & tps' & inp3 & tgt3 & lo0 & lo1 & lo2 & hi0 & hi1 & hi2
                 & iz & iy & ix & r2 & r3 & r4 & _ & _ & _ & _ & _ & _ & _
                 & ETs & ESs & EF & ES & ER & ED & ETd).
  rewrite Hw in ER; destruct ER as [ER EW].
  destruct (get_random_flipmat_cases no_x_flip r2)
    as (f0 & f1 & f2 & F0 & F1 & F2 & _ & EF').
  rewrite EF' in EF; injection EF as EF _.
  pose proof (inject_Z_nonzero _ Ha) as Ha'.
  assert (ESd : exists d, ~ d == 0 /\ f_S_dest (value f) = scale d 1 1).
  { destruct sample_aniso.
    - destruct ED as [_ ->]; eexists; split; [|reflexivity]. now apply inverse_nonzero.
    - rewrite ED; exists 1; split; [discriminate | reflexivity]. }
  destruct ESd as (d & Hd & ESd).
  assert (HS : In (f_S (value f)) (swap_candidates lock_z)).
  { destruct no_x_flip; [|exact ES].
    rewrite ES; destruct lock_z; left; reflexivity. }
  cbv zeta; unfold factor_list.
  rewrite ETs, ESs, ETd, ESd, ER, EW, <- EF.
  assert (I1 : (1 : Q) == 0 -> False) by discriminate.
  pose proof (sign_nonzero _ F0). pose proof (sign_nonzero _ F1).
  pose proof (sign_nonzero _ F2).
  split; [|split].
  - apply regular_chain.
    repeat (apply Forall_cons); try apply Forall_nil;
      try apply regular_translate; try apply regular_identity;
      try (apply regular_scale; assumption).
    now apply (det_swap lock_z).
  - apply no_perspective_row_chain.
    repeat (apply Forall_cons); try apply Forall_nil;
      try (split; [apply mat4_intro | repeat split; reflexivity]).
    now apply (no_perspective_row_swap lock_z).
  - intros z y x Ez.
    assert (Ez' : veq (mat_vec (translate (- (inject_Z iz + inject_Z (p0 mod 2) / 2))
                                          (- (inject_Z iy + inject_Z (p1 mod 2) / 2))
                                          (- (inject_Z ix + inject_Z (p2 mod 2) / 2)))
                               [z; y; x; 1]) [0; 0; 0; 1]).
    { rewrite Ez. apply translate_centre. }
    rewrite mat_vec_chain.
    + cbn [fold_right].
      rewrite Ez', scale_fixes_origin, (swap_fixes_origin lock_z _ HS), scale_fixes_origin.
      change eye4 with identity.
      rewrite !(mat_vec_identity [0; 0; 0; 1] eq_refl), scale_fixes_origin.
      apply translate_origin.
    + repeat (apply Forall_cons); try apply Forall_nil; try apply mat4_intro.
      now apply (det_swap lock_z).
    + reflexivity.
Qed.

End WithoutWarp.

(** X10: without a warp (a warp amount within 1e-8 of zero) and with a
    non-zero anisotropy factor, the matrix returned by the sampler can be
    inverted, so the inversion in [warp_slice] does not fail; it has no
    perspective row, so no homogeneous divide takes place; and the source
    coordinate of the patch centre [p/2] is the sampled centre, which
    keeps the patch inside the input volume. *)
Theorem sampler_without_warp_centres_patch
  (cos sin arcsin : Q -> Q) (pi : Q)
  (inp_src_shape tss : list Z) (p0 p1 p2 q0 q1 q2 s0 s1 s2 t0 t1 t2 : Z)
  (aniso_factor : Z) (sample_aniso : bool) (warp_amount : Q)
  (lock_z no_x_flip perspective : bool) (rng ambient : RandomState)
  (m : sampled matrix) :
  isclose0 warp_amount = true ->
  aniso_factor <> 0%Z ->
  (0 <= p0)%Z -> (0 <= p1)%Z -> (0 <= p2)%Z ->
  bcast3 (last3 inp_src_shape) = ok (s0, s1, s2) ->
  bcast3 (last3 tss) = ok (t0, t1, t2) ->
  get_warped_coord_transform cos sin arcsin pi inp_src_shape (p0, p1, p2)
    aniso_factor sample_aniso warp_amount lock_z no_x_flip perspective
    (Some tss) (Some (q0, q1, q2)) rng ambient = ok m ->
  exists z y x M_inv,
    inv (value m) = ok M_inv /\
    has_perspective (value m) = false /\
    (let c := [inject_Z p0 / 2; inject_Z p1 / 2; inject_Z p2 / 2; 1] in
     fst3 (map_src (value m) M_inv c) == z /\
     snd3 (map_src (value m) M_inv c) == y /\
     thd3 (map_src (value m) M_inv c) == x) /\
    centred_inside p0 q0 s0 t0 z /\
    centred_inside p1 q1 s1 t1 y /\
    centred_inside p2 q2 s2 t2 x.
Proof.
  intros Hw Ha P0 P1 P2 HI HT.
  unfold get_warped_coord_transform.
  destruct (transform_factors _ _ _ _ _ _ _ _ _ _ _ _ _ _ _ _) as [e|f] eqn:E;
    [discriminate|]; cbn [rbind].
  intros Em; unfold ok in Em.
  assert (Em' : m = mkSampled (chain_matrices (factor_list (value f)))
                      (rng_after f) (ambient_after f)) by congruence.
  subst m; clear Em; cbn [value].
  destruct (sampler_without_warp_chain _ _ _ _ _ _ _ _ _ _ _ _ _ _ _ _ _ _ _ Hw Ha E)
    as ([HM HD] & HN & HC).
  apply transform_factors_inv in E.
  destruct E
    as (tss' & tps' & inp3 & tgt3 & lo0 & lo1 & lo2 & hi0 & hi1 & hi2
        & iz & iy & ix & r2 & r3 & r4 & Es & Ep & EI & ET & EC & _ & (R0 & R1 & R2)
        & ETs & _).
  injection Es as <-; injection Ep as <-.
  rewrite HI in EI; rewrite HT in ET.
  unfold ok in EI, ET.
  assert (inp3 = (s0, s1, s2)) by congruence.
  assert (tgt3 = (t0, t1, t2)) by congruence.
  subst inp3 tgt3; clear EI ET.
  destruct (inv_ok _ HM HD) as (Mi & Ei & HMi & _ & HL).
  specialize (HC _ _ _ ETs).
  pose proof (left_inverse_maps_back _ _
                [inject_Z iz + inject_Z (p0 mod 2) / 2;
                 inject_Z iy + inject_Z (p1 mod 2) / 2;
                 inject_Z ix + inject_Z (p2 mod 2) / 2; 1] _ HM HMi HL eq_refl HC) as HB.
  exists (inject_Z iz + inject_Z (p0 mod 2) / 2),
         (inject_Z iy + inject_Z (p1 mod 2) / 2),
         (inject_Z ix + inject_Z (p2 mod 2) / 2), Mi.
  split; [exact Ei|].
  split; [now apply no_perspective_row_spec|].
  split.
  - cbv zeta; unfold map_src.
    rewrite (no_perspective_row_spec _ HN).
    cbv [fst3 snd3 thd3 spatial].
    repeat split;
      apply (Forall2_nth Qeq _ _ 0 0 HB (Qeq_refl 0)).
  - now apply (center_bounds_inside p0 p1 p2 q0 q1 q2 s0 s1 s2 t0 t1 t2 iz iy ix
                 lo0 lo1 lo2 hi0 hi1 hi2).
Qed.

Lemma sampler_without_warp_centres_patch_witness :
  exists m,
    get_warped_coord_transform cos_series sin_series arcsin_series pi_approx
      [100; 100; 100]%Z (11, 10, 10)%Z 2 true 0 false false true
      (Some [80; 80; 80]%Z) (Some (5, 6, 6)%Z) [3; 1; 4; 1; 5; 9; 2; 6]%Z [] = ok m /\
    exists z y x M_inv,
      inv (value m) = ok M_inv /\
      has_perspective (value m) = false /\
      (let c := [inject_Z 11 / 2; inject_Z 10 / 2; inject_Z 10 / 2; 1] in
       fst3 (map_src (value m) M_inv c) == z /\
       snd3 (map_src (value m) M_inv c) == y /\
       thd3 (map_src (value m) M_inv c) == x) /\
      centred_inside 11 5 100 80 z /\
      centred_inside 10 6 100 80 y /\
      centred_inside 10 6 100 80 x.
Proof.
  destruct (transform_factors_succeeds cos_series sin_series arcsin_series pi_approx
              [100; 100; 100]%Z (11, 10, 10)%Z 2 true 0 false false true
              [80; 80; 80]%Z (5, 6, 6)%Z (100, 100, 100)%Z (80, 80, 80)%Z
              [3; 1; 4; 1; 5; 9; 2; 6]%Z []) as [f Hf];
    try reflexivity; try discriminate.
  assert (Hm : get_warped_coord_transform cos_series sin_series arcsin_series pi_approx
                 [100; 100; 100]%Z (11, 10, 10)%Z 2 true 0 false false true
                 (Some [80; 80; 80]%Z) (Some (5, 6, 6)%Z) [3; 1; 4; 1; 5; 9; 2; 6]%Z []
               = ok (mkSampled (chain_matrices (factor_list (value f)))
                       (rng_after f) (ambient_after f))).
  { unfold get_warped_coord_transform.
    change (@Some (Z * Z * Z)%type) with (@Some Z3).
    rewrite Hf; reflexivity. }
  eexists; split; [exact Hm|].
  apply (sampler_without_warp_centres_patch cos_series sin_series arcsin_series pi_approx
           [100; 100; 100]%Z [80; 80; 80]%Z 11 10 10 5 6 6 100 100 100 80 80 80
           2 true 0 false false true [3; 1; 4; 1; 5; 9; 2; 6]%Z []);
    first [reflexivity | discriminate | lia | exact Hm].
Defined.

Lemma lock_z_keeps_depth_sections_witness :
  exists m M_inv,
    get_warped_coord_transform cos_series sin_series arcsin_series pi_approx
      [10; 10; 10]%Z (4, 4, 4)%Z 2 true 0 true false false
      (Some [10; 10; 10]%Z) (Some (4, 4, 4)%Z) [3; 1; 4; 1; 5; 9; 2; 6]%Z [] = ok m /\
    inv (value m) = ok M_inv /\
    has_perspective (value m) = false /\
    exists k c, forall dz dy dx,
      fst3 (map_src (value m) M_inv [dz; dy; dx; 1]) == k * dz + c.
Proof.
  destruct (transform_factors_succeeds cos_series sin_series arcsin_series pi_approx
              [10; 10; 10]%Z (4, 4, 4)%Z 2 true 0 true false false
              [10; 10; 10]%Z (4, 4, 4)%Z (10, 10, 10)%Z (10, 10, 10)%Z
              [3; 1; 4; 1; 5; 9; 2; 6]%Z []) as [f Hf];
    try reflexivity; try discriminate.
  assert (Hm : get_warped_coord_transform cos_series sin_series arcsin_series pi_approx
                 [10; 10; 10]%Z (4, 4, 4)%Z 2 true 0 true false false
                 (Some [10; 10; 10]%Z) (Some (4, 4, 4)%Z) [3; 1; 4; 1; 5; 9; 2; 6]%Z []
               = ok (mkSampled (chain_matrices (factor_list (value f)))
                       (rng_after f) (ambient_after f))).
  { unfold get_warped_coord_transform.
    change (@Some (Z * Z * Z)%type) with (@Some Z3).
    rewrite Hf; reflexivity. }
  change (@Some (Z * Z * Z)%type) with (@Some Z3) in Hf.
  apply sampler_without_warp_chain in Hf; [|reflexivity | discriminate].
  destruct Hf as ([HM HD] & _).
  destruct (inv_ok _ HM HD) as (Mi & Ei & _).
  eexists _, Mi; split; [exact Hm|]. split; [exact Ei|].
  apply (lock_z_keeps_depth_sections cos_series sin_series arcsin_series pi_approx
           [10; 10; 10]%Z 4 4 4 2 true 0 false
           (Some [10; 10; 10]%Z) (Some (4, 4, 4)%Z) [3; 1; 4; 1; 5; 9; 2; 6]%Z []);
    [exact Hm | exact Ei].
Defined.

(** * Further properties of the resamplers *)

Lemma frac_range (u : Q) : 0 <= u -> 0 <= u - inject_Z (Qtrunc u) /\ u - inject_Z (Qtrunc u) <= 1.
Proof.
  intros H; rewrite (Qtrunc_nonneg u H).
  pose proof (Qfloor_le u). pose proof (Qlt_floor u) as L.
  rewrite inject_Z_plus in L; change (inject_Z 1) with 1 in L.
  split; lra.
Qed.

Lemma weight_nonneg (a b c v : Q) : 0 <= a -> 0 <= b -> 0 <= c -> 0 <= v -> 0 <= v * a * b * c.
Proof.
  intros; repeat apply Qmult_le_0_compat; assumption.
Qed.

Lemma convex8 (v1 v2 v3 v4 v5 v6 v7 v8 du dv dw L : Q) :
  0 <= du <= 1 -> 0 <= dv <= 1 -> 0 <= dw <= 1 ->
  L <= v1 -> L <= v2 -> L <= v3 -> L <= v4 -> L <= v5 -> L <= v6 -> L <= v7 -> L <= v8 ->
  L <= v1 * (1 - du) * (1 - dv) * (1 - dw) + v2 * du * (1 - dv) * (1 - dw) +
       v3 * (1 - du) * dv * (1 - dw) + v4 * (1 - du) * (1 - dv) * dw +
       v5 * du * (1 - dv) * dw + v6 * (1 - du) * dv * dw +
       v7 * du * dv * (1 - dw) + v8 * du * dv * dw.
Proof.
  intros [U0 U1] [V0 V1] [W0 W1] H1 H2 H3 H4 H5 H6 H7 H8.
  assert (U : 0 <= 1 - du) by lra. assert (V : 0 <= 1 - dv) by lra.
  assert (W : 0 <= 1 - dw) by lra.
  pose proof (weight_nonneg _ _ _ (v1 - L) U V W ltac:(lra)) as P1.
  pose proof (weight_nonneg _ _ _ (v2 - L) U0 V W ltac:(lra)) as P2.
  pose proof (weight_nonneg _ _ _ (v3 - L) U V0 W ltac:(lra)) as P3.
  pose proof (weight_nonneg _ _ _ (v4 - L) U V W0 ltac:(lra)) as P4.
  pose proof (weight_nonneg _ _ _ (v5 - L) U0 V W0 ltac:(lra)) as P5.
  pose proof (weight_nonneg _ _ _ (v6 - L) U V0 W0 ltac:(lra)) as P6.
  pose proof (weight_nonneg _ _ _ (v7 - L) U0 V0 W ltac:(lra)) as P7.
  pose proof (weight_nonneg _ _ _ (v8 - L) U0 V0 W0 ltac:(lra)) as P8.
  nra.
Qed.

Lemma convex8_upper (v1 v2 v3 v4 v5 v6 v7 v8 du dv dw H : Q) :
  0 <= du <= 1 -> 0 <= dv <= 1 -> 0 <= dw <= 1 ->
  v1 <= H -> v2 <= H -> v3 <= H -> v4 <= H -> v5 <= H -> v6 <= H -> v7 <= H -> v8 <= H ->
  v1 * (1 - du) * (1 - dv) * (1 - dw) + v2 * du * (1 - dv) * (1 - dw) +
  v3 * (1 - du) * dv * (1 - dw) + v4 * (1 - du) * (1 - dv) * dw +
  v5 * du * (1 - dv) * dw + v6 * (1 - du) * dv * dw +
  v7 * du * dv * (1 - dw) + v8 * du * dv * dw <= H.
Proof.
  intros HU HV HW H1 H2 H3 H4 H5 H6 H7 H8.
  pose proof (convex8 (- v1) (- v2) (- v3) (- v4) (- v5) (- v6) (- v7) (- v8)
                du dv dw (- H) HU HV HW
                ltac:(lra) ltac:(lra) ltac:(lra) ltac:(lra)
                ltac:(lra) ltac:(lra) ltac:(lra) ltac:(lra)) as P.
  lra.
Qed.

(** X11: for a coordinate that is not below the offset on any axis, the
    value [map_coordinates_linear] writes is a convex combination of the
    eight voxels it reads: it lies between any two bounds that hold for
    the voxels at [linear_indices]. *)
Theorem map_coordinates_linear_between_neighbours
  (src : array3) (c0 c1 c2 l0 l1 l2 lower upper : Q) :
  l0 <= c0 -> l1 <= c1 -> l2 <= c2 ->
  Forall (fun idx : Z3 => let '(u, v, w) := idx in lower <= src u v w <= upper)
         (linear_indices (c0, c1, c2) (l0, l1, l2)) ->
  lower <= map_coordinates_linear src (c0, c1, c2) (l0, l1, l2) <= upper.
Proof.
  intros H0 H1 H2 HF.
  unfold linear_indices, zip3 in HF.
  repeat match goal with H : Forall _ (_ :: _) |- _ => inversion H; clear H; subst end.
  pose proof (frac_range (c0 - l0) ltac:(lra)) as [].
  pose proof (frac_range (c1 - l1) ltac:(lra)) as [].
  pose proof (frac_range (c2 - l2) ltac:(lra)) as [].
  unfold map_coordinates_linear; split.
  - apply convex8; tauto.
  - apply convex8_upper; tauto.
Qed.

Lemma map_coordinates_linear_between_neighbours_witness :
  0 <= map_coordinates_linear (fun u v w => inject_Z (u + v + w))
         (3 # 2, 5 # 2, 1 # 3) (1, 1 # 2, 0) <= 5.
Proof.
  apply (map_coordinates_linear_between_neighbours
           (fun u v w => inject_Z (u + v + w)) (3 # 2) (5 # 2) (1 # 3) 1 (1 # 2) 0 0 5);
    try discriminate.
  repeat (apply Forall_cons; [split; discriminate|]). apply Forall_nil.
Defined.

(** X12: [map_coordinates_linear] reproduces affine volumes exactly:
    when the eight voxels read for a coordinate lie inside the array and
    the voxel at (u, v, w) of the array holds [a u + b v + c w + d], the
    value written is [a], [b], [c] applied to the offset-corrected
    coordinate plus [d].  A coordinate less than one voxel below the
    offset is included: its integer part is 0 and the ramp between the
    voxels 0 and 1 is continued downwards. *)
Theorem map_coordinates_linear_exact_on_ramps
  (src : array3) (ext : Z3) (a b c d : Q) (coords lo : Q3) :
  Forall (inside ext) (linear_indices coords lo) ->
  (forall u v w, inside ext (u, v, w) ->
     src u v w == a * inject_Z u + b * inject_Z v + c * inject_Z w + d) ->
  map_coordinates_linear src coords lo ==
  a * (fst3 coords - fst3 lo) + b * (snd3 coords - snd3 lo)
  + c * (thd3 coords - thd3 lo) + d.
Proof.
  intros Hin H.
  destruct coords as [[c0 c1] c2], lo as [[l0 l1] l2].
  unfold linear_indices in Hin; cbn [zip3] in Hin.
  repeat match goal with
         | I : Forall _ (_ :: _) |- _ =>
             let A := fresh "A" in
             apply Forall_cons_iff in I; destruct I as [A I]; apply H in A
         end.
  unfold map_coordinates_linear; cbn [fst3 snd3 thd3].
  rewrite A, A0, A1, A2, A3, A4, A5, A6, !inject_Z_plus.
  change (inject_Z 1) with 1. ring.
Qed.

Lemma map_coordinates_linear_exact_on_ramps_witness :
  map_coordinates_linear (channel (ramp [1; 4; 4; 4]%Z) 0)
    (3 # 2, 3, 1 # 3) (1, 1 # 2, 1) ==
  100 * ((3 # 2) - 1) + 10 * (3 - (1 # 2)) + 1 * ((1 # 3) - 1) + 0.
Proof.
  apply (map_coordinates_linear_exact_on_ramps
           (channel (ramp [1; 4; 4; 4]%Z) 0) (4, 4, 4)%Z 100 10 1 0
           (3 # 2, 3, 1 # 3) (1, 1 # 2, 1)).
  - vm_compute. repeat constructor; discriminate.
  - intros u v w _. unfold channel, ramp; cbn [item].
    rewrite !inject_Z_plus, !inject_Z_mult. ring.
Defined.

Lemma Qround_even_inject (z : Z) : Qround_even (inject_Z z) = z.
Proof.
  unfold Qround_even. rewrite Qfloor_Z.
  replace (inject_Z z - inject_Z z ?= 1 # 2) with Lt; [reflexivity|].
  symmetry; apply Qlt_alt.
  setoid_replace (inject_Z z - inject_Z z) with 0 by ring. reflexivity.
Qed.

Lemma Qround_even_near (q : Q) :
  - (1 # 2) <= q - inject_Z (Qround_even q) <= 1 # 2.
Proof.
  unfold Qround_even.
  pose proof (Qfloor_le q) as F. pose proof (Qlt_floor q) as L.
  rewrite inject_Z_plus in L; change (inject_Z 1) with 1 in L.
  destruct (q - inject_Z (Qfloor q) ?= 1 # 2) eqn:E.
  - apply Qeq_alt in E.
    destruct (Z.even (Qfloor q));
      [|rewrite inject_Z_plus; change (inject_Z 1) with 1]; split; lra.
  - apply Qlt_alt in E. split; lra.
  - apply Qgt_alt in E. rewrite inject_Z_plus; change (inject_Z 1) with 1. split; lra.
Qed.

Lemma Qround_even_tie (k : Z) :
  Qround_even (inject_Z k + (1 # 2)) = if Z.even k then k else (k + 1)%Z.
Proof.
  unfold Qround_even.
  assert (F : Qfloor (inject_Z k + (1 # 2)) = k).
  { pose proof (Qfloor_le (inject_Z k + (1 # 2))) as A.
    pose proof (Qlt_floor (inject_Z k + (1 # 2))) as B.
    rewrite inject_Z_plus in B; change (inject_Z 1) with 1 in B.
    assert (A' : inject_Z (Qfloor (inject_Z k + (1 # 2))) < inject_Z (k + 1))
      by (rewrite inject_Z_plus; change (inject_Z 1) with 1; lra).
    assert (B' : inject_Z k < inject_Z (Qfloor (inject_Z k + (1 # 2)) + 1))
      by (rewrite inject_Z_plus; change (inject_Z 1) with 1; lra).
    rewrite <- Zlt_Qlt in A', B'. lia. }
  rewrite F.
  replace (inject_Z k + (1 # 2) - inject_Z k ?= 1 # 2) with Eq; [reflexivity|].
  symmetry; apply Qeq_alt. ring.
Qed.

(** X13: [map_coordinates_nearest] writes the voxel at [nearest_index]:
    on each axis the index is within half a voxel of the
    offset-corrected coordinate; a coordinate on the voxel grid reads its
    own voxel; and a coordinate half-way between two voxels reads the one
    with the even index ([np.round] rounds half to even). *)
Theorem map_coordinates_nearest_reads_nearest
  (src : array3) (c0 c1 c2 l0 l1 l2 : Q) :
  (let '(u, v, w) := nearest_index (c0, c1, c2) (l0, l1, l2) in
   map_coordinates_nearest src (c0, c1, c2) (l0, l1, l2) = src u v w /\
   - (1 # 2) <= c0 - l0 - inject_Z u <= 1 # 2 /\
   - (1 # 2) <= c1 - l1 - inject_Z v <= 1 # 2 /\
   - (1 # 2) <= c2 - l2 - inject_Z w <= 1 # 2) /\
  (forall i j k : Z,
     map_coordinates_nearest src
       (l0 + inject_Z i, l1 + inject_Z j, l2 + inject_Z k) (l0, l1, l2) = src i j k) /\
  (forall i j k : Z,
     map_coordinates_nearest src
       (inject_Z i + (1 # 2), inject_Z j, inject_Z k) (0, 0, 0)
     = src (if Z.even i then i else (i + 1)%Z) j k).
Proof.
  split; [|split].
  - unfold nearest_index, zip3, map_coordinates_nearest.
    split; [reflexivity|].
    repeat split; apply Qround_even_near.
  - intros i j k; unfold map_coordinates_nearest.
    assert (E : forall l z, Qround_even (l + inject_Z z - l) = z).
    { intros l z. rewrite <- (Qround_even_inject z) at 2.
      unfold Qround_even.
      assert (Q1 : l + inject_Z z - l == inject_Z z) by ring.
      rewrite (Qfloor_comp _ _ Q1).
      replace (l + inject_Z z - l - inject_Z (Qfloor (inject_Z z)) ?= 1 # 2)
        with (inject_Z z - inject_Z (Qfloor (inject_Z z)) ?= 1 # 2); [reflexivity|].
      apply Qcompare_comp; [rewrite Q1|]; reflexivity. }
    now rewrite !E.
  - intros i j k; unfold map_coordinates_nearest.
    assert (E0 : forall q, Qround_even (q - 0) = Qround_even q).
    { intros q. unfold Qround_even.
      assert (Q1 : q - 0 == q) by ring.
      rewrite (Qfloor_comp _ _ Q1).
      replace (q - 0 - inject_Z (Qfloor q) ?= 1 # 2)
        with (q - inject_Z (Qfloor q) ?= 1 # 2); [reflexivity|].
      apply Qcompare_comp; [rewrite Q1|]; reflexivity. }
    now rewrite !E0, Qround_even_tie, !Qround_even_inject.
Qed.

(** * Further properties of the patch extraction *)

(** ** What a successful run of the input part has done *)

Lemma warp_input_ok (inp_src : Dataset) (p : Z3) (M : matrix)
  (sh : Z3) (coords : Z3 -> Q3) (inp : Dataset) :
  outcome (warp_input inp_src p M) = ok (sh, coords, inp) ->
  exists c M_inv lo hi,
    shape inp_src = c :: list3 sh /\
    inv M = ok M_inv /\
    corner_bounds M M_inv p = ok (lo, hi) /\
    oob lo hi sh = false /\
    trace (warp_input inp_src p M) =
      [ReadRegion inp_src lo (map3 (fun h => (h + 1)%Z) hi)] /\
    (forall ix, coords ix = map_src M M_inv (dest_coord ix)) /\
    shape inp = c :: list3 p /\
    forall k z y x,
      item inp [k; z; y; x] =
      map_coordinates_linear
        (fun u v w => item inp_src [k; (fst3 lo + u)%Z; (snd3 lo + v)%Z; (thd3 lo + w)%Z])
        (map_src M M_inv (dest_coord (z, y, x))) (map3 inject_Z lo).
Proof.
  unfold warp_input.
  destruct (shape inp_src) as [|c [|d [|h [|w [|x l]]]]] eqn:Hsh; try discriminate.
  cbn [io_bind io_lift ok raise app].
  destruct (inv M) as [e|M_inv] eqn:Hinv; [discriminate|].
  cbn [io_bind io_lift ok raise app].
  destruct (corner_bounds M M_inv p) as [e|[lo hi]] eqn:Hcb; [discriminate|].
  cbn [io_bind io_lift ok raise app].
  destruct (oob lo hi (d, h, w)) eqn:Hoob; [discriminate|].
  unfold make_dest_coords.
  destruct (any3 _ p); [discriminate|].
  cbn [io_bind io_lift ok raise app].
  rewrite slice_h5_4d by now rewrite Hsh.
  destruct lo as [[l0 l1] l2].
  cbn [io_bind io_ret ok app outcome trace fst snd].
  intros E; unfold ok in E.
  injection E as E1 E2 E3.
  exists c, M_inv, (l0, l1, l2), hi.
  subst sh coords inp.
  repeat split; try reflexivity; assumption.
Qed.

Lemma warp_slice_input (inp_src : Dataset) (p : Z3) (M : matrix)
  (target_src : option Dataset) (tps : option Z3) (discr : option (list Z))
  (inp : Dataset) (tgt : option Dataset) :
  outcome (warp_slice inp_src p M target_src tps discr) = ok (inp, tgt) ->
  exists sh coords,
    outcome (warp_input inp_src p M) = ok (sh, coords, inp) /\
    match target_src with
    | None => tgt = None /\
              trace (warp_slice inp_src p M target_src tps discr)
              = trace (warp_input inp_src p M)
    | Some t =>
        exists target,
          tgt = Some target /\
          outcome (warp_target sh p coords t tps discr) = ok target /\
          trace (warp_slice inp_src p M target_src tps discr)
          = trace (warp_input inp_src p M) ++ trace (warp_target sh p coords t tps discr)
    end.
Proof.
  unfold warp_slice. rewrite outcome_io_bind, trace_io_bind.
  destruct (outcome (warp_input inp_src p M)) as [e|[[sh coords] inp0]]; [discriminate|].
  destruct target_src as [t|].
  - rewrite outcome_io_bind, trace_io_bind.
    destruct (outcome (warp_target sh p coords t tps discr)) as [e|target] eqn:Et;
      [discriminate|].
    cbn [io_ret outcome trace fst snd]. intros E; unfold ok in E.
    assert (inp0 = inp) by congruence. assert (tgt = Some target) by congruence.
    subst. exists sh, coords; split; [reflexivity|].
    exists target; split; [reflexivity|]. split; [exact Et|]. now rewrite app_nil_r.
  - cbn [io_ret outcome trace fst snd]. intros E; unfold ok in E.
    assert (inp0 = inp) by congruence. assert (tgt = None) by congruence.
    subst. exists sh, coords; repeat split. now rewrite app_nil_r.
Qed.

Lemma input_voxel_in_cut (M M_inv : matrix) (p0 p1 p2 z y x : Z) (lo hi : Z3) :
  has_perspective M = false ->
  corner_bounds M M_inv (p0, p1, p2) = ok (lo, hi) ->
  (0 <= z < p0)%Z -> (0 <= y < p1)%Z -> (0 <= x < p2)%Z ->
  let c := map_src M M_inv (dest_coord (z, y, x)) in
  (inject_Z (fst3 lo) <= fst3 c /\ inject_Z (snd3 lo) <= snd3 c /\
   inject_Z (thd3 lo) <= thd3 c) /\
  Forall (inside (cut_extent lo hi)) (linear_indices c (map3 inject_Z lo)).
Proof.
  intros Hp Hcb Hz Hy Hx.
  destruct (map_src_affine M M_inv Hp) as (A0 & A1 & A2).
  pose proof (fun v Hv => corner_bounds_bound M M_inv _ lo hi v Hcb Hv) as Hb.
  destruct (voxel_between_corner_bounds _ p0 p1 p2 z y x (fst3 lo) (fst3 hi) A0)
    as [L0 U0]; try assumption; try (intros v Hv; apply (Hb v Hv)).
  destruct (voxel_between_corner_bounds _ p0 p1 p2 z y x (snd3 lo) (snd3 hi) A1)
    as [L1 U1]; try assumption; try (intros v Hv; apply (Hb v Hv)).
  destruct (voxel_between_corner_bounds _ p0 p1 p2 z y x (thd3 lo) (thd3 hi) A2)
    as [L2 U2]; try assumption; try (intros v Hv; apply (Hb v Hv)).
  cbv zeta.
  destruct (map_src M M_inv (dest_coord (z, y, x))) as [[c0 c1] c2].
  destruct lo as [[l0 l1] l2], hi as [[h0 h1] h2]; cbn [fst3 snd3 thd3] in *.
  split; [auto|].
  pose proof (axis_trunc_range _ c0 l0 h0 (Qeq_refl _) L0 U0).
  pose proof (axis_trunc_range _ c1 l1 h1 (Qeq_refl _) L1 U1).
  pose proof (axis_trunc_range _ c2 l2 h2 (Qeq_refl _) L2 U2).
  unfold linear_indices, cut_extent, inside, zip3, map3.
  repeat (apply Forall_cons; [cbv beta iota; lia|]). apply Forall_nil.
Qed.

(** The value written by the trilinear resampler lies between two bounds
    that hold throughout the sub-cube it reads from. *)
Lemma linear_within_cut (src : array3) (c l : Q3) (ext : Z3) (lower upper : Q) :
  fst3 l <= fst3 c -> snd3 l <= snd3 c -> thd3 l <= thd3 c ->
  Forall (inside ext) (linear_indices c l) ->
  (forall u v w, inside ext (u, v, w) -> lower <= src u v w <= upper) ->
  lower <= map_coordinates_linear src c l <= upper.
Proof.
  destruct c as [[c0 c1] c2], l as [[l0 l1] l2]; cbn [fst3 snd3 thd3].
  intros H0 H1 H2 HF HB.
  unfold linear_indices, zip3 in HF.
  repeat match goal with H : Forall _ (_ :: _) |- _ => inversion H; clear H; subst end.
  repeat match goal with H : inside ext _ |- _ => apply HB in H end.
  pose proof (frac_range (c0 - l0) ltac:(lra)) as [].
  pose proof (frac_range (c1 - l1) ltac:(lra)) as [].
  pose proof (frac_range (c2 - l2) ltac:(lra)) as [].
  unfold map_coordinates_linear; split.
  - apply convex8; tauto.
  - apply convex8_upper; tauto.
Qed.

(** X14: when the forward matrix has no perspective row, a successful
    [warp_slice] has first requested one region [lo, hi) of the input
    source and returns an input patch of shape (C,) + patch_shape in
    which every voxel lies between any two bounds that hold for the
    voxels of its channel in that region: the patch is interpolated from
    the region read, and from nothing else. *)
Theorem warped_input_within_region_values
  (inp_src : Dataset) (p0 p1 p2 : Z) (M : matrix)
  (target_src : option Dataset) (tps : option Z3) (discr : option (list Z))
  (inp : Dataset) (tgt : option Dataset) :
  has_perspective M = false ->
  outcome (warp_slice inp_src (p0, p1, p2) M target_src tps discr) = ok (inp, tgt) ->
  exists lo hi rest,
    trace (warp_slice inp_src (p0, p1, p2) M target_src tps discr)
      = ReadRegion inp_src lo hi :: rest /\
    shape inp = hd 0%Z (shape inp_src) :: [p0; p1; p2] /\
    forall k z y x lower upper,
      (0 <= z < p0)%Z -> (0 <= y < p1)%Z -> (0 <= x < p2)%Z ->
      (forall u v w, in_region lo hi (u, v, w) ->
                     lower <= item inp_src [k; u; v; w] <= upper) ->
      lower <= item inp [k; z; y; x] <= upper.
Proof.
  intros Hp E.
  apply warp_slice_input in E; destruct E as (sh & coords & Ei & Et).
  apply warp_input_ok in Ei.
  destruct Ei as (c & M_inv & lo & hi & Hsh & Hinv & Hcb & Hoob & Htr & Hco & Hshape & Hitem).
  exists lo, (map3 (fun h => (h + 1)%Z) hi).
  assert (T : exists rest,
             trace (warp_slice inp_src (p0, p1, p2) M target_src tps discr)
             = ReadRegion inp_src lo (map3 (fun h => (h + 1)%Z) hi) :: rest).
  { destruct target_src as [t|].
    - destruct Et as (target & _ & _ & ->). rewrite Htr. now eexists.
    - destruct Et as (_ & ->). rewrite Htr. now eexists. }
  destruct T as [rest T]; exists rest.
  split; [exact T|]. split; [rewrite Hshape, Hsh; reflexivity|].
  intros k z y x lower upper Hz Hy Hx HB.
  rewrite Hitem.
  destruct (input_voxel_in_cut M M_inv p0 p1 p2 z y x lo hi Hp Hcb Hz Hy Hx)
    as ((L0 & L1 & L2) & HF).
  apply (linear_within_cut _ _ _ (cut_extent lo hi)); try assumption.
  - now rewrite fst3_map3.
  - now rewrite snd3_map3.
  - now rewrite thd3_map3.
  - intros u v w Hin. apply HB.
    destruct lo as [[l0 l1] l2], hi as [[h0 h1] h2].
    cbv [cut_extent zip3 inside in_region map3 fst3 snd3 thd3] in *. lia.
Qed.

Lemma warped_input_within_region_values_witness :
  exists inp tgt lo hi rest,
    outcome (warp_slice (ramp [1; 6; 6; 6]%Z) (4, 4, 4)%Z identity None None None)
      = ok (inp, tgt) /\
    trace (warp_slice (ramp [1; 6; 6; 6]%Z) (4, 4, 4)%Z identity None None None)
      = ReadRegion (ramp [1; 6; 6; 6]%Z) lo hi :: rest /\
    shape inp = [1; 4; 4; 4]%Z.
Proof.
  assert (H : is_ok (outcome (warp_slice (ramp [1; 6; 6; 6]%Z) (4, 4, 4)%Z identity
                                None None None)) = true) by (vm_compute; reflexivity).
  destruct (outcome (warp_slice (ramp [1; 6; 6; 6]%Z) (4, 4, 4)%Z identity
                       None None None)) as [e|[inp tgt]] eqn:E;
    [discriminate H|].
  destruct (warped_input_within_region_values (ramp [1; 6; 6; 6]%Z) 4 4 4 identity
              None None None inp tgt eq_refl E) as (lo & hi & rest & T & S & _).
  exists inp, tgt, lo, hi, rest. repeat split; assumption.
Defined.

(** ** What a successful run of the target part has done *)

Lemma In_indices4 (n k : Z) (sh ix : Z3) :
  (0 <= k < n)%Z -> inside sh ix -> In (k :: list3 ix) (indices4 n sh).
Proof.
  intros Hk Hi; unfold indices4.
  apply in_flat_map; exists k; split; [now apply In_range|].
  apply (in_map (fun ix : Z3 => k :: list3 ix)). now apply In_grid3.
Qed.

Lemma existsb_none {A} (f : A -> bool) (l : list A) :
  (forall x, In x l -> f x = false) -> existsb f l = false.
Proof.
  intros H; destruct (existsb f l) eqn:E; [|reflexivity].
  apply existsb_exists in E; destruct E as (x & Hx & Hf).
  rewrite (H x Hx) in Hf; discriminate.
Qed.

(** The indices both resamplers read for a coordinate of the target
    window lie inside the sub-cube fetched for the target, and the
    coordinate is not below the offset. *)
Lemma target_index_in_cut (pts : list Q3) (off lo_targ hi_targ : Z3) (c : Q3) :
  target_bounds pts off = ok (lo_targ, hi_targ) -> In c pts ->
  let l := zip3 (fun l o => inject_Z (l + o)) lo_targ off in
  (fst3 l <= fst3 c /\ snd3 l <= snd3 c /\ thd3 l <= thd3 c) /\
  inside (cut_extent lo_targ hi_targ) (nearest_index c l) /\
  Forall (inside (cut_extent lo_targ hi_targ)) (linear_indices c l).
Proof.
  intros Htb Hc.
  unfold target_bounds in Htb.
  destruct (reduce3 Qmin pts) as [|mn] eqn:Emn; [discriminate|].
  destruct (reduce3 Qmax pts) as [|mx] eqn:Emx; [discriminate|].
  cbn [rbind ok] in Htb; unfold ok in Htb.
  assert (E1 : lo_targ = zip3 (fun m o => Qfloor (m - inject_Z o)) mn off)
    by congruence.
  assert (E2 : hi_targ = zip3 (fun m o => Qceiling (m - inject_Z o + 1)) mx off)
    by congruence.
  subst lo_targ hi_targ; clear Htb.
  pose proof (reduce3_bound Qle Qmin Qle_refl Qle_trans Q.le_min_l Q.le_min_r
                _ _ c Emn Hc) as (N0 & N1 & N2).
  pose proof (reduce3_bound (fun a b => b <= a) Qmax Qle_refl
                (fun a b c H1 H2 => Qle_trans _ _ _ H2 H1)
                Q.le_max_l Q.le_max_r _ _ c Emx Hc) as (X0 & X1 & X2).
  destruct c as [[c0 c1] c2], mn as [[n0 n1] n2], mx as [[x0 x1] x2],
           off as [[o0 o1] o2]; cbn [fst3 snd3 thd3] in N0, N1, N2, X0, X1, X2.
  assert (R : forall cc nn xx oo, nn <= cc -> cc <= xx ->
            let lo := Qfloor (nn - inject_Z oo) in
            let hi := Qceiling (xx - inject_Z oo + 1) in
            let t := cc - inject_Z (lo + oo) in
            inject_Z (lo + oo) <= cc /\
            (0 <= Qtrunc t /\ Qtrunc t + 1 <= hi - lo)%Z /\
            (0 <= Qround_even t <= hi - lo)%Z).
  { intros cc nn xx oo Hn Hx lo' hi' t.
    assert (Et : t == (cc - inject_Z oo) - inject_Z lo')
      by (unfold t; rewrite inject_Z_plus; ring).
    pose proof (Qfloor_le (nn - inject_Z oo)).
    pose proof (Qle_ceiling (xx - inject_Z oo + 1)).
    split; [rewrite inject_Z_plus; unfold lo'; lra|].
    split; [eapply axis_trunc_range | eapply axis_round_range];
      try exact Et; unfold lo', hi'; lra. }
  destruct (R c0 n0 x0 o0 N0 X0) as (B0 & T0 & R0).
  destruct (R c1 n1 x1 o1 N1 X1) as (B1 & T1 & R1).
  destruct (R c2 n2 x2 o2 N2 X2) as (B2 & T2 & R2).
  cbv zeta in B0, B1, B2, T0, T1, T2, R0, R1, R2.
  unfold nearest_index, linear_indices, cut_extent, inside, zip3, map3.
  cbn [fst3 snd3 thd3].
  split; [auto|]. split; [lia|].
  repeat (apply Forall_cons; [cbv beta iota; lia|]). apply Forall_nil.
Qed.

Lemma nearest_within_cut (src : array3) (c l : Q3) (ext : Z3) (lower upper : Q) :
  inside ext (nearest_index c l) ->
  (forall u v w, inside ext (u, v, w) -> lower <= src u v w <= upper) ->
  lower <= map_coordinates_nearest src c l <= upper.
Proof.
  destruct c as [[c0 c1] c2], l as [[l0 l1] l2].
  unfold nearest_index, zip3, map_coordinates_nearest. intros Hi HB. now apply HB.
Qed.

Lemma linear_below_cut (src : array3) (c l : Q3) (ext : Z3) (upper : Q) :
  fst3 l <= fst3 c -> snd3 l <= snd3 c -> thd3 l <= thd3 c ->
  Forall (inside ext) (linear_indices c l) ->
  (forall u v w, inside ext (u, v, w) -> src u v w <= upper) ->
  map_coordinates_linear src c l <= upper.
Proof.
  destruct c as [[c0 c1] c2], l as [[l0 l1] l2]; cbn [fst3 snd3 thd3].
  intros H0 H1 H2 HF HB.
  unfold linear_indices, zip3 in HF.
  repeat match goal with H : Forall _ (_ :: _) |- _ => inversion H; clear H; subst end.
  repeat match goal with H : inside ext _ |- _ => apply HB in H end.
  pose proof (frac_range (c0 - l0) ltac:(lra)) as [].
  pose proof (frac_range (c1 - l1) ltac:(lra)) as [].
  pose proof (frac_range (c2 - l2) ltac:(lra)) as [].
  unfold map_coordinates_linear. apply convex8_upper; tauto.
Qed.

Lemma nearest_reads_cut (src : array3) (c l : Q3) (ext : Z3) :
  inside ext (nearest_index c l) ->
  exists u v w, inside ext (u, v, w) /\ map_coordinates_nearest src c l = src u v w.
Proof.
  destruct c as [[c0 c1] c2], l as [[l0 l1] l2].
  unfold nearest_index, zip3, map_coordinates_nearest. intros Hi.
  eexists _, _, _; split; [exact Hi | reflexivity].
Qed.

Lemma cut_index_in_region (l0 l1 l2 u v w : Z) (hi : Z3) :
  inside (cut_extent (l0, l1, l2) hi) (u, v, w) ->
  in_region (l0, l1, l2) (map3 (fun h => (h + 1)%Z) hi)
            ((l0 + u)%Z, (l1 + v)%Z, (l2 + w)%Z).
Proof.
  destruct hi as [[h0 h1] h2]. cbv [cut_extent zip3 inside in_region map3]. lia.
Qed.

(** X15: a successful [warp_slice] with a target has requested one
    region [lo, hi) of the target source after the region of the input
    source and returns a target patch of shape (C_t,) + target_patch_shape
    that holds nothing but what was read: every voxel of a discrete
    channel is the voxel of that channel at some index of the region
    (nearest-neighbour resampling invents no label), and every voxel of
    any channel lies between any two bounds that hold for the channel
    throughout the region. *)
Theorem warped_target_within_region_values
  (inp_src : Dataset) (p : Z3) (M : matrix) (t : Dataset)
  (tps : option Z3) (discr : option (list Z)) (inp target : Dataset) :
  outcome (warp_slice inp_src p M (Some t) tps discr) = ok (inp, Some target) ->
  exists e lo hi q0 q1 q2,
    tps = Some (q0, q1, q2) /\
    trace (warp_slice inp_src p M (Some t) tps discr) = [e; ReadRegion t lo hi] /\
    shape target = hd 0%Z (shape t) :: [q0; q1; q2] /\
    forall k z y x,
      (0 <= k < hd 0 (shape t))%Z ->
      (0 <= z < q0)%Z -> (0 <= y < q1)%Z -> (0 <= x < q2)%Z ->
      (match discr with None => True | Some l => In k l end ->
       exists u v w, in_region lo hi (u, v, w) /\
                     item target [k; z; y; x] = item t [k; u; v; w]) /\
      (forall lower upper,
         (forall u v w, in_region lo hi (u, v, w) ->
                        lower <= item t [k; u; v; w] <= upper) ->
         lower <= item target [k; z; y; x] <= upper).
Proof.
  intros E.
  apply warp_slice_input in E; destruct E as (sh & coords & Ei & target' & Et0 & Et & Htr).
  injection Et0 as <-.
  pose proof (warp_input_cases inp_src p M) as Hi; rewrite Ei in Hi.
  destruct Hi as (_ & ilo & ihi & Hti & _).
  rewrite Hti in Htr; clear Hti Ei.
  unfold outcome in Et; unfold trace at 2 in Htr.
  unfold warp_target in Et, Htr.
  destruct tps as [[[q0 q1] q2]|]; [|discriminate].
  cbn [io_bind io_lift ok raise app fst snd] in Et, Htr.
  destruct (shape t) as [|n_f_t tl_sh] eqn:Hsh; [discriminate|].
  cbn [io_bind io_lift ok raise app fst snd] in Et, Htr.
  destruct (spatial_extent t) as [e|tsh] eqn:Hext; [discriminate|].
  cbn [io_bind io_lift ok raise app fst snd] in Et, Htr.
  destruct (any3 is_odd (zip3 Z.sub sh tsh)); [discriminate|].
  destruct (any3 is_odd (zip3 Z.sub p (q0, q1, q2))); [discriminate|].
  destruct (target_window _ _ _) as [start count] eqn:Hw.
  destruct (target_bounds _ _) as [e|[lo_t hi_t]] eqn:Htb; [discriminate|].
  cbn [io_bind io_lift ok raise app fst snd] in Et, Htr.
  destruct (oob lo_t hi_t tsh) eqn:Hoob; [discriminate|].
  destruct lo_t as [[l0 l1] l2].
  cbn [slice_h5 io_bind ok app fst snd] in Et, Htr.
  destruct (length (shape t) =? 4)%nat; [|discriminate].
  cbn [io_bind ok app fst snd] in Et, Htr.
  destruct (reduce_axis Qmax _) as [e|n] eqn:Hn; [discriminate|].
  cbn [io_bind io_lift ok raise app fst snd] in Et, Htr.
  destruct (negb _) eqn:Hbc; [discriminate|].
  cbn [io_ret io_bind io_lift ok raise app fst snd] in Et, Htr.
  set (off := map3 (fun o => (o / 2)%Z) (zip3 Z.sub sh tsh)) in *.
  set (lo' := zip3 (fun l o => inject_Z (l + o)) (l0, l1, l2) off) in *.
  set (sct := fun ix : Z3 => coords (zip3 Z.add start ix)) in *.
  set (cutk := fun (k u v w : Z) => item t [k; (l0 + u)%Z; (l1 + v)%Z; (l2 + w)%Z]).
  set (ext := cut_extent (l0, l1, l2) hi_t).
  apply negb_false_iff in Hbc.
  (* the coordinate of a voxel of the target patch and the indices read for it *)
  assert (Hc : forall ix, inside (q0, q1, q2) ix ->
             let c := sct (zip3 (fun m i => if (m =? 1)%Z then 0%Z else i) count ix) in
             (fst3 lo' <= fst3 c /\ snd3 lo' <= snd3 c /\ thd3 lo' <= thd3 c) /\
             inside ext (nearest_index c lo') /\
             Forall (inside ext) (linear_indices c lo')).
  { intros ix Hix.
    apply (target_index_in_cut _ off (l0, l1, l2) hi_t _ Htb).
    now apply (target_coordinate_in_window sct count (q0, q1, q2) ix Hbc). }
  (* nothing in the sub-cube exceeds its maximum *)
  assert (Hmax : forall k u v w, (0 <= k < n_f_t)%Z -> inside ext (u, v, w) ->
                 cutk k u v w <= n).
  { intros k u v w Hk Hin.
    apply (reduce_axis_bound (fun a b => b <= a) Qmax Qle_refl
             (fun a b c H1 H2 => Qle_trans _ _ _ H2 H1) Q.le_max_l Q.le_max_r _ _ _ Hn).
    match goal with
    | |- In _ (map ?f ?l) => change (In (f (k :: list3 (u, v, w))) (map f l))
    end.
    apply in_map.
    now apply In_indices4. }
  match type of Et with
  | context [existsb ?f (range n_f_t)] =>
      assert (Hclip : existsb f (range n_f_t) = false)
  end.
  { apply existsb_none; intros k Hk; apply existsb_none; intros ix Hix.
    apply In_range in Hk; apply In_grid3 in Hix.
    apply Qlt_bool_false.
    destruct (Hc ix Hix) as ((L0 & L1 & L2) & Hnear & Hlin).
    destruct (match discr with Some l => existsb (Z.eqb k) l | None => true end).
    - destruct (nearest_reads_cut (cutk k) _ _ _ Hnear) as (u & v & w & Hin & E).
      pose proof (Hmax k u v w Hk Hin) as B. rewrite <- E in B. exact B.
    - apply (linear_below_cut (cutk k) _ _ ext); try assumption.
      intros u v w Hin; now apply Hmax. }
  rewrite Hclip in Et.
  unfold ok in Et; injection Et as <-.
  exists (ReadRegion inp_src ilo ihi), (l0, l1, l2), (map3 (fun h => (h + 1)%Z) hi_t),
         q0, q1, q2.
  split; [reflexivity|]. split; [exact Htr|]. split; [reflexivity|].
  cbn [hd item].
  intros k z y x Hk Hz Hy Hx.
  destruct (Hc (z, y, x) (conj Hz (conj Hy Hx))) as ((L0 & L1 & L2) & Hnear & Hlin).
  split.
  - intros Hd.
    assert (Dk : match discr with Some l => existsb (Z.eqb k) l | None => true end = true).
    { destruct discr as [l|]; [|reflexivity].
      apply existsb_exists; exists k; split; [exact Hd | apply Z.eqb_refl]. }
    rewrite Dk.
    destruct (nearest_reads_cut (cutk k) _ _ _ Hnear) as (u & v & w & Hin & E).
    exists (l0 + u)%Z, (l1 + v)%Z, (l2 + w)%Z.
    split; [now apply cut_index_in_region | exact E].
  - intros lower upper HB.
    assert (HB' : forall u v w, inside ext (u, v, w) -> lower <= cutk k u v w <= upper).
    { intros u v w Hin. apply HB. now apply cut_index_in_region. }
    destruct (match discr with Some l => existsb (Z.eqb k) l | None => true end).
    + now apply (nearest_within_cut (cutk k) _ _ ext).
    + now apply (linear_within_cut (cutk k) _ _ ext).
Qed.

Lemma warped_target_within_region_values_witness :
  exists inp target e lo hi,
    outcome (warp_slice (ramp [1; 6; 6; 6]%Z) (4, 4, 4)%Z identity
               (Some (labels [1; 6; 6; 6]%Z)) (Some (2, 2, 2)%Z) None)
      = ok (inp, Some target) /\
    trace (warp_slice (ramp [1; 6; 6; 6]%Z) (4, 4, 4)%Z identity
             (Some (labels [1; 6; 6; 6]%Z)) (Some (2, 2, 2)%Z) None)
      = [e; ReadRegion (labels [1; 6; 6; 6]%Z) lo hi] /\
    shape target = [1; 2; 2; 2]%Z.
Proof.
  assert (H : is_ok (outcome (warp_slice (ramp [1; 6; 6; 6]%Z) (4, 4, 4)%Z identity
                                (Some (labels [1; 6; 6; 6]%Z)) (Some (2, 2, 2)%Z) None))
              = true) by (vm_compute; reflexivity).
  destruct (outcome (warp_slice (ramp [1; 6; 6; 6]%Z) (4, 4, 4)%Z identity
                       (Some (labels [1; 6; 6; 6]%Z)) (Some (2, 2, 2)%Z) None))
    as [e|[inp tgt]] eqn:E; [discriminate H|].
  destruct (warp_slice_input _ _ _ _ _ _ _ _ E) as (sh & coords & _ & target & -> & _).
  destruct (warped_target_within_region_values _ _ _ _ _ _ _ _ E)
    as (e & lo & hi & q0 & q1 & q2 & Eq & T & S & _).
  injection Eq as <- <- <-.
  exists inp, target, e, lo, hi. repeat split; assumption.
Defined.

(** ** A zero anisotropy factor *)

Lemma det_chain_zero (l1 l2 : list matrix) (A : matrix) :
  Forall mat4 l1 -> mat4 A -> Forall mat4 l2 -> det 4 A == 0 ->
  det 4 (chain_matrices (l1 ++ A :: l2)) == 0.
Proof.
  intros H1 HA H2 HD.
  unfold chain_matrices. rewrite fold_left_app; cbn [fold_left].
  fold (chain_matrices l1).
  assert (G : forall B, mat4 B -> det 4 B == 0 -> det 4 (fold_left dot l2 B) == 0).
  { induction l2 as [|C l2 IH]; intros B HB DB; [exact DB|].
    inversion H2; subst. cbn [fold_left]. apply IH; [assumption| |].
    - now apply mat4_dot.
    - rewrite det_dot by assumption. rewrite DB; ring. }
  apply G.
  - apply mat4_dot; [now apply mat4_chain | assumption].
  - rewrite det_dot by (try assumption; now apply mat4_chain).
    rewrite HD; ring.
Qed.

Lemma mat4_rotmat (cos sin arcsin : Q -> Q) (pi : Q) (lock_z : bool) (amount : Q)
  (rng : RandomState) :
  mat4 (fst (get_random_rotmat cos sin arcsin pi lock_z amount rng)).
Proof.
  destruct (get_random_rotmat_cases cos sin arcsin pi lock_z amount rng)
    as (g & p & t & ->).
  destruct lock_z; cbn [fst]; [apply mat4_intro|].
  apply mat4_chain. repeat (apply Forall_cons; [apply mat4_intro|]). apply Forall_nil.
Qed.

Lemma mat4_warpmat (lock_z perspective : bool) (amount : Q) (rng ambient : RandomState) :
  mat4 (fst (get_random_warpmat lock_z perspective amount rng ambient)).
Proof.
  destruct (get_random_warpmat_form lock_z perspective amount rng ambient)
    as (p00 & p01 & p02 & p03 & p10 & p11 & p12 & p13 & p20 & p21 & p22 & p23
        & q0 & q1 & q2 & -> & _).
  apply mat4_intro.
Qed.

(** X16: with [aniso_factor = 0] the sampler cannot deliver a usable
    matrix.  With [sample_aniso] it never returns ([1.0 / aniso_factor]
    raises); without it, whatever it returns is a singular matrix, and
    [warp_slice] on a 4-d source raises [LinAlgError] for it before any
    read request. *)
Theorem sampler_zero_aniso_factor
  (cos sin arcsin : Q -> Q) (pi : Q)
  (inp_src_shape : list Z) (p0 p1 p2 : Z)
  (sample_aniso : bool) (warp_amount : Q) (lock_z no_x_flip perspective : bool)
  (tss : option (list Z)) (tps : option Z3) (rng ambient : RandomState)
  (m : sampled matrix) :
  get_warped_coord_transform cos sin arcsin pi inp_src_shape (p0, p1, p2)
    0 sample_aniso warp_amount lock_z no_x_flip perspective
    tss tps rng ambient = ok m ->
  sample_aniso = false /\
  det 4 (value m) == 0 /\
  forall inp_src patch target_src target_patch_shape discr,
    length (shape inp_src) = 4%nat ->
    warp_slice inp_src patch (value m) target_src target_patch_shape discr
    = ([], raise LinAlgError).
Proof.
  unfold get_warped_coord_transform.
  destruct (transform_factors _ _ _ _ _ _ _ _ _ _ _ _ _ _ _ _) as [e|f] eqn:E;
    [discriminate|]; cbn [rbind].
  intros Em; unfold ok in Em.
  assert (Em' : m = mkSampled (chain_matrices (factor_list (value f)))
                      (rng_after f) (ambient_after f)) by congruence.
  subst m; clear Em; cbn [value].
  apply transform_factors_inv in E.
  destruct E as (tss' & tps' & inp3 & tgt3 & lo0 & lo1 & lo2 & hi0 & hi1 & hi2
                 & iz & iy & ix & r2 & r3 & r4 & _ & _ & _ & _ & _ & _ & _
                 & ETs & ESs & EF & ES & ER & ED & ETd).
  assert (Hs : sample_aniso = false).
  { destruct sample_aniso; [|reflexivity]. destruct ED as [N _]; now elim N. }
  split; [exact Hs|].
  subst sample_aniso.
  assert (D : det 4 (chain_matrices (factor_list (value f))) == 0).
  { unfold factor_list.
    apply (det_chain_zero [f_T_dest (value f); f_S_dest (value f); f_R (value f);
                           f_W (value f); f_F (value f); f_S (value f)]
                          [f_T_src (value f)] (f_S_src (value f))).
    - rewrite ETd, ED.
      destruct (get_random_flipmat_cases no_x_flip r2)
        as (f0 & f1 & f2 & _ & _ & _ & _ & EF').
      rewrite EF' in EF; injection EF as EF _.
      assert (MS : mat4 (f_S (value f))).
      { destruct no_x_flip; [rewrite ES; apply mat4_intro|].
        now apply (det_swap lock_z). }
      assert (MR : mat4 (f_R (value f)) /\ mat4 (f_W (value f))).
      { destruct (isclose0 warp_amount); destruct ER as [-> ->].
        - split; apply mat4_intro.
        - split; [apply mat4_rotmat | apply mat4_warpmat]. }
      destruct MR as [MR MW]. rewrite <- EF.
      repeat (apply Forall_cons); try apply Forall_nil; try assumption;
        apply mat4_intro.
    - rewrite ESs; apply mat4_intro.
    - rewrite ETs; repeat constructor.
    - rewrite ESs, det_scale. reflexivity. }
  split; [exact D|].
  intros inp_src patch target_src target_patch_shape discr Hlen.
  unfold warp_slice, warp_input.
  destruct (shape inp_src) as [|c [|d [|h [|w [|x l]]]]]; try discriminate Hlen.
  cbn [io_bind io_lift ok raise app].
  now rewrite (inv_singular _ D).
Qed.

Lemma sampler_zero_aniso_factor_witness :
  exists m,
    get_warped_coord_transform cos_series sin_series arcsin_series pi_approx
      [10; 10; 10]%Z (4, 4, 4)%Z 0 false 0 true false false
      (Some [10; 10; 10]%Z) (Some (4, 4, 4)%Z) [3; 1; 4; 1; 5; 9; 2; 6]%Z [] = ok m /\
    det 4 (value m) == 0 /\
    warp_slice (ramp [1; 10; 10; 10]%Z) (4, 4, 4)%Z (value m) None None None
    = ([], raise LinAlgError).
Proof.
  destruct (transform_factors_succeeds cos_series sin_series arcsin_series pi_approx
              [10; 10; 10]%Z (4, 4, 4)%Z 0 false 0 true false false
              [10; 10; 10]%Z (4, 4, 4)%Z (10, 10, 10)%Z (10, 10, 10)%Z
              [3; 1; 4; 1; 5; 9; 2; 6]%Z []) as [f Hf];
    try reflexivity; try discriminate.
  assert (Hm : get_warped_coord_transform cos_series sin_series arcsin_series pi_approx
                 [10; 10; 10]%Z (4, 4, 4)%Z 0 false 0 true false false
                 (Some [10; 10; 10]%Z) (Some (4, 4, 4)%Z) [3; 1; 4; 1; 5; 9; 2; 6]%Z []
               = ok (mkSampled (chain_matrices (factor_list (value f)))
                       (rng_after f) (ambient_after f))).
  { unfold get_warped_coord_transform.
    change (@Some (Z * Z * Z)%type) with (@Some Z3).
    rewrite Hf; reflexivity. }
  eexists; split; [exact Hm|].
  destruct (sampler_zero_aniso_factor _ _ _ _ _ _ _ _ _ _ _ _ _ _ _ _ _ _ Hm)
    as (_ & D & W).
  split; [exact D|]. now apply W.
Defined.

(** ** The three axis rotations *)

(** X21: when the functions standing for [np.cos] and [np.sin] satisfy
    [cos^2 + sin^2 = 1], each of [rotate_z], [rotate_y] and [rotate_x] is
    a proper rotation (orthogonal, determinant 1) for every angle.  In
    the (z, y, x) order of [translate] and [scale], [rotate_z] leaves the
    axis with index 0 in place, [rotate_y] the axis with index 2 and
    [rotate_x] the axis with index 1. *)
Theorem axis_rotations_are_rotations (cos sin : Q -> Q) (a : Q) :
  (forall t, cos t * cos t + sin t * sin t == 1) ->
  (orthogonal (rotate_z cos sin a) /\ det 4 (rotate_z cos sin a) == 1 /\
   veq (mat_vec (rotate_z cos sin a) [1; 0; 0; 0]) [1; 0; 0; 0]) /\
  (orthogonal (rotate_y cos sin a) /\ det 4 (rotate_y cos sin a) == 1 /\
   veq (mat_vec (rotate_y cos sin a) [0; 0; 1; 0]) [0; 0; 1; 0]) /\
  (orthogonal (rotate_x cos sin a) /\ det 4 (rotate_x cos sin a) == 1 /\
   veq (mat_vec (rotate_x cos sin a) [0; 1; 0; 0]) [0; 1; 0; 0]).
Proof.
  intros P.
  split; [|split].
  - split; [now apply orthogonal_rotate_z|]. split; [now apply det_rotate_z|].
    unfold rotate_z; mat4_ring.
  - split; [now apply orthogonal_rotate_y|]. split; [now apply det_rotate_y|].
    unfold rotate_y; mat4_ring.
  - split; [now apply orthogonal_rotate_x|]. split; [now apply det_rotate_x|].
    unfold rotate_x; mat4_ring.
Qed.

Lemma axis_rotations_are_rotations_witness :
  orthogonal (rotate_x cos_rational sin_rational (1 # 3)) /\
  det 4 (rotate_x cos_rational sin_rational (1 # 3)) == 1.
Proof.
  destruct (axis_rotations_are_rotations cos_rational sin_rational (1 # 3)
              rational_circle) as (_ & _ & O & D & _).
  exact (conj O D).
Defined.

(** ** Patch extraction under an integer translation *)

Lemma inv_translate (a b c : Q) :
  exists Mi, inv (translate a b c) = ok Mi /\ mat4 Mi /\
             mat_eq Mi (translate (- a) (- b) (- c)).
Proof.
  assert (HM : mat4 (translate a b c)) by apply mat4_intro.
  assert (HT : mat4 (translate (- a) (- b) (- c))) by apply mat4_intro.
  assert (HD : ~ det 4 (translate a b c) == 0)
    by (rewrite det_translate; discriminate).
  destruct (inv_ok _ HM HD) as (Mi & E & HMi & _ & HL).
  exists Mi; split; [exact E|]. split; [exact HMi|].
  assert (R : mat_eq (dot (translate a b c) (translate (- a) (- b) (- c))) identity)
    by (unfold translate; mat4_ring).
  rewrite <- (dot_identity_r Mi HMi), <- R.
  rewrite <- (dot_assoc Mi _ _ HMi HM HT), HL.
  now apply dot_identity_l.
Qed.

Lemma has_perspective_translate (a b c : Q) : has_perspective (translate a b c) = false.
Proof. reflexivity. Qed.

(** The source coordinate of a destination point under the translation
    by [-d]: the point moved by [d]. *)
Lemma map_src_translate (a b c : Q) (Mi : matrix) (x y z : Q) :
  mat_eq Mi (translate (- a) (- b) (- c)) ->
  fst3 (map_src (translate a b c) Mi [x; y; z; 1]) == x - a /\
  snd3 (map_src (translate a b c) Mi [x; y; z; 1]) == y - b /\
  thd3 (map_src (translate a b c) Mi [x; y; z; 1]) == z - c.
Proof.
  intros H; unfold map_src; rewrite has_perspective_translate.
  assert (V : veq (mat_vec Mi [x; y; z; 1]) [x - a; y - b; z - c; 1]).
  { rewrite H. unfold translate; mat4_ring. }
  cbv [spatial fst3 snd3 thd3].
  repeat split; apply (Forall2_nth Qeq _ _ 0 0 V (Qeq_refl 0)).
Qed.

Lemma corner_bounds_translate (d0 d1 d2 p0 p1 p2 : Z) (Mi : matrix) :
  mat_eq Mi (translate (inject_Z d0) (inject_Z d1) (inject_Z d2)) ->
  corner_bounds (translate (- inject_Z d0) (- inject_Z d1) (- inject_Z d2)) Mi
    (p0, p1, p2) =
  ok ((d0 + Z.min 0 (p0 - 1), d1 + Z.min 0 (p1 - 1), d2 + Z.min 0 (p2 - 1))%Z,
      (d0 + Z.max 1 p0, d1 + Z.max 1 p1, d2 + Z.max 1 p2)%Z).
Proof.
  intros H.
  assert (H' : mat_eq Mi (translate (- - inject_Z d0) (- - inject_Z d1) (- - inject_Z d2))).
  { rewrite H. unfold translate.
    repeat first [apply Forall2_nil | apply Forall2_cons]; ring. }
  assert (F : forall u v w : Z,
            map3 Qfloor (map_src (translate (- inject_Z d0) (- inject_Z d1) (- inject_Z d2))
                           Mi [inject_Z u; inject_Z v; inject_Z w; 1])
            = ((d0 + u)%Z, (d1 + v)%Z, (d2 + w)%Z)).
  { intros u v w.
    destruct (map_src_translate _ _ _ Mi (inject_Z u) (inject_Z v) (inject_Z w) H')
      as (E0 & E1 & E2).
    destruct (map_src _ Mi _) as [[c0 c1] c2]; cbn [fst3 snd3 thd3 map3] in *.
    assert (G : forall q n m, q == inject_Z n - - inject_Z m -> Qfloor q = (m + n)%Z).
    { intros q n m Hq. rewrite <- (Qfloor_Z (m + n)). apply Qfloor_comp.
      rewrite Hq, inject_Z_plus. ring. }
    now rewrite (G _ _ _ E0), (G _ _ _ E1), (G _ _ _ E2). }
  assert (C : forall u v w : Z,
            map3 (fun q => Qceiling (q + 1))
                 (map_src (translate (- inject_Z d0) (- inject_Z d1) (- inject_Z d2))
                    Mi [inject_Z u; inject_Z v; inject_Z w; 1])
            = ((d0 + u + 1)%Z, (d1 + v + 1)%Z, (d2 + w + 1)%Z)).
  { intros u v w.
    destruct (map_src_translate _ _ _ Mi (inject_Z u) (inject_Z v) (inject_Z w) H')
      as (E0 & E1 & E2).
    destruct (map_src _ Mi _) as [[c0 c1] c2]; cbn [fst3 snd3 thd3 map3] in *.
    assert (G : forall q n m, q == inject_Z n - - inject_Z m ->
                              Qceiling (q + 1) = (m + n + 1)%Z).
    { intros q n m Hq. rewrite <- (Qceiling_Z (m + n + 1)). apply Qceiling_comp.
      rewrite Hq, !inject_Z_plus. ring. }
    now rewrite (G _ _ _ E0), (G _ _ _ E1), (G _ _ _ E2). }
  unfold corner_bounds, make_dest_corners; cbn [map3 map].
  rewrite !F, !C.
  cbn [reduce3 reduce_axis map fst3 snd3 thd3 fold_left rbind ok].
  unfold ok; f_equal.
  repeat match goal with |- (_, _) = (_, _) => f_equal end; lia.
Qed.

(** X22: under the translation by an integer offset,
    [M = translate(-d0, -d1, -d2)] with [d >= 0], a patch of shape [p]
    with [1 <= p] and [d + p <= shape - 1] on every spatial axis is
    extracted without error, from the region [d, d + p + 1) of the
    source, and every voxel of the patch equals the voxel of the source
    at the index moved by [d]: the patch is the crop at offset [d]. *)
Theorem integer_translation_is_crop
  (inp_src : Dataset) (c d h w p0 p1 p2 d0 d1 d2 : Z) :
  shape inp_src = [c; d; h; w] ->
  (0 <= d0)%Z -> (0 <= d1)%Z -> (0 <= d2)%Z ->
  (1 <= p0 <= d - 1 - d0)%Z -> (1 <= p1 <= h - 1 - d1)%Z -> (1 <= p2 <= w - 1 - d2)%Z ->
  exists inp,
    warp_slice inp_src (p0, p1, p2)
      (translate (- inject_Z d0) (- inject_Z d1) (- inject_Z d2)) None None None
    = ([ReadRegion inp_src (d0, d1, d2)
          ((d0 + p0 + 1)%Z, (d1 + p1 + 1)%Z, (d2 + p2 + 1)%Z)],
       ok (inp, None)) /\
    shape inp = [c; p0; p1; p2] /\
    forall k z y x,
      (0 <= k < c)%Z -> (0 <= z < p0)%Z -> (0 <= y < p1)%Z -> (0 <= x < p2)%Z ->
      item inp [k; z; y; x] == item inp_src [k; (d0 + z)%Z; (d1 + y)%Z; (d2 + x)%Z].
Proof.
  intros Hs D0 D1 D2 H0 H1 H2; unfold warp_slice, warp_input; rewrite Hs.
  destruct (inv_translate (- inject_Z d0) (- inject_Z d1) (- inject_Z d2))
    as (Mi & -> & HMi & HE).
  assert (HE' : mat_eq Mi (translate (inject_Z d0) (inject_Z d1) (inject_Z d2))).
  { rewrite HE. unfold translate.
    repeat first [apply Forall2_nil | apply Forall2_cons]; ring. }
  cbn [io_bind io_lift ok raise app].
  rewrite (corner_bounds_translate d0 d1 d2 p0 p1 p2 Mi HE').
  cbn [io_bind io_lift ok raise app].
  rewrite !Z.min_l, !Z.max_r by lia.
  replace (oob _ _ _) with false.
  2:{ symmetry; cbv [oob any3 zip3].
      rewrite !orb_false_iff, !Z.ltb_ge, !Z.geb_leb, !Z.leb_gt. lia. }
  replace (make_dest_coords (p0, p1, p2)) with (ok dest_coord).
  2:{ unfold make_dest_coords; cbv [any3].
      destruct (Z.ltb_spec p0 0); [lia|].
      destruct (Z.ltb_spec p1 0); [lia|].
      destruct (Z.ltb_spec p2 0); [lia|]. reflexivity. }
  rewrite slice_h5_4d by now rewrite Hs.
  cbn [io_bind io_lift io_ret ok raise app map3].
  rewrite !Z.add_0_r.
  eexists; split; [reflexivity|]. split; [reflexivity|].
  intros k z y x _ _ _ _; cbn [item].
  destruct (map_src_translate _ _ _ Mi (inject_Z z) (inject_Z y) (inject_Z x) HE)
    as (Ez & Ey & Ex).
  rewrite map_coordinates_linear_at_voxel with (i := z) (j := y) (l := x).
  - unfold channel; cbn [item]. reflexivity.
  - cbn [dest_coord fst3]. rewrite Ez. ring.
  - cbn [dest_coord snd3]. rewrite Ey. ring.
  - cbn [dest_coord thd3]. rewrite Ex. ring.
Qed.

Lemma integer_translation_is_crop_witness :
  exists inp,
    warp_slice (ramp [1; 6; 6; 6]%Z) (3, 3, 3)%Z
      (translate (- inject_Z 2) (- inject_Z 1) (- inject_Z 0)) None None None
    = ([ReadRegion (ramp [1; 6; 6; 6]%Z) (2, 1, 0)%Z (6, 5, 4)%Z], ok (inp, None)) /\
    shape inp = [1; 3; 3; 3]%Z /\
    forall k z y x,
      (0 <= k < 1)%Z -> (0 <= z < 3)%Z -> (0 <= y < 3)%Z -> (0 <= x < 3)%Z ->
      item inp [k; z; y; x]
      == item (ramp [1; 6; 6; 6]%Z) [k; (2 + z)%Z; (1 + y)%Z; (0 + x)%Z].
Proof.
  apply (integer_translation_is_crop (ramp [1; 6; 6; 6]%Z) 1 6 6 6 3 3 3 2 1 0);
    first [reflexivity | lia].
Defined.

(** ** How much of the generators a run consumes *)

Lemma next_word_state (s : RandomState) : snd (next_word s) = skipn 1 s.
Proof. now destruct s. Qed.

Lemma rs_randint_state (low high : Q) (s s' : RandomState) (v : Z) :
  rs_randint low high s = ok (v, s') -> s' = skipn 1 s.
Proof.
  unfold rs_randint. destruct (Z.leb _ _); [discriminate|].
  pose proof (next_word_state s) as N.
  destruct (next_word s) as [w t]; cbn [snd] in N.
  intros E; unfold ok in E. congruence.
Qed.

(** X23: a successful run of the sampler consumes a number of words of
    the passed generator that depends on the options only: three for the
    centre, four for the flips, one for the axis swap unless [no_x_flip],
    and, unless the warp amount is within 1e-8 of zero, one (under
    [lock_z]) or three for the rotation; the generator of the module
    gives sixteen variates to the warp factor in that case, and nothing
    otherwise. *)
Theorem sampler_consumes_generators
  (cos sin arcsin : Q -> Q) (pi : Q)
  (inp_src_shape : list Z) (patch_shape : Z3) (aniso_factor : Z)
  (sample_aniso : bool) (warp_amount : Q) (lock_z no_x_flip perspective : bool)
  (tss : option (list Z)) (tps : option Z3) (rng ambient : RandomState)
  (m : sampled matrix) :
  get_warped_coord_transform cos sin arcsin pi inp_src_shape patch_shape
    aniso_factor sample_aniso warp_amount lock_z no_x_flip perspective
    tss tps rng ambient = ok m ->
  rng_after m =
    skipn (3 + 4 + (if no_x_flip then 0 else 1)
           + (if isclose0 warp_amount then 0 else if lock_z then 1 else 3)) rng /\
  ambient_after m = skipn (if isclose0 warp_amount then 0 else 16) ambient.
Proof.
  unfold get_warped_coord_transform, transform_factors.
  destruct tss as [tss|]; [|discriminate]; cbn [rbind ok].
  destruct tps as [tps|]; [|discriminate]; cbn [rbind ok].
  destruct (bcast3 (last3 inp_src_shape)) as [|inp3]; [discriminate|]; cbn [rbind].
  destruct (bcast3 (last3 tss)) as [|tgt3]; [discriminate|]; cbn [rbind].
  destruct (center_bounds patch_shape tps inp3 tgt3) as [[[lo0 lo1] lo2] [[hi0 hi1] hi2]].
  destruct (negb _); [discriminate|].
  destruct patch_shape as [[p0 p1] p2]; cbn [map3].
  destruct (rs_randint lo0 hi0 rng) as [|[iz r0]] eqn:E0; [discriminate|]; cbn [rbind].
  destruct (rs_randint lo1 hi1 r0) as [|[iy r1]] eqn:E1; [discriminate|]; cbn [rbind].
  destruct (rs_randint lo2 hi2 r1) as [|[ix r2]] eqn:E2; [discriminate|]; cbn [rbind].
  apply rs_randint_state in E0, E1, E2.
  destruct (get_random_flipmat_cases no_x_flip r2)
    as (f0 & f1 & f2 & _ & _ & _ & _ & ->).
  cbv beta iota.
  destruct (if no_x_flip then _ else _)
    as [|[Sm r4]] eqn:ES; cbn [rbind]; [discriminate|].
  assert (E4 : r4 = skipn (if no_x_flip then 0 else 1) (skipn 4 r2)).
  { destruct no_x_flip.
    - unfold ok in ES; injection ES as _ <-; reflexivity.
    - apply get_random_swapmat_in in ES. destruct ES as [_ ->]. apply next_word_state. }
  destruct (if isclose0 warp_amount then _ else _) as [[[Rm Wm] r5] a5] eqn:ER.
  assert (E5 : r5 = skipn (if isclose0 warp_amount then 0 else if lock_z then 1 else 3) r4
               /\ a5 = skipn (if isclose0 warp_amount then 0 else 16) ambient).
  { destruct (isclose0 warp_amount).
    - injection ER as _ _ <- <-; split; reflexivity.
    - destruct (get_random_rotmat_cases cos sin arcsin pi lock_z warp_amount r4)
        as (g & p & t & ER').
      rewrite ER' in ER.
      destruct (get_random_warpmat_form lock_z perspective warp_amount
                  (snd (if lock_z
                        then (rotate_z cos sin g, skipn 1 r4)
                        else (chain_matrices [rotate_z cos sin g; rotate_y cos sin t;
                                              rotate_z cos sin p], skipn 3 r4)))
                  ambient)
        as (p00 & p01 & p02 & p03 & p10 & p11 & p12 & p13 & p20 & p21 & p22 & p23
            & q0 & q1 & q2 & EW & _).
      destruct lock_z; cbn [snd] in EW; rewrite EW in ER; split; congruence. }
  destruct E5 as [E5 E6].
  destruct (if sample_aniso then _ else _) as [|Sd]; cbn [rbind]; [discriminate|].
  intros E; unfold ok in E.
  injection E as <-; cbn [rng_after ambient_after].
  split; [|exact E6].
  rewrite E5, E4, E2, E1, E0, !skipn_skipn. f_equal. lia.
Qed.

Lemma sampler_consumes_generators_witness :
  exists m,
    get_warped_coord_transform cos_series sin_series arcsin_series pi_approx
      [10; 10; 10]%Z (4, 4, 4)%Z 2 true 0 true false false
      (Some [10; 10; 10]%Z) (Some (4, 4, 4)%Z)
      [3; 1; 4; 1; 5; 9; 2; 6; 5; 3]%Z [2; 7]%Z = ok m /\
    rng_after m = [5; 3]%Z /\ ambient_after m = [2; 7]%Z.
Proof.
  destruct (transform_factors_succeeds cos_series sin_series arcsin_series pi_approx
              [10; 10; 10]%Z (4, 4, 4)%Z 2 true 0 true false false
              [10; 10; 10]%Z (4, 4, 4)%Z (10, 10, 10)%Z (10, 10, 10)%Z
              [3; 1; 4; 1; 5; 9; 2; 6; 5; 3]%Z [2; 7]%Z) as [f Hf];
    try reflexivity; try discriminate.
  assert (Hm : get_warped_coord_transform cos_series sin_series arcsin_series pi_approx
                 [10; 10; 10]%Z (4, 4, 4)%Z 2 true 0 true false false
                 (Some [10; 10; 10]%Z) (Some (4, 4, 4)%Z)
                 [3; 1; 4; 1; 5; 9; 2; 6; 5; 3]%Z [2; 7]%Z
               = ok (mkSampled (chain_matrices (factor_list (value f)))
                       (rng_after f) (ambient_after f))).
  { unfold get_warped_coord_transform.
    change (@Some (Z * Z * Z)%type) with (@Some Z3).
    rewrite Hf; reflexivity. }
  eexists; split; [exact Hm|].
  exact (sampler_consumes_generators _ _ _ _ _ _ _ _ _ _ _ _ _ _ _ _ _ Hm).
Defined.

(** ** A patch with an empty axis *)

(** X24: under the identity transform a patch shape with a zero on some
    axis is out of bounds for every 4-d source: the corner at [shape - 1]
    then lies at -1, and [warp_slice] raises [WarpingOOBError] without a
    read request. *)
Theorem empty_patch_is_out_of_bounds
  (inp_src : Dataset) (p0 p1 p2 : Z)
  (target_src : option Dataset) (tps : option Z3) (discr : option (list Z)) :
  length (shape inp_src) = 4%nat ->
  (p0 = 0 \/ p1 = 0 \/ p2 = 0)%Z ->
  warp_slice inp_src (p0, p1, p2) identity target_src tps discr
  = ([], raise WarpingOOBError).
Proof.
  intros Hlen Hp; unfold warp_slice, warp_input.
  destruct (shape inp_src) as [|c [|d [|h [|w [|x l]]]]]; try discriminate Hlen.
  rewrite inv_identity.
  cbn [io_bind io_lift ok raise app].
  rewrite corner_bounds_identity; cbn [io_bind io_lift ok raise app].
  replace (oob _ _ _) with true; [reflexivity|].
  symmetry; cbv [oob any3 zip3].
  rewrite !orb_true_iff, !Z.ltb_lt. lia.
Qed.

Lemma empty_patch_is_out_of_bounds_witness :
  warp_slice (ramp [1; 6; 6; 6]%Z) (4, 0, 4)%Z identity None None None
  = ([], raise WarpingOOBError).
Proof.
  apply (empty_patch_is_out_of_bounds (ramp [1; 6; 6; 6]%Z) 4 0 4 None None None);
    [reflexivity | lia].
Defined.

(** ** When the sampler returns a matrix *)




(** * Properties of the helpers of [utils.py] *)

(** ** The file-name filter *)

Lemma startswith_spec (b a : Utils.str) :
  Utils.startswith b a = true <-> exists suf, b = a ++ suf.
Proof.
  revert b; induction a as [|x a IH]; intros b; cbn.
  - split; [intros _; now exists b | reflexivity].
  - destruct b as [|y b].
    + split; [discriminate | intros (suf & E); discriminate].
    + rewrite andb_true_iff, Ascii.eqb_eq, IH. split.
      * intros (-> & suf & ->); now exists suf.
      * intros (suf & E); injection E as -> ->. split; [reflexivity | now exists suf].
Qed.

Lemma str_in_spec (a b : Utils.str) :
  Utils.str_in a b = true <-> exists pre suf, b = pre ++ a ++ suf.
Proof.
  induction b as [|y b IH]; cbn [Utils.str_in]; rewrite orb_true_iff, startswith_spec.
  - split.
    + intros [(suf & E) | H]; [|discriminate]. now exists [], suf.
    + intros (pre & suf & E). left.
      destruct pre; [now exists suf | discriminate].
  - rewrite IH. split.
    + intros [(suf & E) | (pre & suf & E)].
      * now exists [], suf.
      * exists (y :: pre), suf. now rewrite E.
    + intros (pre & suf & E). destruct pre as [|z pre].
      * left; now exists suf.
      * right. injection E as -> ->. now exists pre, suf.
Qed.

Lemma keeps_iff_endswith (ending f : Utils.str) :
  Utils.keeps ending f = true <-> exists pre, f = pre ++ ending.
Proof.
  unfold Utils.keeps; rewrite str_in_spec.
  destruct ending as [|c e].
  - cbn. split.
    + intros _. exists f. now rewrite app_nil_r.
    + intros _. exists f, []. now rewrite app_nil_r.
  - set (ending := c :: e). set (n := length ending).
    assert (Hn : n = S (length e)) by reflexivity.
    unfold Utils.last_chars; rewrite Hn; rewrite <- Hn.
    split.
    + intros (pre & suf & E).
      assert (L : (length (skipn (length f - n) f) <= n)%nat)
        by (rewrite length_skipn; lia).
      rewrite E, !length_app in L. fold n in L.
      assert (pre = []) by (destruct pre; [reflexivity | cbn in L; lia]).
      assert (suf = []) by (destruct suf; [reflexivity | cbn in L; lia]).
      subst pre suf. rewrite app_nil_r in E; cbn [app] in E.
      exists (firstn (length f - n) f).
      rewrite <- E. symmetry; apply firstn_skipn.
    + intros (pre & ->). exists [], [].
      rewrite length_app. fold n.
      replace (length pre + n - n)%nat with (length pre + 0)%nat by lia.
      rewrite skipn_app, Nat.add_0_r, skipn_all. cbn [app].
      replace (length pre - length pre)%nat with 0%nat by lia.
      cbn [skipn]. now rewrite app_nil_r.
Qed.

(** X17: the filter [ending in f[-len(ending):]] of
    [get_filepaths_from_dir] keeps exactly the names that end with
    [ending] (all of them for the empty ending); with a directory that
    [os.walk] cannot list the plain call raises [StopIteration] and the
    recursive call returns the empty list; and when the first triple of
    the walk is the directory itself, the paths of the plain call are the
    first paths of the recursive call. *)
Theorem get_filepaths_from_dir_spec :
  (forall ending f,
     Utils.keeps ending f = true <-> exists pre, f = pre ++ ending) /\
  (forall directory ending,
     Utils.get_filepaths_from_dir [] directory ending false = inl Utils.StopIteration /\
     Utils.get_filepaths_from_dir [] directory ending true = inr []) /\
  (forall directory subdirs files rest ending,
     exists paths more,
       Utils.get_filepaths_from_dir ((directory, subdirs, files) :: rest)
         directory ending false = inr paths /\
       Utils.get_filepaths_from_dir ((directory, subdirs, files) :: rest)
         directory ending true = inr (paths ++ more) /\
       Forall (fun path => exists f pre, In f files /\ f = pre ++ ending /\
                                         path = Utils.path_join directory f) paths).
Proof.
  split; [exact keeps_iff_endswith|]. split; [now split|].
  intros directory subdirs files rest ending.
  eexists _, _; split; [reflexivity|]. split; [reflexivity|].
  apply Forall_forall; intros path Hp.
  apply in_map_iff in Hp; destruct Hp as (f & <- & Hf).
  apply filter_In in Hf; destruct Hf as [Hf Hk].
  apply keeps_iff_endswith in Hk; destruct Hk as (pre & E).
  now exists f, pre.
Qed.

(** ** The timing decorator *)

Section TimeitFacts.

Variables (W A R : Type) (func : A -> W -> R * W) (time : W -> Q).

Lemma call_times_succ (k : nat) (a : A) (w : W) :
  Utils.call_times W A R func (S k) a w
  = snd (func a (Utils.call_times W A R func k a w)).
Proof.
  revert w; induction k as [|k IH]; intros w; [reflexivity|].
  change (Utils.call_times W A R func (S (S k)) a w)
    with (Utils.call_times W A R func (S k) a (snd (func a w))).
  now rewrite IH.
Qed.

End TimeitFacts.

(** X18: the function produced by [timeit(n=...)] calls the wrapped
    function [max(n, 1)] times, one after the other on the state left by
    the call before, and returns the value of the last call; it prints
    the elapsed time divided by [n].  For [n = 0] the function is called
    once and the division raises [ZeroDivisionError], so the value is
    lost; for [n < 0] it is called once and the printed average has the
    opposite sign of the elapsed time. *)
Theorem timeit_decorated_spec
  (W A R : Type) (func : A -> W -> R * W) (time : W -> Q) (n : Z) (a : A) (w : W) :
  let run := Utils.decorated W A R func time n a w in
  let before := Utils.call_times W A R func (Z.to_nat (Z.max n 1) - 1) a w in
  Utils.state_after W R run = Utils.call_times W A R func (Z.to_nat (Z.max n 1)) a w /\
  Utils.state_after W R run = snd (func a before) /\
  (n <> 0%Z ->
   Utils.returned W R run = inr (fst (func a before)) /\
   Utils.printed W R run
   = Some ((time (Utils.state_after W R run) - time w) / inject_Z n)) /\
  (n = 0%Z ->
   Utils.returned W R run = inl Utils.ZeroDivisionError /\
   Utils.printed W R run = None).
Proof.
  cbv zeta; unfold Utils.decorated.
  assert (E : (if (1 <? n)%Z
               then Utils.call_times W A R func (Z.to_nat (n - 1)) a w else w)
              = Utils.call_times W A R func (Z.to_nat (Z.max n 1) - 1) a w).
  { destruct (Z.ltb_spec 1 n).
    - f_equal; lia.
    - replace (Z.to_nat (Z.max n 1) - 1)%nat with 0%nat by lia. reflexivity. }
  rewrite E.
  set (before := Utils.call_times W A R func (Z.to_nat (Z.max n 1) - 1) a w).
  assert (S1 : Utils.call_times W A R func (Z.to_nat (Z.max n 1)) a w
               = snd (func a before)).
  { replace (Z.to_nat (Z.max n 1)) with (S (Z.to_nat (Z.max n 1) - 1)) by lia.
    apply call_times_succ. }
  rewrite S1.
  destruct (func a before) as [ret w'] eqn:Ef; cbn [fst snd].
  destruct (Z.eqb_spec n 0) as [Hn | Hn]; cbn.
  - repeat split; try reflexivity; intros; contradiction.
  - repeat split; try reflexivity; intros; contradiction.
Qed.

Lemma timeit_decorated_spec_witness :
  let run := Utils.decorated nat unit nat (fun _ w => (w, S w)) (fun w => inject_Z (Z.of_nat w))
               3 tt 10%nat in
  Utils.returned nat nat run = inr 12%nat /\
  Utils.state_after nat nat run = 13%nat /\
  Utils.printed nat nat run = Some ((inject_Z 13 - inject_Z 10) / inject_Z 3).
Proof.
  destruct (timeit_decorated_spec nat unit nat (fun _ w => (w, S w))
              (fun w => inject_Z (Z.of_nat w)) 3 tt 10%nat) as (S1 & _ & Hn & _).
  destruct (Hn ltac:(discriminate)) as [Hr Hp].
  exact (conj Hr (conj S1 Hp)).
Defined.

Lemma get_filepaths_from_dir_spec_witness :
  Utils.keeps ["."; "h"; "5"]%char ["a"; "."; "h"; "5"]%char = true.
Proof.
  apply (proj2 (proj1 get_filepaths_from_dir_spec ["."; "h"; "5"]%char
                  ["a"; "."; "h"; "5"]%char)).
  now exists ["a"%char].
Defined.

(** ** The signal-delaying context manager *)

Lemma deliveries_single (g : Z) (frs : list Utils.frame) (inst : Z -> Utils.handler)
  (c : list (nat * Z * Utils.frame)) (old : Utils.dict Utils.handler)
  (r : option (Z * Utils.frame)) :
  inst g = Utils.Delaying ->
  Utils.deliveries (map (pair g) frs)
    {| Utils.installed := inst; Utils.calls := c;
       Utils.signal_received := [(g, r)];
       Utils.old_handlers := old; Utils.sig_var := Some g |}
  = {| Utils.installed := inst; Utils.calls := c;
       Utils.signal_received :=
         [(g, match frs with [] => r | _ => Some (g, last frs 0%nat) end)];
       Utils.old_handlers := old; Utils.sig_var := Some g |}.
Proof.
  intros Hg; revert r; induction frs as [|fr frs IH]; intros r; [reflexivity|].
  unfold Utils.deliveries in *; cbn [map fold_left fst snd].
  unfold Utils.deliver at 2; cbn [Utils.installed]; rewrite Hg.
  unfold Utils.record; cbn [Utils.sig_var Utils.signal_received Utils.installed
                            Utils.calls Utils.old_handlers].
  unfold Utils.dict_set; cbn [filter fst]. rewrite Z.eqb_refl; cbn [negb].
  rewrite IH. destruct frs; reflexivity.
Qed.

(** X19: a [DelayedInterrupt] for one signal whose handler is a Python
    callable delays the signal: however often it is delivered inside the
    block, the callable runs once, on exit, with the frame of the last
    delivery, and is installed again.  When the previous handler is
    [SIG_DFL] (the default of SIGTERM) the handler is installed again
    but nothing runs: the deliveries are dropped. *)
Theorem delayed_interrupt_single
  (g : Z) (w0 : Utils.world) (frs : list Utils.frame) :
  Utils.installed w0 g <> Utils.NoHandler ->
  Utils.installed w0 g <> Utils.SIG_IGN ->
  Utils.installed w0 g <> Utils.Delaying ->
  exists w3,
    Utils.exit_loop [g] (Utils.deliveries (map (pair g) frs) (Utils.enter [g] w0))
    = (w3, None) /\
    (forall s, Utils.installed w3 s = Utils.installed w0 s) /\
    Utils.calls w3 =
    Utils.calls w0 ++
    match Utils.installed w0 g, frs with
    | Utils.Callable f, _ :: _ => [(f, g, last frs 0%nat)]
    | _, _ => []
    end.
Proof.
  intros N1 N2 N3.
  unfold Utils.enter; cbn [Utils.enter_loop Utils.installed Utils.calls
                           Utils.signal_received Utils.old_handlers Utils.sig_var].
  unfold Utils.dict_set at 1 2; cbn [filter].
  rewrite deliveries_single
    by (unfold Utils.install; now rewrite Z.eqb_refl).
  cbn [Utils.exit_loop Utils.old_handlers Utils.dict_get Utils.signal_received
       Utils.installed Utils.calls Utils.sig_var].
  rewrite Z.eqb_refl.
  assert (R : forall s,
            Utils.install (Utils.install (Utils.installed w0) g Utils.Delaying) g
              (Utils.installed w0 g) s = Utils.installed w0 s).
  { intros s; unfold Utils.install. destruct (Z.eqb_spec s g); [now subst | reflexivity]. }
  destruct (Utils.installed w0 g) as [| | |f|] eqn:Eh;
    try (now elim N1); try (now elim N2); try (now elim N3).
  - destruct frs as [|fr frs];
      (eexists; split; [reflexivity|]; split; [exact R|];
       cbn [Utils.calls]; now rewrite app_nil_r).
  - destruct frs as [|fr frs].
    + eexists; split; [reflexivity|]. split; [exact R|].
      cbn [Utils.calls]; now rewrite app_nil_r.
    + eexists; split; [reflexivity|]. split; [exact R|]. reflexivity.
Qed.

Lemma delayed_interrupt_single_witness :
  exists w3,
    Utils.exit_loop [2%Z]
      (Utils.deliveries (map (pair 2%Z) [7; 8; 9]%nat)
         (Utils.enter [2%Z]
            {| Utils.installed := fun _ => Utils.Callable 0; Utils.calls := [];
               Utils.signal_received := []; Utils.old_handlers := [];
               Utils.sig_var := None |}))
    = (w3, None) /\
    Utils.calls w3 = [(0%nat, 2%Z, 9%nat)].
Proof.
  destruct (delayed_interrupt_single 2
              {| Utils.installed := fun _ => Utils.Callable 0; Utils.calls := [];
                 Utils.signal_received := []; Utils.old_handlers := [];
                 Utils.sig_var := None |} [7; 8; 9]%nat)
    as (w3 & E & _ & C); try discriminate.
  exists w3; split; [exact E | exact C].
Defined.

(** X20: in a [DelayedInterrupt] for two different signals the closures
    installed for both store a delivery under the key of the second
    signal, because they share the loop variable [sig] of [__enter__].
    A delivery of the first signal is therefore handed, on exit, to the
    previous handler of the second signal (called with the number of the
    first), and the previous handler of the first signal never runs; when
    the previous handler of the second signal is [SIG_DFL], the delivery
    is lost.  Both previous handlers are installed again. *)
Theorem delayed_interrupt_two_signals
  (g1 g2 : Z) (f1 : nat) (fr : Utils.frame) (w0 : Utils.world) :
  g1 <> g2 ->
  Utils.installed w0 g1 = Utils.Callable f1 ->
  (Utils.installed w0 g2 = Utils.SIG_DFL \/
   exists f2, Utils.installed w0 g2 = Utils.Callable f2) ->
  exists w3,
    Utils.exit_loop [g1; g2] (Utils.deliver g1 fr (Utils.enter [g1; g2] w0))
    = (w3, None) /\
    (forall s, Utils.installed w3 s = Utils.installed w0 s) /\
    Utils.calls w3 =
    Utils.calls w0 ++
    match Utils.installed w0 g2 with
    | Utils.Callable f2 => [(f2, g1, fr)]
    | _ => []
    end.
Proof.
  intros Hne H1 H2.
  assert (E12 : (g1 =? g2)%Z = false) by now apply Z.eqb_neq.
  assert (E21 : (g2 =? g1)%Z = false) by (apply Z.eqb_neq; congruence).
  unfold Utils.enter; cbn [Utils.enter_loop Utils.installed Utils.calls
                           Utils.signal_received Utils.old_handlers Utils.sig_var].
  unfold Utils.deliver; cbn [Utils.installed].
  assert (I1 : Utils.install (Utils.install (Utils.installed w0) g1 Utils.Delaying)
                 g2 Utils.Delaying g1 = Utils.Delaying)
    by (unfold Utils.install; now rewrite E12, Z.eqb_refl).
  assert (O2 : Utils.install (Utils.installed w0) g1 Utils.Delaying g2
               = Utils.installed w0 g2)
    by (unfold Utils.install; now rewrite E21).
  rewrite I1, O2, H1.
  unfold Utils.record, Utils.dict_set.
  repeat (progress (cbn [Utils.sig_var Utils.signal_received Utils.installed
                         Utils.calls Utils.old_handlers Utils.exit_loop Utils.dict_get
                         Utils.call filter fst snd negb];
                    rewrite ?E12, ?E21, ?Z.eqb_refl)).
  assert (R : forall h s,
            h = Utils.installed w0 g2 ->
            Utils.install
              (Utils.install
                 (Utils.install (Utils.install (Utils.installed w0) g1 Utils.Delaying)
                    g2 Utils.Delaying) g1 (Utils.Callable f1)) g2 h s
            = Utils.installed w0 s).
  { intros h s ->; unfold Utils.install.
    destruct (Z.eqb_spec s g2); [now subst|].
    destruct (Z.eqb_spec s g1); [now subst|]. reflexivity. }
  destruct H2 as [H2 | [f2 H2]]; rewrite H2;
    repeat (progress (cbn [Utils.sig_var Utils.signal_received Utils.installed
                           Utils.calls Utils.old_handlers Utils.exit_loop Utils.dict_get
                           Utils.call filter fst snd negb];
                      rewrite ?E12, ?E21, ?Z.eqb_refl)).
  - eexists; split; [reflexivity|]. split; [intros s; now apply R|].
    cbn [Utils.calls]; now rewrite app_nil_r.
  - eexists; split; [reflexivity|]. split; [intros s; now apply R|].
    reflexivity.
Qed.

Lemma delayed_interrupt_two_signals_witness :
  exists w3,
    Utils.exit_loop [2; 15]%Z
      (Utils.deliver 2 7%nat
         (Utils.enter [2; 15]%Z
            {| Utils.installed := fun s => if (s =? 2)%Z then Utils.Callable 0
                                           else Utils.SIG_DFL;
               Utils.calls := []; Utils.signal_received := [];
               Utils.old_handlers := []; Utils.sig_var := None |}))
    = (w3, None) /\
    Utils.calls w3 = [].
Proof.
  destruct (delayed_interrupt_two_signals 2 15 0 7%nat
              {| Utils.installed := fun s => if (s =? 2)%Z then Utils.Callable 0
                                             else Utils.SIG_DFL;
                 Utils.calls := []; Utils.signal_received := [];
                 Utils.old_handlers := []; Utils.sig_var := None |})
    as (w3 & E & _ & C); [discriminate | reflexivity | now left |].
  exists w3; split; [exact E | exact C].
Defined.
